(** * Attendance tracker: keyed write queue and submission pipeline

    Shallow embedding of
    - [server/src/services/queue.service.js]  (class [KeyedConcurrentQueue]),
    - [server/src/services/anticheating.service.js],
    - [server/src/services/session.service.js], the store/database layer and
    - [server/src/routes/attendance.routes.js]  (POST /submit).

    JavaScript numbers that hold counters, retry counts and millisecond
    delays are integers in the program and are modelled by [Z].  Console
    output is left out. *)

From Stdlib Require Import ZArith List String Bool Lia QArith Qabs Qround.
Import ListNotations.
Open Scope string_scope.
Open Scope list_scope.
Open Scope Z_scope.

(** ** Keyed concurrent queue *)

Module KeyedConcurrentQueue.

Abbreviation key := string (only parsing).

(** A callback is opaque user code: all the queue can observe is whether a
    call returns or throws.  Callbacks are assumed not to re-enter the queue. *)
Inductive completion (A : Type) : Type :=
| Normal (a : A)
| Abrupt (e : string).
Arguments Normal {A} a.
Arguments Abrupt {A} e.

Record callback := mkCallback {
  cb_name : string;
  cb_throws : option string   (* [Some e]: the call throws [e] *)
}.

(** [{ task, label, retries, onSuccess, onFailure }]; the task, an async
    function, is represented by its identity. *)
Record item := mkItem {
  task : nat;
  label : string;
  retries : Z;
  onSuccess : option callback;
  onFailure : option callback
}.

(** The object's fields, as set up by the constructor. *)
Record queue := mkQueue {
  _lanes : list (key * list item);   (* Map, in insertion order *)
  _activeLanes : list key;           (* Set *)
  _concurrency : Z;
  _maxSize : Z;
  _maxRetries : Z;
  _retryDelay : Z;
  _totalItems : Z;
  _processed : Z;
  _failed : Z
}.

Record options := mkOptions {
  concurrency : Z;
  maxSize : Z;
  opt_retries : Z;
  retryDelay : Z
}.

Definition default_options : options := mkOptions 5 10000 2 1000.

Definition new (o : options) : queue :=
  mkQueue [] [] (concurrency o) (maxSize o) (opt_retries o) (retryDelay o) 0 0 0.

(** What the queue does to the outside world, in program order. *)
Inductive event :=
| Enqueued (k : key) (t : nat)                    (* [enqueue] accepted the task *)
| Started (k : key) (t : nat) (attempt : Z)       (* [item.task()] called, [attempt = item.retries] *)
| Succeeded (k : key) (t : nat)                   (* [_processed++] *)
| Retrying (k : key) (t : nat) (n : Z) (ms : Z)   (* [setTimeout(r, ms)] for retry number [n] *)
| Failed (k : key) (t : nat)                      (* [_failed++], the item is dropped *)
| Called (cb : string) (arg : option string).     (* a callback was invoked with [arg] *)

(** A suspended call of [_processLane(key)]. *)
Inductive frame :=
| AwaitTask (it : item)             (* at [await item.task()] *)
| AwaitTimer (it : item) (ms : Z)   (* at [await new Promise(r => setTimeout(r, ms))] *)
| Returned.                         (* returned; its [.finally] callback is pending *)

(** The queue object together with the suspended lane loops and the trace. *)
Record world := mkWorld {
  this : queue;
  frames : list (key * frame);
  trace : list event
}.

Definition init (o : options) : world := mkWorld (new o) [] [].

(** *** Map and Set operations *)

Fixpoint lane_get (k : key) (ls : list (key * list item)) : option (list item) :=
  match ls with
  | [] => None
  | (k', its) :: ls' => if String.eqb k' k then Some its else lane_get k ls'
  end.

Definition lane_has (k : key) (ls : list (key * list item)) : bool :=
  match lane_get k ls with Some _ => true | None => false end.

(** Replaces the contents of the array stored under [k] (the entry keeps its
    place in the Map). *)
Fixpoint lane_put (k : key) (its : list item) (ls : list (key * list item))
  : list (key * list item) :=
  match ls with
  | [] => []
  | (k', old) :: ls' =>
      if String.eqb k' k then (k', its) :: ls' else (k', old) :: lane_put k its ls'
  end.

(** [Map.set] *)
Definition lane_set (k : key) (its : list item) (ls : list (key * list item))
  : list (key * list item) :=
  if lane_has k ls then lane_put k its ls else ls ++ [(k, its)].

(** [Map.delete] *)
Fixpoint lane_delete (k : key) (ls : list (key * list item)) : list (key * list item) :=
  match ls with
  | [] => []
  | (k', its) :: ls' =>
      if String.eqb k' k then lane_delete k ls' else (k', its) :: lane_delete k ls'
  end.

Definition set_has (k : key) (s : list key) : bool := existsb (String.eqb k) s.
Definition set_add (k : key) (s : list key) : list key :=
  if set_has k s then s else s ++ [k].
Definition set_delete (k : key) (s : list key) : list key :=
  filter (fun k' => negb (String.eqb k k')) s.
Definition set_size (s : list key) : Z := Z.of_nat (List.length s).

Fixpoint frame_get (k : key) (fs : list (key * frame)) : option frame :=
  match fs with
  | [] => None
  | (k', f) :: fs' => if String.eqb k' k then Some f else frame_get k fs'
  end.

Fixpoint frame_remove (k : key) (fs : list (key * frame)) : list (key * frame) :=
  match fs with
  | [] => []
  | (k', f) :: fs' =>
      if String.eqb k' k then frame_remove k fs' else (k', f) :: frame_remove k fs'
  end.

Definition frame_set (k : key) (f : frame) (fs : list (key * frame)) : list (key * frame) :=
  (k, f) :: frame_remove k fs.

(** *** Field updates *)

Definition with_lanes (ls : list (key * list item)) (q : queue) : queue :=
  mkQueue ls (_activeLanes q) (_concurrency q) (_maxSize q) (_maxRetries q)
          (_retryDelay q) (_totalItems q) (_processed q) (_failed q).
Definition with_activeLanes (s : list key) (q : queue) : queue :=
  mkQueue (_lanes q) s (_concurrency q) (_maxSize q) (_maxRetries q)
          (_retryDelay q) (_totalItems q) (_processed q) (_failed q).
Definition with_totalItems (n : Z) (q : queue) : queue :=
  mkQueue (_lanes q) (_activeLanes q) (_concurrency q) (_maxSize q) (_maxRetries q)
          (_retryDelay q) n (_processed q) (_failed q).
Definition with_processed (n : Z) (q : queue) : queue :=
  mkQueue (_lanes q) (_activeLanes q) (_concurrency q) (_maxSize q) (_maxRetries q)
          (_retryDelay q) (_totalItems q) n (_failed q).
Definition with_failed (n : Z) (q : queue) : queue :=
  mkQueue (_lanes q) (_activeLanes q) (_concurrency q) (_maxSize q) (_maxRetries q)
          (_retryDelay q) (_totalItems q) (_processed q) n.

Definition on_queue (f : queue -> queue) (w : world) : world :=
  mkWorld (f (this w)) (frames w) (trace w).
Definition suspend (k : key) (f : frame) (w : world) : world :=
  mkWorld (this w) (frame_set k f (frames w)) (trace w).
Definition emit (e : event) (w : world) : world :=
  mkWorld (this w) (frames w) (trace w ++ [e]).

(** *** Callbacks *)

(** [cb(arg)] *)
Definition invoke (cb : callback) (arg : option string) (w : world)
  : world * completion unit :=
  (emit (Called (cb_name cb) arg) w,
   match cb_throws cb with Some e => Abrupt e | None => Normal tt end).

(** [if (cb) try { cb(arg); } catch (e) { /* ignore */ }] *)
Definition try_invoke (cb : option callback) (arg : option string) (w : world)
  : world * completion unit :=
  match cb with
  | None => (w, Normal tt)
  | Some c =>
      match invoke c arg w with
      | (w', Normal _) => (w', Normal tt)
      | (w', Abrupt _) => (w', Normal tt)
      end
  end.

(** *** [_processLane]

    [loop k] is the body of [_processLane(key)] from the head of its [while]
    up to the next suspension.  The local [items] is the array stored under
    [key]; that entry is only deleted by the lane's own [.finally] callback,
    which cannot run while the call is suspended, so reading the Map again
    yields the same array. *)
Definition loop (k : key) (w : world) : world :=
  match lane_get k (_lanes (this w)) with
  | Some (it :: rest) =>
      (* const item = items.shift(); this._totalItems--; await item.task() *)
      let w1 := on_queue (with_lanes (lane_put k rest (_lanes (this w)))) w in
      let w2 := on_queue (with_totalItems (_totalItems (this w1) - 1)) w1 in
      suspend k (AwaitTask it) (emit (Started k (task it) (retries it)) w2)
  | _ => suspend k Returned w
  end.

Definition _processLane (k : key) (w : world) : world := loop k w.

(** Continuation of [await item.task()] when the task fulfils. *)
Definition task_resolved (k : key) (it : item) (w : world) : world :=
  let w1 := on_queue (with_processed (_processed (this w) + 1)) w in
  let w2 := emit (Succeeded k (task it)) w1 in
  let w3 := fst (try_invoke (onSuccess it) None w2) in
  loop k w3.

Definition bump (it : item) : item :=
  mkItem (task it) (label it) (retries it + 1) (onSuccess it) (onFailure it).

(** The [catch (err)] branch. *)
Definition task_rejected (k : key) (it : item) (err : string) (w : world) : world :=
  if retries it <? _maxRetries (this w) then
    let it' := bump it in
    let ms := _retryDelay (this w) * 2 ^ (retries it' - 1) in
    suspend k (AwaitTimer it' ms) (emit (Retrying k (task it') (retries it') ms) w)
  else
    let w1 := on_queue (with_failed (_failed (this w) + 1)) w in
    let w2 := emit (Failed k (task it)) w1 in
    let w3 := fst (try_invoke (onFailure it) (Some err) w2) in
    loop k w3.

(** Continuation of the backoff timer:
    [items.unshift(item); this._totalItems++;] and back to the loop head. *)
Definition timer_fired (k : key) (it : item) (w : world) : world :=
  let items := match lane_get k (_lanes (this w)) with Some l => l | None => [] end in
  let w1 := on_queue (with_lanes (lane_put k (it :: items) (_lanes (this w)))) w in
  let w2 := on_queue (with_totalItems (_totalItems (this w1) + 1)) w1 in
  loop k w2.

(** *** [_drain] *)

Definition lane_is_empty (k : key) (ls : list (key * list item)) : bool :=
  match lane_get k ls with Some (_ :: _) => false | _ => true end.

(** The [for (const [key, items] of this._lanes)] loop over the keys [ks]
    still to visit. *)
Fixpoint drain_from (ks : list key) (w : world) : world :=
  match ks with
  | [] => w
  | k :: ks' =>
      if set_size (_activeLanes (this w)) >=? _concurrency (this w) then w
      else if set_has k (_activeLanes (this w)) || lane_is_empty k (_lanes (this w))
      then drain_from ks' w
      else
        let w1 := on_queue (with_activeLanes (set_add k (_activeLanes (this w)))) w in
        drain_from ks' (_processLane k w1)
  end.

Definition _drain (w : world) : world :=
  drain_from (map fst (_lanes (this w))) w.

(** The [.finally(() => { ... })] callback of a lane. *)
Definition lane_finally (k : key) (w : world) : world :=
  let w0 := mkWorld (this w) (frame_remove k (frames w)) (trace w) in
  let w1 := on_queue (with_activeLanes (set_delete k (_activeLanes (this w0)))) w0 in
  let w2 :=
    match lane_get k (_lanes (this w1)) with
    | Some [] => on_queue (with_lanes (lane_delete k (_lanes (this w1)))) w1
    | _ => w1
    end in
  _drain w2.

(** *** [enqueue] *)

Definition queue_full : string := "Queue full - backpressure".

Definition enqueue (t : nat) (lbl : string) (k : key)
           (onS onF : option callback) (w : world) : world * completion bool :=
  if _totalItems (this w) >=? _maxSize (this w) then
    match try_invoke onF (Some queue_full) w with
    | (w', Normal _) => (w', Normal false)
    | (w', Abrupt e) => (w', Abrupt e)
    end
  else
    let w1 :=
      if lane_has k (_lanes (this w)) then w
      else on_queue (with_lanes (lane_set k [] (_lanes (this w)))) w in
    let items := match lane_get k (_lanes (this w1)) with Some l => l | None => [] end in
    let w2 := on_queue (with_lanes
                (lane_put k (items ++ [mkItem t lbl 0 onS onF]) (_lanes (this w1)))) w1 in
    let w3 := on_queue (with_totalItems (_totalItems (this w2) + 1)) w2 in
    (_drain (emit (Enqueued k t) w3), Normal true).

(** *** The event loop

    Everything that can resume the queue: a call of [enqueue], the settling
    of the task a lane awaits, the expiry of a lane's backoff timer, and the
    [.finally] callback of a lane whose loop has returned.  An input that is
    not enabled in the current state is ignored. *)
Inductive input :=
| Enqueue (t : nat) (lbl : string) (k : key) (onS onF : option callback)
| Resolve (k : key)
| Reject (k : key) (err : string)
| Timer (k : key)
| Finally (k : key).

Definition step (w : world) (i : input) : world :=
  match i with
  | Enqueue t lbl k onS onF => fst (enqueue t lbl k onS onF w)
  | Resolve k =>
      match frame_get k (frames w) with
      | Some (AwaitTask it) => task_resolved k it w
      | _ => w
      end
  | Reject k err =>
      match frame_get k (frames w) with
      | Some (AwaitTask it) => task_rejected k it err w
      | _ => w
      end
  | Timer k =>
      match frame_get k (frames w) with
      | Some (AwaitTimer it _) => timer_fired k it w
      | _ => w
      end
  | Finally k =>
      match frame_get k (frames w) with
      | Some Returned => lane_finally k w
      | _ => w
      end
  end.

Definition run (w : world) (ins : list input) : world := fold_left step ins w.

(** Backlog of a lane ([[]] when the Map has no entry). *)
Definition items_of (k : key) (q : queue) : list item :=
  match lane_get k (_lanes q) with Some l => l | None => [] end.

(** [stats.queued] is compared with the number of items stored in lanes. *)
Definition lanes_len (ls : list (key * list item)) : Z :=
  Z.of_nat (List.length (List.concat (map snd ls))).

Definition waiting (q : queue) : Z := lanes_len (_lanes q).

(** *** Per-lane ordering specification

    A lane is either idle, running attempt [a] of task [t] (attempts are
    counted from 0), or waiting to start retry [n] of task [t].  The
    automaton below accepts a trace iff, for lane [k],
    - a first attempt is started only when the lane is idle, and then it is
      the oldest enqueued task not started yet;
    - a retry [n] of [t] is scheduled only while attempt [n - 1] of [t] runs,
      and the next thing started is attempt [n] of the same [t];
    - a task succeeds or fails for good only while it runs. *)
Inductive lane_status :=
| Idle
| Running (t : nat) (a : Z)
| Backoff (t : nat) (n : Z).

Definition lane_state : Type := list nat * lane_status.

Definition lane_spec_step (k : key) (st : lane_state) (e : event) : option lane_state :=
  let '(pending, status) := st in
  match e with
  | Enqueued k' t =>
      if String.eqb k' k then Some (pending ++ [t], status) else Some st
  | Started k' t a =>
      if String.eqb k' k then
        match status, pending with
        | Idle, p :: ps =>
            if Nat.eqb p t && (a =? 0) then Some (ps, Running t 0) else None
        | Backoff t' n, _ =>
            if Nat.eqb t' t && (a =? n) then Some (pending, Running t n) else None
        | _, _ => None
        end
      else Some st
  | Succeeded k' t | Failed k' t =>
      if String.eqb k' k then
        match status with
        | Running t' _ => if Nat.eqb t' t then Some (pending, Idle) else None
        | _ => None
        end
      else Some st
  | Retrying k' t n _ =>
      if String.eqb k' k then
        match status with
        | Running t' a =>
            if Nat.eqb t' t && (n =? a + 1) then Some (pending, Backoff t n) else None
        | _ => None
        end
      else Some st
  | Called _ _ => Some st
  end.

Definition lane_spec_from (k : key) (st : option lane_state) (tr : list event)
  : option lane_state :=
  fold_left (fun s e => match s with Some st => lane_spec_step k st e | None => None end)
            tr st.

Definition lane_spec (k : key) (tr : list event) : option lane_state :=
  lane_spec_from k (Some ([], Idle)) tr.

(** Projections of a trace on one lane. *)
Definition event_in (k : key) (e : event) : bool :=
  match e with
  | Enqueued k' _ | Started k' _ _ | Succeeded k' _
  | Retrying k' _ _ _ | Failed k' _ => String.eqb k' k
  | Called _ _ => false
  end.

Definition lane_events (k : key) (tr : list event) : list event :=
  filter (fun e => event_in k e && match e with Enqueued _ _ => false | _ => true end) tr.

Fixpoint enqueued (k : key) (tr : list event) : list nat :=
  match tr with
  | [] => []
  | Enqueued k' t :: tr' =>
      if String.eqb k' k then t :: enqueued k tr' else enqueued k tr'
  | _ :: tr' => enqueued k tr'
  end.

(** Tasks whose first attempt was started, in start order. *)
Fixpoint begun (k : key) (tr : list event) : list nat :=
  match tr with
  | [] => []
  | Started k' t a :: tr' =>
      if String.eqb k' k && (a =? 0) then t :: begun k tr' else begun k tr'
  | _ :: tr' => begun k tr'
  end.

(** Tasks that succeeded or failed for good, in completion order. *)
Fixpoint completed (k : key) (tr : list event) : list nat :=
  match tr with
  | [] => []
  | Succeeded k' t :: tr' | Failed k' t :: tr' =>
      if String.eqb k' k then t :: completed k tr' else completed k tr'
  | _ :: tr' => completed k tr'
  end.

Definition status_of (k : key) (fs : list (key * frame)) : lane_status :=
  match frame_get k fs with
  | Some (AwaitTask it) => Running (task it) (retries it)
  | Some (AwaitTimer it _) => Backoff (task it) (retries it)
  | _ => Idle
  end.

Definition delay_ok (o : options) (e : event) : Prop :=
  match e with
  | Retrying _ _ n ms => ms = retryDelay o * 2 ^ (n - 1) /\ n <= opt_retries o
  | _ => True
  end.

(** *** Invariant of the reachable states

    [lane_inv] relates the state of every lane to the state of the ordering
    automaton after the trace so far; [lane_pre k st] is the same statement
    at a point inside a continuation of lane [k], where the frame of [k] is
    about to be replaced and the automaton state of [k] is [st]. *)
Record lane_pre (o : options) (k : key) (st : lane_status) (w : world) : Prop := mkPre {
  pre_spec : lane_spec k (trace w) = Some (map task (items_of k (this w)), st);
  pre_others : forall k', k' <> k ->
    lane_spec k' (trace w) =
    Some (map task (items_of k' (this w)), status_of k' (frames w));
  pre_fresh : forall k' it, In it (items_of k' (this w)) -> retries it = 0;
  pre_active : set_has k (_activeLanes (this w)) = true;
  pre_actives : forall k', k' <> k -> frame_get k' (frames w) <> None ->
    set_has k' (_activeLanes (this w)) = true;
  pre_lane : lane_has k (_lanes (this w)) = true;
  pre_lanes : forall k', k' <> k -> frame_get k' (frames w) <> None ->
    lane_has k' (_lanes (this w)) = true;
  pre_retries : _maxRetries (this w) = opt_retries o;
  pre_delay : _retryDelay (this w) = retryDelay o;
  pre_delays : Forall (delay_ok o) (trace w)
}.

Record lane_inv (o : options) (w : world) : Prop := mkInv {
  inv_spec : forall k,
    lane_spec k (trace w) =
    Some (map task (items_of k (this w)), status_of k (frames w));
  inv_fresh : forall k it, In it (items_of k (this w)) -> retries it = 0;
  inv_actives : forall k, frame_get k (frames w) <> None ->
    set_has k (_activeLanes (this w)) = true;
  inv_lanes : forall k, frame_get k (frames w) <> None ->
    lane_has k (_lanes (this w)) = true;
  inv_retries : _maxRetries (this w) = opt_retries o;
  inv_delay : _retryDelay (this w) = retryDelay o;
  inv_delays : Forall (delay_ok o) (trace w)
}.

(** The pending count is the number of items stored in lanes, and the Map
    has one entry per key. *)
Record count_inv (w : world) : Prop := mkCount {
  cnt_keys : NoDup (map fst (_lanes (this w)));
  cnt_total : _totalItems (this w) = waiting (this w)
}.

(** *** Scheduling and accounting

    A frame holds an item while its lane awaits the task or the backoff
    timer of that item. *)
Definition holds_item (f : frame) : bool :=
  match f with Returned => false | _ => true end.

Definition in_flight (fs : list (key * frame)) : Z :=
  Z.of_nat (List.length (filter (fun kf => holds_item (snd kf)) fs)).

(** Number of tasks [enqueue] has accepted. *)
Fixpoint accepted_count (tr : list event) : Z :=
  match tr with
  | [] => 0
  | Enqueued _ _ :: tr' => 1 + accepted_count tr'
  | _ :: tr' => accepted_count tr'
  end.

(** The active set and the lane table between two events; [sched_pre k] is
    the same inside a continuation of lane [k]. *)
Record sched_pre (k : key) (w : world) : Prop := mkSchedPre {
  sp_active : set_has k (_activeLanes (this w)) = true;
  sp_frames : forall k', k' <> k -> set_has k' (_activeLanes (this w)) = true ->
    frame_get k' (frames w) <> None;
  sp_nodup : NoDup (_activeLanes (this w));
  sp_bound : set_size (_activeLanes (this w)) <= Z.max 0 (_concurrency (this w));
  sp_idle : forall k', lane_has k' (_lanes (this w)) = true ->
    set_has k' (_activeLanes (this w)) = false -> items_of k' (this w) <> []
}.

Record sched_inv (w : world) : Prop := mkSched {
  sc_frames : forall k, set_has k (_activeLanes (this w)) = true ->
    frame_get k (frames w) <> None;
  sc_nodup : NoDup (_activeLanes (this w));
  sc_bound : set_size (_activeLanes (this w)) <= Z.max 0 (_concurrency (this w));
  sc_idle : forall k, lane_has k (_lanes (this w)) = true ->
    set_has k (_activeLanes (this w)) = false -> items_of k (this w) <> []
}.

(** No lane with work is left idle while a slot is free. *)
Definition busy (w : world) : Prop :=
  forall k, items_of k (this w) <> [] ->
    set_has k (_activeLanes (this w)) = false ->
    _concurrency (this w) <= set_size (_activeLanes (this w)).

(** What a lane's frame contributes to the items in flight. *)
Definition occupies (f : option frame) : Z :=
  match f with
  | Some f => if holds_item f then 1 else 0
  | None => 0
  end.

Record account_inv (w : world) : Prop := mkAccount {
  acc_keys : NoDup (map fst (frames w));
  acc_sum : accepted_count (trace w) =
            _totalItems (this w) + in_flight (frames w)
            + _processed (this w) + _failed (this w)
}.

(** *** What [_drain] starts

    The [for] loop starts a lane when its key is not active and its array
    has items; [first_waiting] is the first such key in Map order. *)
Definition startable (q : queue) (k : key) : bool :=
  negb (set_has k (_activeLanes q) || lane_is_empty k (_lanes q)).

Definition first_waiting (q : queue) : option key :=
  find (startable q) (map fst (_lanes q)).

(** [this._activeLanes.add(key); this._processLane(key)] *)
Definition start_lane (k : key) (w : world) : world :=
  _processLane k (on_queue (with_activeLanes (set_add k (_activeLanes (this w)))) w).

(** *** Getters *)

(** [get length()] *)
Definition get_length (q : queue) : Z := _totalItems q.

(** [get active()] *)
Definition get_active (q : queue) : Z := set_size (_activeLanes q).

Record stats := mkStats {
  queued : Z;
  active : Z;
  lanes : Z;
  processed : Z;
  failed : Z
}.

(** [get stats()] *)
Definition get_stats (q : queue) : stats :=
  mkStats (_totalItems q) (set_size (_activeLanes q))
          (Z.of_nat (List.length (_lanes q))) (_processed q) (_failed q).

End KeyedConcurrentQueue.

(** ** The sequential write queue (class [WriteQueue])

    One array of items, processed one after the other by [_process]; a
    failed item is put back at the front and retried after a delay that
    grows linearly. *)

Module WriteQueue.

(** [{ task, label, retries }] *)
Record item := mkItem {
  task : nat;
  label : string;
  retries : Z
}.

Record queue := mkQueue {
  _queue : list item;
  _processing : bool;
  _maxRetries : Z;
  _retryDelay : Z
}.

(** The constructor. *)
Definition new : queue := mkQueue [] false 2 1000.

Inductive event :=
| Enqueued (t : nat)                    (* [enqueue] pushed the task *)
| Started (t : nat) (attempt : Z)       (* [item.task()] called, [attempt = item.retries] *)
| Succeeded (t : nat)                   (* the task fulfilled *)
| Retrying (t : nat) (n : Z) (ms : Z)   (* [setTimeout(r, ms)] for retry number [n] *)
| Failed (t : nat).                     (* the item is dropped *)

(** A suspended call of [_process]. *)
Inductive frame :=
| AwaitTask (it : item)             (* at [await item.task()] *)
| AwaitTimer (it : item) (ms : Z).  (* at [await new Promise(r => setTimeout(r, ms))] *)

(** The queue object, the suspended calls of [_process] and the trace. *)
Record world := mkWorld {
  this : queue;
  frames : list frame;
  trace : list event
}.

Definition init : world := mkWorld new [] [].

Definition with_queue (l : list item) (q : queue) : queue :=
  mkQueue l (_processing q) (_maxRetries q) (_retryDelay q).
Definition with_processing (b : bool) (q : queue) : queue :=
  mkQueue (_queue q) b (_maxRetries q) (_retryDelay q).

(** The frame of call number [n] is replaced; a call that has not been
    suspended before gets a new place at the end. *)
Fixpoint set_nth (n : nat) (f : frame) (fs : list frame) : list frame :=
  match fs, n with
  | [], _ => [f]
  | _ :: fs', O => f :: fs'
  | g :: fs', S n' => g :: set_nth n' f fs'
  end.

(** Call number [n] has returned. *)
Fixpoint drop_nth (n : nat) (fs : list frame) : list frame :=
  match fs, n with
  | [], _ => []
  | _ :: fs', O => fs'
  | g :: fs', S n' => g :: drop_nth n' fs'
  end.

(** The [while] loop of call [n] of [_process], from its head up to the
    next suspension, or to [this._processing = false] and the return. *)
Definition loop (n : nat) (w : world) : world :=
  match _queue (this w) with
  | it :: rest =>
      (* const item = this._queue.shift(); await item.task() *)
      mkWorld (with_queue rest (this w))
              (set_nth n (AwaitTask it) (frames w))
              (trace w ++ [Started (task it) (retries it)])
  | [] =>
      mkWorld (with_processing false (this w)) (drop_nth n (frames w)) (trace w)
  end.

(** [_process()] *)
Definition _process (w : world) : world :=
  if _processing (this w) then w
  else loop (List.length (frames w))
            (mkWorld (with_processing true (this w)) (frames w) (trace w)).

(** [enqueue(task, label)] *)
Definition enqueue (t : nat) (lbl : string) (w : world) : world :=
  _process (mkWorld (with_queue (_queue (this w) ++ [mkItem t lbl 0]) (this w))
                    (frames w) (trace w ++ [Enqueued t])).

(** Continuation of [await item.task()] when the task fulfils. *)
Definition task_resolved (n : nat) (it : item) (w : world) : world :=
  loop n (mkWorld (this w) (frames w) (trace w ++ [Succeeded (task it)])).

Definition bump (it : item) : item := mkItem (task it) (label it) (retries it + 1).

(** The [catch (err)] branch:
    [item.retries++; this._queue.unshift(item); await new Promise(...)]. *)
Definition task_rejected (n : nat) (it : item) (w : world) : world :=
  if retries it <? _maxRetries (this w) then
    let it' := bump it in
    let ms := _retryDelay (this w) * retries it' in
    mkWorld (with_queue (it' :: _queue (this w)) (this w))
            (set_nth n (AwaitTimer it' ms) (frames w))
            (trace w ++ [Retrying (task it') (retries it') ms])
  else
    loop n (mkWorld (this w) (frames w) (trace w ++ [Failed (task it)])).

(** Continuation of the retry timer: back to the loop head. *)
Definition timer_fired (n : nat) (w : world) : world := loop n w.

(** [get length()] *)
Definition get_length (q : queue) : Z := Z.of_nat (List.length (_queue q)).

(** Everything that can resume the queue; [n] is the number of the
    suspended call of [_process] that an event resumes.  An input that is
    not enabled is ignored. *)
Inductive input :=
| Enqueue (t : nat) (lbl : string)
| Resolve (n : nat)
| Reject (n : nat) (err : string)
| Timer (n : nat).

Definition step (w : world) (i : input) : world :=
  match i with
  | Enqueue t lbl => enqueue t lbl w
  | Resolve n =>
      match nth_error (frames w) n with
      | Some (AwaitTask it) => task_resolved n it w
      | _ => w
      end
  | Reject n _ =>
      match nth_error (frames w) n with
      | Some (AwaitTask it) => task_rejected n it w
      | _ => w
      end
  | Timer n =>
      match nth_error (frames w) n with
      | Some (AwaitTimer _ _) => timer_fired n w
      | _ => w
      end
  end.

Definition run (w : world) (ins : list input) : world := fold_left step ins w.

(** *** Ordering

    The trace is read as the trace of one lane of the keyed queue, so that
    the ordering automaton and the projections defined for lanes apply. *)
Definition lane : string := "write-queue".

Definition as_lane (e : event) : KeyedConcurrentQueue.event :=
  match e with
  | Enqueued t => KeyedConcurrentQueue.Enqueued lane t
  | Started t a => KeyedConcurrentQueue.Started lane t a
  | Succeeded t => KeyedConcurrentQueue.Succeeded lane t
  | Retrying t n ms => KeyedConcurrentQueue.Retrying lane t n ms
  | Failed t => KeyedConcurrentQueue.Failed lane t
  end.

Definition enqueued (tr : list event) : list nat :=
  KeyedConcurrentQueue.enqueued lane (map as_lane tr).
Definition begun (tr : list event) : list nat :=
  KeyedConcurrentQueue.begun lane (map as_lane tr).
Definition completed (tr : list event) : list nat :=
  KeyedConcurrentQueue.completed lane (map as_lane tr).

(** Events other than [Enqueued]. *)
Definition work_events (tr : list event) : list event :=
  filter (fun e => match e with Enqueued _ => false | _ => true end) tr.

Definition spec_state (w : world) : option KeyedConcurrentQueue.lane_state :=
  KeyedConcurrentQueue.lane_spec lane (map as_lane (trace w)).

Definition linear_delay (e : event) : Prop :=
  match e with
  | Retrying _ n ms => ms = 1000 * n /\ 1 <= n <= 2
  | _ => True
  end.

(** Invariant of the reachable states. *)
Record write_inv (w : world) : Prop := mkWriteInv {
  wi_retries : _maxRetries (this w) = 2;
  wi_delay : _retryDelay (this w) = 1000;
  wi_state :
    match frames w with
    | [] =>
        _processing (this w) = false /\ _queue (this w) = [] /\
        spec_state w = Some ([], KeyedConcurrentQueue.Idle)
    | [AwaitTask it] =>
        _processing (this w) = true /\ 0 <= retries it /\
        (forall x, In x (_queue (this w)) -> retries x = 0) /\
        spec_state w = Some (map task (_queue (this w)),
                             KeyedConcurrentQueue.Running (task it) (retries it))
    | [AwaitTimer it ms] =>
        _processing (this w) = true /\ 1 <= retries it /\
        exists rest,
          _queue (this w) = it :: rest /\
          (forall x, In x rest -> retries x = 0) /\
          spec_state w = Some (map task rest,
                               KeyedConcurrentQueue.Backoff (task it) (retries it))
    | _ => False
    end;
  wi_delays : Forall linear_delay (trace w)
}.

End WriteQueue.

(** ** Attendance submission pipeline *)

Module Attendance.

(** *** Values

    Coordinates are JSON numbers; they are modelled by rationals, [None]
    standing for [null] or [undefined].  Instants are milliseconds. *)

(** Truthiness of a number: [0] is falsy. *)
Definition truthy_num (x : option Q) : bool :=
  match x with Some q => negb (Qeq_bool q 0) | None => false end.

(** Truthiness of a string: [""] is falsy. *)
Definition truthy_str (x : option string) : bool :=
  match x with Some s => negb (String.eqb s "") | None => false end.

(** [{ lat, lng }] *)
Record location := mkLocation { lat : option Q; lng : option Q }.

Inductive violation_type := LocationViolation | DuplicateDevice.

Inductive status := PRESENT | FLAGGED.

(** The [reason]/[details] texts, with the numbers and names they embed. *)
Inductive details :=
| NoLocationData                        (* 'No location data' *)
| NoClassroomLocation                   (* 'No classroom location configured' *)
| StudentAway (distance limit : Z)      (* `Student is ${distance}m away (limit: ${geofenceRadius}m)` *)
| WithinGeofence                        (* 'Within geofence' *)
| DeviceAlreadyUsedBy (names : list string)   (* `Device already used by: ${...join(', ')}` *)
| NoDuplicatesFound.                    (* 'No duplicates found' *)

Record violation := mkViolation {
  vtype : violation_type;
  vdetails : details;
  vdistance : Z
}.

(** A session as [deserializeSession] returns it. *)
Record session := mkSession {
  id : string;
  teacherId : string;
  classroomLocation : option location;
  geofenceRadius : option Z;
  spreadsheetId : option string;
  expiresAt : Z;
  isActive : bool;
  deactivatedAt : option Z;
  attendeeCount : Z
}.

(** A row of table [attendance] as [deserializeAttendance] returns it. *)
Record record := mkRecord {
  rid : Z;
  sessionId : string;
  studentName : string;
  email : string;
  ipAddress : option string;
  macAddress : option string;
  latitude : option Q;        (* [None]: 'N/A' *)
  longitude : option Q;
  timestamp : Z;
  rstatus : status;
  violations : list violation;
  synced : bool
}.

(** The tables the pipeline reads and writes. *)
Record store := mkStore {
  sessions : list session;
  session_attendees : list (string * string);   (* PRIMARY KEY (session_id, email) *)
  attendance : list record;
  lastInsertRowid : Z
}.

(** The body of POST /submit after validation, with the client address the
    handler derives from the request headers. *)
Record request := mkRequest {
  req_sessionId : string;
  req_studentName : string;
  req_email : string;
  req_macAddress : option string;
  req_latitude : option Q;
  req_longitude : option Q;
  req_ipAddress : option string
}.

(** [res.json(...)]: status 200 and the JSON body. *)
Record response := mkResponse {
  statusCode : Z;
  success : bool;
  message : string
}.

(** A call of [attendanceQueue.enqueue(task, label, key, callbacks)]. *)
Record mirror_task := mkMirror {
  mirror_label : string;
  mirror_key : string;
  mirror_marks_synced : option Z   (* [onSuccess] marks this record as synced *)
}.

(** *** store.service *)

Fixpoint getSession (sid : string) (ss : list session) : option session :=
  match ss with
  | [] => None
  | s :: ss' => if String.eqb (id s) sid then Some s else getSession sid ss'
  end.

Definition deactivated (now : Z) (s : session) : session :=
  mkSession (id s) (teacherId s) (classroomLocation s) (geofenceRadius s)
            (spreadsheetId s) (expiresAt s) false (Some now) (attendeeCount s).

(** [UPDATE sessions SET is_active = 0, deactivated_at = ? WHERE id = ?] *)
Definition deactivateSession (now : Z) (sid : string) (st : store) : store :=
  mkStore (map (fun s => if String.eqb (id s) sid then deactivated now s else s)
               (sessions st))
          (session_attendees st) (attendance st) (lastInsertRowid st).

Definition pair_eqb (a b : string * string) : bool :=
  String.eqb (fst a) (fst b) && String.eqb (snd a) (snd b).

(** [SELECT 1 FROM session_attendees WHERE session_id = ? AND email = ?] *)
Definition hasSessionAttendee (sid em : string) (st : store) : bool :=
  existsb (pair_eqb (sid, em)) (session_attendees st).

Definition with_attendeeCount (n : Z) (s : session) : session :=
  mkSession (id s) (teacherId s) (classroomLocation s) (geofenceRadius s)
            (spreadsheetId s) (expiresAt s) (isActive s) (deactivatedAt s) n.

(** [INSERT OR IGNORE INTO session_attendees], then the attendee count of the
    session is refreshed. *)
Definition addSessionAttendee (sid em : string) (st : store) : store :=
  let attendees :=
    if hasSessionAttendee sid em st then session_attendees st
    else session_attendees st ++ [(sid, em)] in
  let count :=
    Z.of_nat (List.length (filter (fun p => String.eqb (fst p) sid) attendees)) in
  mkStore (map (fun s => if String.eqb (id s) sid then with_attendeeCount count s else s)
               (sessions st))
          attendees (attendance st) (lastInsertRowid st).

(** [serializeAttendance]: falsy strings are stored as NULL. *)
Definition or_null (x : option string) : option string :=
  if truthy_str x then x else None.

(** [INSERT INTO attendance ... VALUES (..., 0)]; returns [lastInsertRowid]. *)
Definition addAttendanceRecord (r : record) (st : store) : Z * store :=
  let rowid := lastInsertRowid st + 1 in
  (rowid,
   mkStore (sessions st) (session_attendees st)
           (attendance st ++
            [mkRecord rowid (sessionId r) (studentName r) (email r)
                      (or_null (ipAddress r)) (or_null (macAddress r))
                      (latitude r) (longitude r) (timestamp r) (rstatus r)
                      (violations r) false])
           rowid).

Definition synced_row (r : record) : record :=
  mkRecord (rid r) (sessionId r) (studentName r) (email r) (ipAddress r)
           (macAddress r) (latitude r) (longitude r) (timestamp r) (rstatus r)
           (violations r) true.

(** [UPDATE attendance SET synced = 1 WHERE id = ?] *)
Definition markAttendanceSynced (i : Z) (st : store) : store :=
  mkStore (sessions st) (session_attendees st)
          (map (fun r => if rid r =? i then synced_row r else r) (attendance st))
          (lastInsertRowid st).

Definition SYNC_GRACE_MS : Z := 10 * 60 * 1000.

(** Resource manager: [DELETE FROM attendance WHERE synced = 1 AND timestamp < ?]
    with the grace date [now - SYNC_GRACE_MS]. *)
Definition cleanup (now : Z) (st : store) : store :=
  mkStore (sessions st) (session_attendees st)
          (filter (fun r => negb (synced r && (timestamp r <? now - SYNC_GRACE_MS)))
                  (attendance st))
          (lastInsertRowid st).

(** [getAttendanceStore()]: every row of the table. *)
Definition getAttendanceStore (st : store) : list record := attendance st.

(** *** session.service *)

Inductive session_check :=
| Valid (s : session)
| Invalid (reason : string).

(** [SessionService.isSessionValid]; an expired session is deactivated. *)
Definition isSessionValid (now : Z) (sid : string) (st : store) : session_check * store :=
  match getSession sid (sessions st) with
  | None => (Invalid "Session not found", st)
  | Some s =>
      if negb (isActive s) then (Invalid "Session is no longer active", st)
      else if expiresAt s <? now
           then (Invalid "Session has expired", deactivateSession now sid st)
           else (Valid s, st)
  end.

Definition hasStudentSubmitted := hasSessionAttendee.
Definition addAttendee := addSessionAttendee.

(** *** anticheating.service

    [geolib.getDistance] (distance in whole metres between two points) and
    [config.defaultGeofenceRadius] come from outside the repository. *)
Section AntiCheating.

Variable getDistance : Q * Q -> Q * Q -> Z.
Variable defaultGeofenceRadius : Z.

Record location_result := mkLocationResult {
  valid : bool;
  distance : Z;
  reason : details
}.

Definition missing (l : option location) : bool :=
  match l with
  | None => true
  | Some p => negb (truthy_num (lat p)) || negb (truthy_num (lng p))
  end.

Definition coords (p : location) : Q * Q :=
  (match lat p with Some q => q | None => 0%Q end,
   match lng p with Some q => q | None => 0%Q end).

(** [radius || config.defaultGeofenceRadius] *)
Definition effective_radius (radius : option Z) : Z :=
  match radius with
  | Some r => if r =? 0 then defaultGeofenceRadius else r
  | None => defaultGeofenceRadius
  end.

Definition validateLocation (studentLocation classroomLocation : option location)
           (radius : option Z) : location_result :=
  if missing studentLocation then mkLocationResult false (-1) NoLocationData
  else if missing classroomLocation then mkLocationResult true 0 NoClassroomLocation
  else
    match studentLocation, classroomLocation with
    | Some s, Some c =>
        let distance := getDistance (coords s) (coords c) in
        let geofenceRadius := effective_radius radius in
        mkLocationResult (distance <=? geofenceRadius) distance
          (if geofenceRadius <? distance then StudentAway distance geofenceRadius
           else WithinGeofence)
    | _, _ => mkLocationResult false (-1) NoLocationData
    end.

Record duplicate_result := mkDuplicateResult {
  isDuplicate : bool;
  duplicateOf : list string;
  dup_reason : details
}.

Definition same_device (ip mac : option string) (r : record) : bool :=
  (truthy_str ip && match ip, ipAddress r with
                    | Some a, Some b => String.eqb b a
                    | _, _ => false
                    end)
  || (truthy_str mac && match mac, macAddress r with
                        | Some a, Some b => String.eqb b a
                        | _, _ => false
                        end).

Definition checkDuplicateDevice (sid : string) (ip mac : option string) (st : store)
  : duplicate_result :=
  let sessionRecords :=
    filter (fun r => String.eqb (sessionId r) sid) (getAttendanceStore st) in
  let duplicates := filter (same_device ip mac) sessionRecords in
  match duplicates with
  | _ :: _ =>
      mkDuplicateResult true (map email duplicates)
                        (DeviceAlreadyUsedBy (map studentName duplicates))
  | [] => mkDuplicateResult false [] NoDuplicatesFound
  end.

Record validation_params := mkParams {
  p_sessionId : string;
  p_studentName : string;
  p_email : string;
  p_ipAddress : option string;
  p_macAddress : option string;
  p_studentLocation : option location;
  p_classroomLocation : option location;
  p_geofenceRadius : option Z
}.

Record validation_result := mkValidation {
  isValid : bool;
  v_violations : list violation;
  locationResult : location_result;
  duplicateResult : duplicate_result
}.

(** [AntiCheatingService.validateSubmission].  Its [logViolation] calls push
    onto a fresh copy of the cheating log and [saveCheatingStore] is a no-op,
    so they leave the tables as they are. *)
Definition validateSubmission (p : validation_params) (st : store) : validation_result :=
  let locationResult :=
    validateLocation (p_studentLocation p) (p_classroomLocation p) (p_geofenceRadius p) in
  let violations1 :=
    if negb (valid locationResult) && (0 <=? distance locationResult)
    then [mkViolation LocationViolation (reason locationResult) (distance locationResult)]
    else [] in
  let duplicateResult :=
    checkDuplicateDevice (p_sessionId p) (p_ipAddress p) (p_macAddress p) st in
  let violations2 :=
    if isDuplicate duplicateResult
    then violations1 ++
         [mkViolation DuplicateDevice (dup_reason duplicateResult)
                      (if 0 <=? distance locationResult then distance locationResult else 0)]
    else violations1 in
  mkValidation (match violations2 with [] => true | _ => false end)
               violations2 locationResult duplicateResult.

(** *** POST /api/attendance/submit *)

Definition accepted : response := mkResponse 200 true "Attendance submitted successfully".
Definition already_recorded : response := mkResponse 200 true "Attendance already recorded".

(** [macAddress || 'N/A'] *)
Definition mac_or_na (m : option string) : option string :=
  if truthy_str m then m else Some "N/A".

(** [latitude && longitude ? { lat: latitude, lng: longitude } : null] *)
Definition student_location (la lo : option Q) : option location :=
  if truthy_num la && truthy_num lo then Some (mkLocation la lo) else None.

(** [latitude || 'N/A'] *)
Definition num_or_na (x : option Q) : option Q :=
  if truthy_num x then x else None.

Definition params_of (req : request) (s : session) : validation_params :=
  mkParams (req_sessionId req) (req_studentName req) (req_email req)
           (req_ipAddress req) (mac_or_na (req_macAddress req))
           (student_location (req_latitude req) (req_longitude req))
           (classroomLocation s) (geofenceRadius s).

Definition record_of (req : request) (now : Z) (v : validation_result) : record :=
  mkRecord 0 (req_sessionId req) (req_studentName req) (req_email req)
           (req_ipAddress req) (mac_or_na (req_macAddress req))
           (num_or_na (req_latitude req)) (num_or_na (req_longitude req))
           now (if isValid v then PRESENT else FLAGGED) (v_violations v) false.

(** The handler, run at instant [now]: the response, the tables afterwards
    and the mirror tasks handed to the write queue.  The handler's only
    [await] is on [validateSubmission], which settles without I/O, and the
    store calls are synchronous, so a handler runs without interleaving with
    another one. *)
Definition submit (req : request) (now : Z) (st : store)
  : response * store * list mirror_task :=
  match isSessionValid now (req_sessionId req) st with
  | (Invalid _, st1) => (accepted, st1, [])
  | (Valid session, st1) =>
      if hasStudentSubmitted (req_sessionId req) (req_email req) st1
      then (already_recorded, st1, [])
      else
        let validationResult := validateSubmission (params_of req session) st1 in
        let record := record_of req now validationResult in
        let '(recordId, st2) := addAttendanceRecord record st1 in
        let st3 := addAttendee (req_sessionId req) (req_email req) st2 in
        let tasks :=
          if truthy_str (spreadsheetId session) then
            mkMirror ("attendance-" ++ req_sessionId req ++ "-" ++ req_email req)
                     (req_sessionId req) (Some recordId)
            :: (if negb (isValid validationResult)
                then [mkMirror ("violation-" ++ req_sessionId req ++ "-" ++ req_email req)
                               ("violations-" ++ teacherId session) None]
                else [])
          else [] in
        (accepted, st3, tasks)
  end.

(** The tables after a submission that passes the session and duplicate
    checks (steps 3 and 4 of the handler). *)
Definition accepted_store (req : request) (now : Z) (s : session) (st : store) : store :=
  addAttendee (req_sessionId req) (req_email req)
    (snd (addAttendanceRecord
            (record_of req now (validateSubmission (params_of req s) st)) st)).

(** What may happen to the tables. *)
Inductive operation :=
| Submit (req : request) (now : Z)
| MarkSynced (recordId : Z)
| Cleanup (now : Z)
| Deactivate (sid : string) (now : Z).

Definition apply (st : store) (op : operation) : store :=
  match op with
  | Submit req now => snd (fst (submit req now st))
  | MarkSynced i => markAttendanceSynced i st
  | Cleanup now => cleanup now st
  | Deactivate sid now => deactivateSession now sid st
  end.

Definition run (st : store) (ops : list operation) : store := fold_left apply ops st.

End AntiCheating.

(** Tables of a server that has sessions but no submission yet. *)
Definition fresh (ss : list session) : store := mkStore ss [] [] 0.

(** Number of attendance records of a (session, email) pair. *)
Definition records_of (sid em : string) (st : store) : list record :=
  filter (fun r => pair_eqb (sid, em) (sessionId r, email r)) (attendance st).

Definition key_of (r : record) : string * string := (sessionId r, email r).

(** Every record belongs to a registered attendee and no two records share
    their (session, email) pair. *)
Record consistent (st : store) : Prop := mkConsistent {
  recorded_attended : forall r, In r (attendance st) ->
    hasSessionAttendee (sessionId r) (email r) st = true;
  one_per_pair : NoDup (map key_of (attendance st))
}.

(** Stand-in for [geolib.getDistance] used in the examples: metres along a
    meridian, about 111320 per degree of latitude. *)
Definition meridian_distance (a b : Q * Q) : Z :=
  Qfloor (Qabs (fst a - fst b) * 111320 + (1 # 2)).

(** A lecture room in Algiers and a session held there, used in the
    examples. *)
Definition room : location := mkLocation (Some (367525 # 10000)) (Some (3042 # 1000)).
Definition lecture : session :=
  mkSession "s1" "teacher-1" (Some room) (Some 100) None 900000 true None 0.

(** *** Session lists and updates (store.service, session.service) *)

(** [UPDATE sessions SET is_active = 0, deactivated_at = ?
     WHERE is_active = 1 AND expires_at < ?], both parameters being the
    current instant.  The column holds [toISOString()] texts, whose order is
    the order of the instants. *)
Definition deactivateExpiredSessions (now : Z) (st : store) : store :=
  mkStore (map (fun s => if isActive s && (expiresAt s <? now)
                         then deactivated now s else s)
               (sessions st))
          (session_attendees st) (attendance st) (lastInsertRowid st).

(** [getActiveSessionsByTeacher]: expired sessions are deactivated first,
    then [SELECT * FROM sessions WHERE teacher_id = ? AND is_active = 1]. *)
Definition getActiveSessionsByTeacher (now : Z) (teacher : string) (st : store)
  : list session * store :=
  let st1 := deactivateExpiredSessions now st in
  (filter (fun s => String.eqb (teacherId s) teacher && isActive s) (sessions st1), st1).

(** The properties of an [updates] object that concern the columns kept in
    [session]; [None] stands for a property that is absent. *)
Record session_updates := mkUpdates {
  u_spreadsheetId : option (option string);
  u_expiresAt : option Z;
  u_isActive : option bool;
  u_deactivatedAt : option (option Z);
  u_attendeeCount : option Z
}.

Definition or_else {A : Type} (u : option A) (x : A) : A :=
  match u with Some v => v | None => x end.

(** [{ ...deserialized, ...updates }] *)
Definition merged (s : session) (u : session_updates) : session :=
  mkSession (id s) (teacherId s) (classroomLocation s) (geofenceRadius s)
            (or_else (u_spreadsheetId u) (spreadsheetId s))
            (or_else (u_expiresAt u) (expiresAt s))
            (or_else (u_isActive u) (isActive s))
            (or_else (u_deactivatedAt u) (deactivatedAt s))
            (or_else (u_attendeeCount u) (attendeeCount s)).

(** The row after [stmts.updateSession.run]: every column is set to
    [COALESCE(parameter, column)], where the parameter comes from
    [serializeSession(merged)] (a falsy spreadsheet id is sent as NULL) and
    [deactivated_at] is sent only when [updates] carries it. *)
Definition updated_row (m : session) (u : session_updates) (row : session) : session :=
  mkSession (id row) (teacherId row) (classroomLocation row) (geofenceRadius row)
            (if truthy_str (spreadsheetId m) then spreadsheetId m else spreadsheetId row)
            (expiresAt m)
            (isActive m)
            (match u_deactivatedAt u with
             | Some (Some t) => Some t
             | _ => deactivatedAt row
             end)
            (attendeeCount m).

(** [updateSessionFields]; [None] is the [null] returned for an unknown id. *)
Definition updateSessionFields (sid : string) (u : session_updates) (st : store)
  : option session * store :=
  match getSession sid (sessions st) with
  | None => (None, st)
  | Some s =>
      let m := merged s u in
      (Some m,
       mkStore (map (fun row => if String.eqb (id row) sid then updated_row m u row else row)
                    (sessions st))
               (session_attendees st) (attendance st) (lastInsertRowid st))
  end.

(** [SessionService.extendSession]; instants are counted in milliseconds and
    [additionalMinutes] is a whole number. *)
Definition extendSession (sid : string) (additionalMinutes : Z) (st : store)
  : option session * store :=
  match getSession sid (sessions st) with
  | None => (None, st)
  | Some s =>
      let newExpiry := expiresAt s + additionalMinutes * 60 * 1000 in
      updateSessionFields sid (mkUpdates None (Some newExpiry) (Some true) None None) st
  end.

(** Number of rows of [session_attendees] of a session. *)
Definition attendees_of (sid : string) (st : store) : Z :=
  Z.of_nat (List.length (filter (fun p => String.eqb (fst p) sid) (session_attendees st))).

(** *** Invariants of the attendance table

    Row ids are issued in increasing order and never reused. *)
Record ids_inv (st : store) : Prop := mkIds {
  ids_last : 0 <= lastInsertRowid st;
  ids_bound : forall r, In r (attendance st) -> 1 <= rid r <= lastInsertRowid st;
  ids_nodup : NoDup (map rid (attendance st))
}.

(** Every id issued so far belongs to a stored record, or to a record that
    was marked as synced and purged by a cleanup; a stored record is synced
    only when it was marked. *)
Record kept_inv (st : store) (done : list operation) : Prop := mkKept {
  kept_ids : forall i, 1 <= i <= lastInsertRowid st ->
    (exists r, In r (attendance st) /\ rid r = i) \/
    (In (MarkSynced i) done /\ exists now, In (Cleanup now) done);
  kept_synced : forall r, In r (attendance st) -> synced r = true ->
    In (MarkSynced (rid r)) done
}.

(** The attendee count of every session is the number of its rows in
    [session_attendees]. *)
Definition counts_ok (st : store) : Prop :=
  forall s, In s (sessions st) -> attendeeCount s = attendees_of (id s) st.

End Attendance.


(** ** Properties of the keyed concurrent queue *)

Module QueueTheory.
Import KeyedConcurrentQueue.

(** *** Lemmas on the Map and Set operations *)

Lemma lane_get_put_same k v ls :
  lane_has k ls = true -> lane_get k (lane_put k v ls) = Some v.
Proof.
  unfold lane_has. induction ls as [|[k' old] ls IH]; simpl; [discriminate|].
  destruct (String.eqb k' k) eqn:E; simpl; rewrite E; auto.
Qed.

Lemma lane_get_put_other k k' v ls :
  k' <> k -> lane_get k' (lane_put k v ls) = lane_get k' ls.
Proof.
  intros N. induction ls as [|[k0 old] ls IH]; simpl; auto.
  destruct (String.eqb k0 k) eqn:E; simpl.
  - apply String.eqb_eq in E. subst k0.
    destruct (String.eqb k k') eqn:E'; auto.
    apply String.eqb_eq in E'. congruence.
  - destruct (String.eqb k0 k'); auto.
Qed.

Lemma lane_put_absent k v ls : lane_get k ls = None -> lane_put k v ls = ls.
Proof.
  induction ls as [|[k0 old] ls IH]; simpl; auto.
  destruct (String.eqb k0 k); [discriminate|]. intros H. now rewrite IH.
Qed.

Lemma lane_get_app k ls k' v :
  lane_get k (ls ++ [(k', v)]) =
  match lane_get k ls with
  | Some x => Some x
  | None => if String.eqb k' k then Some v else None
  end.
Proof.
  induction ls as [|[k0 old] ls IH]; simpl; auto.
  destruct (String.eqb k0 k); auto.
Qed.

Lemma lane_get_delete_same k ls : lane_get k (lane_delete k ls) = None.
Proof.
  induction ls as [|[k0 old] ls IH]; simpl; auto.
  destruct (String.eqb k0 k) eqn:E; simpl; auto. now rewrite E.
Qed.

Lemma lane_get_delete_other k k' ls :
  k' <> k -> lane_get k' (lane_delete k ls) = lane_get k' ls.
Proof.
  intros N. induction ls as [|[k0 old] ls IH]; simpl; auto.
  destruct (String.eqb k0 k) eqn:E; simpl.
  - apply String.eqb_eq in E. subst k0.
    destruct (String.eqb k k') eqn:E'; auto.
    apply String.eqb_eq in E'. congruence.
  - destruct (String.eqb k0 k'); auto.
Qed.

Lemma frame_get_remove_same k fs : frame_get k (frame_remove k fs) = None.
Proof.
  induction fs as [|[k0 f] fs IH]; simpl; auto.
  destruct (String.eqb k0 k) eqn:E; simpl; auto. now rewrite E.
Qed.

Lemma frame_get_remove_other k k' fs :
  k' <> k -> frame_get k' (frame_remove k fs) = frame_get k' fs.
Proof.
  intros N. induction fs as [|[k0 f] fs IH]; simpl; auto.
  destruct (String.eqb k0 k) eqn:E; simpl.
  - apply String.eqb_eq in E. subst k0.
    destruct (String.eqb k k') eqn:E'; auto.
    apply String.eqb_eq in E'. congruence.
  - destruct (String.eqb k0 k'); auto.
Qed.

Lemma frame_get_set_same k f fs : frame_get k (frame_set k f fs) = Some f.
Proof. unfold frame_set. simpl. now rewrite String.eqb_refl. Qed.

Lemma frame_get_set_other k k' f fs :
  k' <> k -> frame_get k' (frame_set k f fs) = frame_get k' fs.
Proof.
  intros N. unfold frame_set. simpl.
  destruct (String.eqb k k') eqn:E.
  - apply String.eqb_eq in E. congruence.
  - now apply frame_get_remove_other.
Qed.

Lemma set_has_add_same k s : set_has k (set_add k s) = true.
Proof.
  unfold set_add. destruct (set_has k s) eqn:E; auto.
  unfold set_has. rewrite existsb_app. simpl. rewrite String.eqb_refl.
  now rewrite orb_true_r.
Qed.

Lemma set_has_add_mono k k' s : set_has k' s = true -> set_has k' (set_add k s) = true.
Proof.
  intros H. unfold set_add. destruct (set_has k s); auto.
  unfold set_has in *. rewrite existsb_app, H. reflexivity.
Qed.

Lemma set_has_delete_other k k' s :
  k' <> k -> set_has k' (set_delete k s) = set_has k' s.
Proof.
  intros N. unfold set_has, set_delete. induction s as [|x s IH]; simpl; auto.
  destruct (String.eqb k x) eqn:E; simpl.
  - apply String.eqb_eq in E. subst x.
    destruct (String.eqb k' k) eqn:E'; auto.
    apply String.eqb_eq in E'. congruence.
  - now rewrite IH.
Qed.

(** *** The ordering automaton *)

Lemma lane_spec_from_none k tr : lane_spec_from k None tr = None.
Proof. unfold lane_spec_from. induction tr; simpl; auto. Qed.

Lemma lane_spec_from_app k st l1 l2 :
  lane_spec_from k st (l1 ++ l2) = lane_spec_from k (lane_spec_from k st l1) l2.
Proof. unfold lane_spec_from. apply fold_left_app. Qed.

Lemma lane_spec_snoc k tr e :
  lane_spec k (tr ++ [e]) =
  match lane_spec k tr with Some st => lane_spec_step k st e | None => None end.
Proof. unfold lane_spec. rewrite lane_spec_from_app. reflexivity. Qed.

Lemma lane_spec_prefix k l1 l2 st :
  lane_spec k (l1 ++ l2) = Some st -> exists st1, lane_spec k l1 = Some st1.
Proof.
  unfold lane_spec. rewrite lane_spec_from_app.
  destruct (lane_spec_from k (Some ([], Idle)) l1) as [st1|]; eauto.
  rewrite lane_spec_from_none. discriminate.
Qed.

Lemma lane_spec_step_other k st e : event_in k e = false -> lane_spec_step k st e = Some st.
Proof.
  destruct st as [p s]. destruct e; simpl; intros H; rewrite ?H; reflexivity.
Qed.

Lemma enqueued_app k l1 l2 : enqueued k (l1 ++ l2) = enqueued k l1 ++ enqueued k l2.
Proof.
  induction l1 as [|e l1 IH]; simpl; auto.
  destruct e; auto. destruct (String.eqb k0 k); simpl; congruence.
Qed.

Lemma begun_app k l1 l2 : begun k (l1 ++ l2) = begun k l1 ++ begun k l2.
Proof.
  induction l1 as [|e l1 IH]; simpl; auto.
  destruct e; auto. destruct (String.eqb k0 k && (attempt =? 0)); simpl; congruence.
Qed.

Lemma completed_app k l1 l2 : completed k (l1 ++ l2) = completed k l1 ++ completed k l2.
Proof.
  induction l1 as [|e l1 IH]; simpl; auto.
  destruct e; auto; destruct (String.eqb k0 k); simpl; congruence.
Qed.

Lemma lane_events_app k l1 l2 : lane_events k (l1 ++ l2) = lane_events k l1 ++ lane_events k l2.
Proof. unfold lane_events. apply filter_app. Qed.

(** What acceptance by the automaton says about the trace. *)
Definition lane_facts (k : key) (tr : list event) (st : lane_state) : Prop :=
  enqueued k tr = begun k tr ++ fst st /\
  match snd st with
  | Idle => begun k tr = completed k tr
  | Running t a =>
      begun k tr = completed k tr ++ [t] /\ 0 <= a /\
      exists l0, lane_events k tr = l0 ++ [Started k t a]
  | Backoff t n =>
      begun k tr = completed k tr ++ [t] /\ 1 <= n /\
      exists l0 ms, lane_events k tr = l0 ++ [Started k t (n - 1); Retrying k t n ms]
  end.

Lemma lane_spec_facts k tr : forall st, lane_spec k tr = Some st -> lane_facts k tr st.
Proof.
  induction tr as [|e tr IH] using rev_ind; intros st H.
  - inversion H; subst. unfold lane_facts; simpl. auto.
  - rewrite lane_spec_snoc in H.
    destruct (lane_spec k tr) as [[p s]|] eqn:E; [|discriminate].
    specialize (IH _ eq_refl). destruct IH as [IH1 IH2]. simpl in IH1, IH2.
    unfold lane_facts.
    rewrite enqueued_app, begun_app, completed_app, lane_events_app.
    destruct e as [k' t|k' t a|k' t|k' t n ms|k' t|cb arg]; simpl in H |- *;
      try (destruct (String.eqb k' k) eqn:Ek; simpl;
           [apply String.eqb_eq in Ek; subst k'|]);
      try (inversion H; subst; simpl; rewrite ?app_nil_r; split; [assumption|assumption]).
    + (* Enqueued *)
      inversion H; subst; simpl. rewrite ?app_nil_r. split; [|assumption].
      rewrite IH1. now rewrite app_assoc.
    + (* Started *)
      destruct s as [|t' a'|t' n'].
      * destruct p as [|p0 ps]; [discriminate|].
        destruct (Nat.eqb p0 t) eqn:Et; [|discriminate].
        destruct (a =? 0) eqn:Ea; [|discriminate]. simpl in H.
        inversion H; subst; simpl.
        apply Nat.eqb_eq in Et. apply Z.eqb_eq in Ea. subst.
        rewrite ?app_nil_r. split; [rewrite IH1; now rewrite <- app_assoc|].
        split; [now rewrite IH2|]. split; [lia|]. eexists; reflexivity.
      * discriminate.
      * destruct (Nat.eqb t' t) eqn:Et; [|discriminate].
        destruct (a =? n') eqn:Ea; [|discriminate]. simpl in H.
        inversion H; subst; simpl.
        apply Nat.eqb_eq in Et. apply Z.eqb_eq in Ea. subst.
        destruct IH2 as (B & Hn & l0 & ms & L).
        replace (n' =? 0) with false by (symmetry; apply Z.eqb_neq; lia).
        rewrite ?app_nil_r. split; [assumption|].
        split; [assumption|]. split; [lia|]. eexists; reflexivity.
    + (* Succeeded *)
      destruct s as [|t' a'|t' n']; try discriminate.
      destruct (Nat.eqb t' t) eqn:Et; [|discriminate].
      inversion H; subst; simpl. apply Nat.eqb_eq in Et. subst.
      rewrite ?app_nil_r. split; [assumption|]. tauto.
    + (* Retrying *)
      destruct s as [|t' a'|t' n']; try discriminate.
      destruct (Nat.eqb t' t) eqn:Et; [|discriminate].
      destruct (n =? a' + 1) eqn:En; [|discriminate]. simpl in H.
      inversion H; subst; simpl.
      apply Nat.eqb_eq in Et. apply Z.eqb_eq in En. subst.
      destruct IH2 as (B & Ha & l0 & L).
      rewrite ?app_nil_r. split; [assumption|].
      split; [assumption|]. split; [lia|].
      exists l0, ms. rewrite L. rewrite <- app_assoc. simpl.
      replace (a' + 1 - 1) with a' by lia. reflexivity.
    + (* Failed *)
      destruct s as [|t' a'|t' n']; try discriminate.
      destruct (Nat.eqb t' t) eqn:Et; [|discriminate].
      inversion H; subst; simpl. apply Nat.eqb_eq in Et. subst.
      rewrite ?app_nil_r. split; [assumption|]. tauto.
Qed.

(** *** Preservation of the invariant *)

Ltac qs :=
  cbn [this frames trace on_queue suspend emit with_lanes with_activeLanes
       with_totalItems with_processed with_failed _lanes _activeLanes
       _concurrency _maxSize _maxRetries _retryDelay _totalItems _processed
       _failed fst snd] in *.

Lemma status_of_set_same k f fs :
  status_of k (frame_set k f fs) =
  match f with
  | AwaitTask it => Running (task it) (retries it)
  | AwaitTimer it _ => Backoff (task it) (retries it)
  | Returned => Idle
  end.
Proof. unfold status_of. now rewrite frame_get_set_same. Qed.

Lemma status_of_set_other k k' f fs :
  k' <> k -> status_of k' (frame_set k f fs) = status_of k' fs.
Proof. intros N. unfold status_of. now rewrite frame_get_set_other. Qed.

Lemma lane_spec_emit_other k e tr st :
  event_in k e = false -> lane_spec k tr = Some st -> lane_spec k (tr ++ [e]) = Some st.
Proof. intros He H. rewrite lane_spec_snoc, H. now apply lane_spec_step_other. Qed.

Lemma eqb_neq_sym (k k' : string) : k' <> k -> String.eqb k k' = false.
Proof. intros N. apply String.eqb_neq. congruence. Qed.

Lemma lane_has_put k k' v ls : lane_has k' (lane_put k v ls) = lane_has k' ls.
Proof.
  unfold lane_has. destruct (string_dec k' k) as [->|N].
  - destruct (lane_get k ls) eqn:G.
    + rewrite lane_get_put_same; auto. unfold lane_has. now rewrite G.
    + rewrite lane_put_absent; auto. now rewrite G.
  - now rewrite lane_get_put_other.
Qed.

Lemma Forall_snoc {A} (P : A -> Prop) l x : Forall P l -> P x -> Forall P (l ++ [x]).
Proof. intros H1 H2. apply Forall_app. split; auto. Qed.

(** The loop head reached with lane [k] idle. *)
Lemma loop_inv o k w : lane_pre o k Idle w -> lane_inv o (loop k w).
Proof.
  intros [Hs Ho Hf Ha Has Hl Hls Hr Hd Hds]. unfold loop.
  unfold items_of in *.
  destruct (lane_get k (_lanes (this w))) as [[|it rest]|] eqn:G.
  - (* nothing left: return *)
    constructor; qs; auto.
    + intros k0. destruct (string_dec k0 k) as [->|N].
      * rewrite status_of_set_same. unfold items_of. now rewrite G.
      * rewrite status_of_set_other; auto.
    + intros k0 F. destruct (string_dec k0 k) as [->|N]; auto.
      rewrite frame_get_set_other in F; auto.
    + intros k0 F. destruct (string_dec k0 k) as [->|N]; auto.
      rewrite frame_get_set_other in F; auto.
  - (* shift the head and start it *)
    assert (R0 : retries it = 0).
    { apply (Hf k). rewrite G. now left. }
    constructor; qs; unfold items_of; qs.
    + intros k0. destruct (string_dec k0 k) as [->|N].
      * rewrite status_of_set_same, lane_get_put_same; auto.
        rewrite lane_spec_snoc, Hs. simpl.
        rewrite String.eqb_refl, Nat.eqb_refl, R0. reflexivity.
      * rewrite status_of_set_other, lane_get_put_other; auto.
        apply lane_spec_emit_other; auto. simpl. now apply eqb_neq_sym.
    + intros k0 it0. destruct (string_dec k0 k) as [->|N].
      * rewrite lane_get_put_same; auto. intros I. apply (Hf k).
        rewrite G. now right.
      * rewrite lane_get_put_other; auto. apply Hf.
    + intros k0 F. destruct (string_dec k0 k) as [->|N]; auto.
      rewrite frame_get_set_other in F; auto.
    + intros k0 F. rewrite lane_has_put. destruct (string_dec k0 k) as [->|N]; auto.
      rewrite frame_get_set_other in F; auto.
    + assumption.
    + assumption.
    + apply Forall_snoc; simpl; auto.
  - unfold lane_has in Hl. rewrite G in Hl. discriminate.
Qed.

Lemma lane_inv_pre o k w :
  lane_inv o w -> frame_get k (frames w) <> None ->
  lane_pre o k (status_of k (frames w)) w.
Proof.
  intros [Hs Hf Ha Hl Hr Hd Hds] F. constructor; auto.
Qed.

(** The invariant only reads the lanes, the active set and the retry
    settings of the object. *)
Lemma lane_pre_ext o k st w w' :
  lane_pre o k st w ->
  _lanes (this w') = _lanes (this w) ->
  _activeLanes (this w') = _activeLanes (this w) ->
  _maxRetries (this w') = _maxRetries (this w) ->
  _retryDelay (this w') = _retryDelay (this w) ->
  frames w' = frames w -> trace w' = trace w ->
  lane_pre o k st w'.
Proof.
  intros [Hs Ho Hf Ha Has Hl Hls Hr Hd Hds] E1 E2 E3 E4 E5 E6.
  unfold items_of in *.
  constructor; unfold items_of; rewrite ?E1, ?E2, ?E3, ?E4, ?E5, ?E6; auto.
Qed.

Lemma lane_pre_emit o k st st' e w :
  lane_pre o k st w ->
  lane_spec_step k (map task (items_of k (this w)), st) e
    = Some (map task (items_of k (this w)), st') ->
  (forall k', k' <> k -> event_in k' e = false) ->
  delay_ok o e ->
  lane_pre o k st' (emit e w).
Proof.
  intros [Hs Ho Hf Ha Has Hl Hls Hr Hd Hds] St Oth D.
  constructor; qs; auto.
  - now rewrite lane_spec_snoc, Hs.
  - intros k' N. apply lane_spec_emit_other; auto.
  - apply Forall_snoc; auto.
Qed.

Lemma lane_pre_try_invoke o k st cb arg w :
  lane_pre o k st w -> lane_pre o k st (fst (try_invoke cb arg w)).
Proof.
  intros P. destruct cb as [c|]; simpl; auto.
  assert (Q : lane_pre o k st (emit (Called (cb_name c) arg) w)).
  { apply lane_pre_emit with (st := st); simpl; auto. }
  destruct (cb_throws c); simpl; exact Q.
Qed.

Lemma task_resolved_inv o k it w :
  lane_inv o w -> frame_get k (frames w) = Some (AwaitTask it) ->
  lane_inv o (task_resolved k it w).
Proof.
  intros I F. unfold task_resolved. apply loop_inv.
  apply lane_pre_try_invoke.
  apply lane_pre_emit with (st := Running (task it) (retries it)).
  - apply lane_pre_ext with (w := w); [| reflexivity ..].
    assert (P := lane_inv_pre o k w I). unfold status_of in P. rewrite F in P.
    apply P. discriminate.
  - simpl. now rewrite String.eqb_refl, Nat.eqb_refl.
  - intros k' N. simpl. now apply eqb_neq_sym.
  - exact Logic.I.
Qed.

Lemma task_rejected_inv o k it err w :
  lane_inv o w -> frame_get k (frames w) = Some (AwaitTask it) ->
  lane_inv o (task_rejected k it err w).
Proof.
  intros I F. unfold task_rejected.
  assert (P : lane_pre o k (Running (task it) (retries it)) w).
  { assert (P := lane_inv_pre o k w I). unfold status_of in P. rewrite F in P.
    apply P. discriminate. }
  destruct (retries it <? _maxRetries (this w)) eqn:Lt.
  - (* schedule a retry *)
    apply Z.ltb_lt in Lt.
    destruct P as [Hs Ho Hf Ha Has Hl Hls Hr Hd Hds].
    constructor; qs; auto.
    + intros k0. destruct (string_dec k0 k) as [->|N].
      * rewrite status_of_set_same, lane_spec_snoc, Hs. simpl.
        now rewrite String.eqb_refl, Nat.eqb_refl, Z.eqb_refl.
      * rewrite status_of_set_other; auto.
        apply lane_spec_emit_other; auto. simpl. now apply eqb_neq_sym.
    + intros k0 F0. destruct (string_dec k0 k) as [->|N]; auto.
      rewrite frame_get_set_other in F0; auto.
    + intros k0 F0. destruct (string_dec k0 k) as [->|N]; auto.
      rewrite frame_get_set_other in F0; auto.
    + apply Forall_snoc; auto. simpl. rewrite Hd. split; [reflexivity|lia].
  - (* give up *)
    apply loop_inv. apply lane_pre_try_invoke.
    apply lane_pre_emit with (st := Running (task it) (retries it)).
    + apply lane_pre_ext with (w := w); [exact P | reflexivity ..].
    + simpl. now rewrite String.eqb_refl, Nat.eqb_refl.
    + intros k' N. simpl. now apply eqb_neq_sym.
    + exact Logic.I.
Qed.

Lemma timer_fired_inv o k it ms w :
  lane_inv o w -> frame_get k (frames w) = Some (AwaitTimer it ms) ->
  lane_inv o (timer_fired k it w).
Proof.
  intros I F.
  assert (P : lane_pre o k (Backoff (task it) (retries it)) w).
  { assert (P := lane_inv_pre o k w I). unfold status_of in P. rewrite F in P.
    apply P. discriminate. }
  destruct P as [Hs Ho Hf Ha Has Hl Hls Hr Hd Hds].
  unfold timer_fired, loop. qs.
  rewrite lane_get_put_same by assumption.
  unfold items_of in *.
  assert (G : exists items, lane_get k (_lanes (this w)) = Some items).
  { unfold lane_has in Hl. destruct (lane_get k (_lanes (this w))); eauto; discriminate. }
  destruct G as [items G]. rewrite G in *.
  constructor; qs; unfold items_of; qs.
  - intros k0. destruct (string_dec k0 k) as [->|N].
    + rewrite status_of_set_same, lane_get_put_same by (now rewrite lane_has_put).
      rewrite lane_spec_snoc, Hs. simpl.
      now rewrite String.eqb_refl, Nat.eqb_refl, Z.eqb_refl.
    + rewrite status_of_set_other, !lane_get_put_other; auto.
      apply lane_spec_emit_other; auto. simpl. now apply eqb_neq_sym.
  - intros k0 it0. destruct (string_dec k0 k) as [->|N].
    + rewrite lane_get_put_same by (now rewrite lane_has_put).
      intros In0. apply (Hf k). now rewrite G.
    + rewrite !lane_get_put_other; auto. apply Hf.
  - intros k0 F0. destruct (string_dec k0 k) as [->|N]; auto.
    rewrite frame_get_set_other in F0; auto.
  - intros k0 F0. rewrite !lane_has_put. destruct (string_dec k0 k) as [->|N]; auto.
    rewrite frame_get_set_other in F0; auto.
  - assumption.
  - assumption.
  - apply Forall_snoc; simpl; auto.
Qed.

Lemma lane_is_empty_false k ls :
  lane_is_empty k ls = false -> lane_has k ls = true.
Proof.
  unfold lane_is_empty, lane_has. destruct (lane_get k ls) as [[|]|]; auto; discriminate.
Qed.

Lemma drain_from_inv o ks : forall w, lane_inv o w -> lane_inv o (drain_from ks w).
Proof.
  induction ks as [|k ks IH]; intros w I; simpl; auto.
  destruct (set_size (_activeLanes (this w)) >=? _concurrency (this w)); auto.
  destruct (set_has k (_activeLanes (this w))) eqn:A; simpl; auto.
  destruct (lane_is_empty k (_lanes (this w))) eqn:E; auto.
  apply IH. unfold _processLane. apply loop_inv.
  destruct I as [Hs Hf Ha Hl Hr Hd Hds].
  assert (F : frame_get k (frames w) = None).
  { destruct (frame_get k (frames w)) eqn:F; auto.
    rewrite Ha in A; [discriminate|]. rewrite F. discriminate. }
  constructor; qs; auto.
  - rewrite Hs. unfold status_of. now rewrite F.
  - apply set_has_add_same.
  - intros k' N F'. apply set_has_add_mono. auto.
  - now apply lane_is_empty_false.
Qed.

Lemma _drain_inv o w : lane_inv o w -> lane_inv o (_drain w).
Proof. apply drain_from_inv. Qed.

Lemma lane_finally_inv o k w :
  lane_inv o w -> frame_get k (frames w) = Some Returned ->
  lane_inv o (lane_finally k w).
Proof.
  intros I F. unfold lane_finally. apply _drain_inv.
  destruct I as [Hs Hf Ha Hl Hr Hd Hds]. qs.
  assert (St : forall k0, status_of k0 (frame_remove k (frames w)) = status_of k0 (frames w)).
  { intros k0. unfold status_of. destruct (string_dec k0 k) as [->|N].
    - now rewrite frame_get_remove_same, F.
    - now rewrite frame_get_remove_other. }
  assert (Fr : forall k0, frame_get k0 (frame_remove k (frames w)) <> None ->
                          k0 <> k /\ frame_get k0 (frames w) <> None).
  { intros k0 F0. destruct (string_dec k0 k) as [->|N].
    - now rewrite frame_get_remove_same in F0.
    - rewrite frame_get_remove_other in F0; auto. }
  destruct (lane_get k (_lanes (this w))) as [[|it rest]|] eqn:G;
    constructor; qs; unfold items_of in *; qs; auto;
    try (intros k0; rewrite St; apply Hs);
    try (intros k0 F0; destruct (Fr k0 F0) as [N F1];
         rewrite ?set_has_delete_other by assumption; auto).
  - intros k0. rewrite St. destruct (string_dec k0 k) as [->|N].
    + rewrite lane_get_delete_same. specialize (Hs k). now rewrite G in Hs.
    + rewrite lane_get_delete_other; auto.
  - intros k0 it0. destruct (string_dec k0 k) as [->|N].
    + now rewrite lane_get_delete_same.
    + rewrite lane_get_delete_other; auto. apply Hf.
  - unfold lane_has. rewrite lane_get_delete_other; auto. now apply Hl.
Qed.

Lemma lane_inv_try_invoke o cb arg w :
  lane_inv o w -> lane_inv o (fst (try_invoke cb arg w)).
Proof.
  intros [Hs Hf Ha Hl Hr Hd Hds].
  assert (Q : forall c, lane_inv o (emit (Called c arg) w)).
  { intros c. constructor; qs; auto.
    - intros k. apply lane_spec_emit_other; auto.
    - apply Forall_snoc; simpl; auto. }
  destruct cb as [c|]; simpl.
  - destruct (cb_throws c); simpl; apply Q.
  - constructor; auto.
Qed.

Lemma enqueue_inv o t lbl k onS onF w :
  lane_inv o w -> lane_inv o (fst (enqueue t lbl k onS onF w)).
Proof.
  intros I. unfold enqueue.
  destruct (_totalItems (this w) >=? _maxSize (this w)).
  - assert (Q := lane_inv_try_invoke o onF (Some queue_full) w I).
    destruct (try_invoke onF (Some queue_full) w) as [w' [u|e]]; exact Q.
  - cbn [fst]. apply _drain_inv.
    set (w1 := if lane_has k (_lanes (this w)) then w
               else on_queue (with_lanes (lane_set k [] (_lanes (this w)))) w).
    assert (I1 : lane_inv o w1 /\ lane_has k (_lanes (this w1)) = true).
    { subst w1. destruct (lane_has k (_lanes (this w))) eqn:H; [auto|].
      unfold lane_set. rewrite H. qs.
      destruct I as [Hs Hf Ha Hl Hr Hd Hds].
      assert (It : forall k0, items_of k0 (with_lanes (_lanes (this w) ++ [(k, [])]) (this w))
                              = items_of k0 (this w)).
      { intros k0. unfold items_of. qs. rewrite lane_get_app.
        destruct (lane_get k0 (_lanes (this w))); auto.
        destruct (String.eqb k k0); auto. }
      split.
      - constructor; qs; auto.
        + intros k0. rewrite It. apply Hs.
        + intros k0 it0. rewrite It. apply Hf.
        + intros k0 F0. specialize (Hl k0 F0). unfold lane_has in *.
          rewrite lane_get_app. destruct (lane_get k0 (_lanes (this w))); auto.
          discriminate.
      - unfold lane_has. rewrite lane_get_app.
        destruct (lane_get k (_lanes (this w))); auto. now rewrite String.eqb_refl. }
    clearbody w1. destruct I1 as [[Hs Hf Ha Hl Hr Hd Hds] H1].
    fold (items_of k (this w1)).
    constructor; qs; unfold items_of in *; qs; auto.
    + intros k0. destruct (string_dec k0 k) as [->|N].
      * rewrite lane_get_put_same by assumption.
        rewrite lane_spec_snoc, Hs. simpl. rewrite String.eqb_refl.
        now rewrite map_app.
      * rewrite lane_get_put_other by assumption.
        apply lane_spec_emit_other; auto. simpl. now apply eqb_neq_sym.
    + intros k0 it0. destruct (string_dec k0 k) as [->|N].
      * rewrite lane_get_put_same by assumption. intros In0.
        apply in_app_or in In0. destruct In0 as [In0|[<-|[]]]; [|reflexivity].
        now apply (Hf k).
      * rewrite lane_get_put_other by assumption. apply Hf.
    + intros k0 F0. rewrite lane_has_put. auto.
    + apply Forall_snoc; simpl; auto.
Qed.

Lemma step_inv o w i : lane_inv o w -> lane_inv o (step w i).
Proof.
  intros I. destruct i as [t lbl k onS onF|k|k err|k|k]; simpl.
  - now apply enqueue_inv.
  - destruct (frame_get k (frames w)) as [[it|it ms|]|] eqn:F; auto.
    now apply task_resolved_inv.
  - destruct (frame_get k (frames w)) as [[it|it ms|]|] eqn:F; auto.
    now apply task_rejected_inv.
  - destruct (frame_get k (frames w)) as [[it|it ms|]|] eqn:F; auto.
    now apply timer_fired_inv with (ms := ms).
  - destruct (frame_get k (frames w)) as [[it|it ms|]|] eqn:F; auto.
    now apply lane_finally_inv.
Qed.

Lemma run_inv o ins : forall w, lane_inv o w -> lane_inv o (run w ins).
Proof.
  induction ins as [|i ins IH]; intros w I; simpl; auto.
  apply IH. now apply step_inv.
Qed.

Lemma init_inv o : lane_inv o (init o).
Proof.
  constructor; simpl; auto; intros; try contradiction; try congruence.
Qed.

Lemma reachable_inv o ins : lane_inv o (run (init o) ins).
Proof. apply run_inv, init_inv. Qed.

(** *** The pending count *)

Lemma lanes_len_cons k v ls : lanes_len ((k, v) :: ls) = Z.of_nat (List.length v) + lanes_len ls.
Proof. unfold lanes_len. simpl. rewrite length_app. lia. Qed.

Lemma lanes_len_put k v ls old :
  lane_get k ls = Some old ->
  lanes_len (lane_put k v ls) =
  lanes_len ls - Z.of_nat (List.length old) + Z.of_nat (List.length v).
Proof.
  induction ls as [|[k0 v0] ls IH]; simpl; [discriminate|].
  destruct (String.eqb k0 k).
  - intros [= ->]. rewrite !lanes_len_cons. lia.
  - intros G. rewrite !lanes_len_cons, IH by assumption. lia.
Qed.

Lemma lanes_len_app k ls : lanes_len (ls ++ [(k, [])]) = lanes_len ls.
Proof.
  induction ls as [|[k0 v0] ls IH]; simpl; auto.
  rewrite !lanes_len_cons, IH. reflexivity.
Qed.

Lemma lane_get_absent k ls : ~ In k (map fst ls) -> lane_get k ls = None.
Proof.
  induction ls as [|[k0 v0] ls IH]; simpl; auto. intros N.
  destruct (String.eqb k0 k) eqn:E.
  - apply String.eqb_eq in E. tauto.
  - apply IH. tauto.
Qed.

Lemma lane_get_present k ls : lane_get k ls = None -> ~ In k (map fst ls).
Proof.
  induction ls as [|[k0 v0] ls IH]; simpl; auto.
  destruct (String.eqb k0 k) eqn:E; [discriminate|].
  apply String.eqb_neq in E. intros G [H|H]; [contradiction|]. now apply IH.
Qed.

Lemma lane_delete_absent k ls : ~ In k (map fst ls) -> lane_delete k ls = ls.
Proof.
  induction ls as [|[k0 v0] ls IH]; simpl; auto. intros N.
  destruct (String.eqb k0 k) eqn:E.
  - apply String.eqb_eq in E. tauto.
  - rewrite IH; tauto.
Qed.

Lemma lanes_len_delete k ls :
  NoDup (map fst ls) -> lane_get k ls = Some [] ->
  lanes_len (lane_delete k ls) = lanes_len ls.
Proof.
  induction ls as [|[k0 v0] ls IH]; simpl; [discriminate|].
  intros N. inversion N; subst.
  destruct (String.eqb k0 k) eqn:E.
  - apply String.eqb_eq in E. subst k0. intros [= ->].
    rewrite lane_delete_absent by assumption. now rewrite lanes_len_cons.
  - intros G. rewrite !lanes_len_cons, IH; auto.
Qed.

Lemma lane_delete_keys k ls : NoDup (map fst ls) -> NoDup (map fst (lane_delete k ls)).
Proof.
  induction ls as [|[k0 v0] ls IH]; simpl; auto.
  intros N. inversion N; subst. destruct (String.eqb k0 k); auto.
  simpl. constructor; auto.
  intros I. apply H1. clear - I.
  induction ls as [|[k1 v1] ls IH]; simpl in *; auto.
  destruct (String.eqb k1 k); simpl in *; tauto.
Qed.

Lemma lane_put_keys k v ls : map fst (lane_put k v ls) = map fst ls.
Proof.
  induction ls as [|[k0 v0] ls IH]; simpl; auto.
  destruct (String.eqb k0 k) eqn:E; simpl; congruence.
Qed.

Lemma count_inv_ext w w' :
  count_inv w -> _lanes (this w') = _lanes (this w) ->
  _totalItems (this w') = _totalItems (this w) -> count_inv w'.
Proof.
  intros [K T] E1 E2. constructor; unfold waiting in *; rewrite ?E1, ?E2; auto.
Qed.

Lemma try_invoke_this cb arg w : this (fst (try_invoke cb arg w)) = this w.
Proof.
  destruct cb as [c|]; simpl; auto. destruct (cb_throws c); reflexivity.
Qed.

Lemma loop_count k w : count_inv w -> count_inv (loop k w).
Proof.
  intros [K T]. unfold loop.
  destruct (lane_get k (_lanes (this w))) as [[|it rest]|] eqn:G;
    constructor; qs; auto.
  - now rewrite lane_put_keys.
  - unfold waiting in *. qs. fold (lanes_len (lane_put k rest (_lanes (this w)))).
    rewrite (lanes_len_put _ _ _ _ G). fold (lanes_len (_lanes (this w))) in T.
    rewrite T. simpl List.length. lia.
Qed.

Lemma timer_fired_count k it w :
  count_inv w -> lane_has k (_lanes (this w)) = true -> count_inv (timer_fired k it w).
Proof.
  intros [K T] H. unfold timer_fired. apply loop_count.
  unfold lane_has in H.
  destruct (lane_get k (_lanes (this w))) as [items|] eqn:G; [|discriminate].
  constructor; qs.
  - now rewrite lane_put_keys.
  - unfold waiting in *. qs.
    fold (lanes_len (lane_put k (it :: items) (_lanes (this w)))).
    rewrite (lanes_len_put _ _ _ _ G). fold (lanes_len (_lanes (this w))) in T.
    rewrite T. simpl List.length. lia.
Qed.

Lemma drain_from_count ks : forall w, count_inv w -> count_inv (drain_from ks w).
Proof.
  induction ks as [|k ks IH]; intros w C; simpl; auto.
  destruct (set_size (_activeLanes (this w)) >=? _concurrency (this w)); auto.
  destruct (set_has k (_activeLanes (this w)) || lane_is_empty k (_lanes (this w))); auto.
  apply IH. unfold _processLane. apply loop_count.
  apply count_inv_ext with (w := w); auto.
Qed.

Lemma step_count o w i : lane_inv o w -> count_inv w -> count_inv (step w i).
Proof.
  intros I C. destruct i as [t lbl k onS onF|k|k err|k|k]; simpl.
  - (* enqueue *)
    unfold enqueue. destruct (_totalItems (this w) >=? _maxSize (this w)).
    + assert (E := try_invoke_this onF (Some queue_full) w).
      destruct (try_invoke onF (Some queue_full) w) as [w' [u|e]]; simpl in *;
        apply count_inv_ext with (w := w); auto; now rewrite E.
    + cbn [fst]. apply drain_from_count.
      destruct C as [K T]. unfold lane_set, lane_has.
      destruct (lane_get k (_lanes (this w))) as [items|] eqn:G; qs.
      * rewrite G. constructor; qs.
        -- now rewrite lane_put_keys.
        -- unfold waiting in *. qs.
           fold (lanes_len (lane_put k (items ++ [mkItem t lbl 0 onS onF]) (_lanes (this w)))).
           rewrite (lanes_len_put _ _ _ _ G). fold (lanes_len (_lanes (this w))) in T.
           rewrite T, length_app. simpl List.length. lia.
      * assert (G' : lane_get k (_lanes (this w) ++ [(k, [])]) = Some []).
        { rewrite lane_get_app, G. now rewrite String.eqb_refl. }
        rewrite G'. constructor; qs.
        -- rewrite lane_put_keys, map_app. simpl. apply NoDup_app; auto.
           ++ repeat constructor. simpl. tauto.
           ++ intros x Hx [<-|[]]. revert Hx. now apply lane_get_present.
        -- unfold waiting in *. qs.
           fold (lanes_len (lane_put k ([] ++ [mkItem t lbl 0 onS onF])
                                     (_lanes (this w) ++ [(k, [])]))).
           rewrite (lanes_len_put _ _ _ _ G'), lanes_len_app.
           fold (lanes_len (_lanes (this w))) in T. rewrite T. simpl List.length. lia.
  - destruct (frame_get k (frames w)) as [[it|it ms|]|] eqn:F; auto.
    unfold task_resolved. apply loop_count.
    apply count_inv_ext with (w := w); auto; now rewrite try_invoke_this.
  - destruct (frame_get k (frames w)) as [[it|it ms|]|] eqn:F; auto.
    unfold task_rejected. destruct (retries it <? _maxRetries (this w)).
    + apply count_inv_ext with (w := w); auto.
    + apply loop_count.
      apply count_inv_ext with (w := w); auto; now rewrite try_invoke_this.
  - destruct (frame_get k (frames w)) as [[it|it ms|]|] eqn:F; auto.
    apply timer_fired_count; auto.
    apply (inv_lanes o w I). rewrite F. discriminate.
  - destruct (frame_get k (frames w)) as [[it|it ms|]|] eqn:F; auto.
    unfold lane_finally. apply drain_from_count. qs. destruct C as [K T].
    destruct (lane_get k (_lanes (this w))) as [[|it rest]|] eqn:G;
      constructor; qs; auto.
    + now apply lane_delete_keys.
    + unfold waiting in *. qs. fold (lanes_len (lane_delete k (_lanes (this w)))).
      rewrite lanes_len_delete; auto.
Qed.

(** In every reachable state the count compared with [maxSize] is the
    number of items waiting in lanes. *)
Lemma reachable_count o ins : count_inv (run (init o) ins).
Proof.
  assert (H : forall w, lane_inv o w -> count_inv w ->
                        lane_inv o (run w ins) /\ count_inv (run w ins)).
  { induction ins as [|i ins IH]; intros w I C; simpl; auto.
    apply IH; [now apply step_inv | now apply step_count with (o := o)]. }
  apply H; [apply init_inv|]. constructor; simpl; [constructor|reflexivity].
Qed.

(** *** Ordering within a lane *)

(** C1.  Take any run of the queue and cut its trace at any point.  The
    tasks of lane [k] begun so far are, in order, the first tasks enqueued
    under [k].  If the next event starts a task of lane [k], then either it
    is a first attempt, every task of the lane begun earlier has already
    succeeded or failed for good, and the task is the oldest enqueued one
    not begun yet; or it is retry [a] of the task whose attempt [a - 1]
    was the last thing the lane ran before scheduling that retry, so no
    later task of the lane got in between. *)
Theorem lane_order_preserved (o : options) (ins : list input) (k : key)
        (pre post : list event) :
  trace (run (init o) ins) = pre ++ post ->
  (exists rest, enqueued k pre = begun k pre ++ rest) /\
  (forall t a post', post = Started k t a :: post' ->
     (a = 0 /\ completed k pre = begun k pre /\
      exists later, enqueued k pre = begun k pre ++ t :: later)
     \/
     (0 < a /\ exists l0 ms,
        lane_events k pre = l0 ++ [Started k t (a - 1); Retrying k t a ms])).
Proof.
  intros T.
  assert (S := inv_spec o _ (reachable_inv o ins) k). rewrite T in S.
  destruct (lane_spec_prefix _ _ _ _ S) as [[p1 s1] S1].
  destruct (lane_spec_facts _ _ _ S1) as [E1 F1]. simpl in E1, F1.
  split; [eauto|].
  intros t a post' ->.
  change (Started k t a :: post') with ([Started k t a] ++ post') in S.
  rewrite app_assoc in S.
  destruct (lane_spec_prefix _ _ _ _ S) as [st2 S2].
  rewrite lane_spec_snoc, S1 in S2. simpl in S2. rewrite String.eqb_refl in S2.
  destruct s1 as [|t' a'|t' n'].
  - destruct p1 as [|p0 ps]; [discriminate|].
    destruct (Nat.eqb p0 t) eqn:Et; [|discriminate].
    destruct (a =? 0) eqn:Ea; [|discriminate].
    apply Nat.eqb_eq in Et. apply Z.eqb_eq in Ea. subst.
    left. split; [reflexivity|]. split; [congruence|]. eauto.
  - discriminate.
  - destruct (Nat.eqb t' t) eqn:Et; [|discriminate].
    destruct (a =? n') eqn:Ea; [|discriminate].
    apply Nat.eqb_eq in Et. apply Z.eqb_eq in Ea. subst.
    destruct F1 as (_ & Hn & l0 & ms & L).
    right. split; [lia|]. eauto.
Qed.

(** C3.  Whenever a run schedules retry number [n] of a task, the attempt
    that has just failed is attempt [n - 1] of that task (attempts are
    numbered from 0, so [n] counts the retries from 1), [n] does not exceed
    the configured number of retries, and the timer is set to
    [retryDelay * 2 ^ (n - 1)] milliseconds. *)
Theorem backoff_delay (o : options) (ins : list input) (k : key) (t : nat)
        (n ms : Z) (pre post : list event) :
  trace (run (init o) ins) = pre ++ Retrying k t n ms :: post ->
  ms = retryDelay o * 2 ^ (n - 1) /\
  1 <= n <= opt_retries o /\
  exists l0, lane_events k pre = l0 ++ [Started k t (n - 1)].
Proof.
  intros T.
  assert (I := reachable_inv o ins).
  assert (D := inv_delays o _ I). rewrite T in D.
  rewrite Forall_app in D. destruct D as [_ D]. apply Forall_inv in D.
  simpl in D. destruct D as [Dm Dn]. subst ms.
  assert (S := inv_spec o _ I k). rewrite T in S.
  change (Retrying k t n (retryDelay o * 2 ^ (n - 1)) :: post)
    with ([Retrying k t n (retryDelay o * 2 ^ (n - 1))] ++ post) in S.
  rewrite app_assoc in S.
  destruct (lane_spec_prefix _ _ _ _ S) as [st2 S2].
  destruct (lane_spec_prefix _ _ _ _ S2) as [[p1 s1] S1].
  destruct (lane_spec_facts _ _ _ S1) as [E1 F1]. simpl in E1, F1.
  rewrite lane_spec_snoc, S1 in S2. simpl in S2. rewrite String.eqb_refl in S2.
  destruct s1 as [|t' a'|t' n']; try discriminate.
  destruct (Nat.eqb t' t) eqn:Et; [|discriminate].
  destruct (n =? a' + 1) eqn:En; [|discriminate].
  apply Nat.eqb_eq in Et. apply Z.eqb_eq in En. subst.
  destruct F1 as (_ & Ha & l0 & L).
  split; [reflexivity|]. split; [lia|].
  exists l0. rewrite L. now replace (a' + 1 - 1) with a' by lia.
Qed.

(** While a task fails with retries left, the lane schedules the next
    retry of the same item and resumes with it when the timer fires. *)
Lemma reject_schedules_retry (o : options) (ins : list input) (k : key)
      (it : item) (err : string) :
  let w := run (init o) ins in
  frame_get k (frames w) = Some (AwaitTask it) ->
  retries it < opt_retries o ->
  let n := retries it + 1 in
  let ms := retryDelay o * 2 ^ (n - 1) in
  let w1 := step w (Reject k err) in
  let w2 := step w1 (Timer k) in
  trace w1 = trace w ++ [Retrying k (task it) n ms] /\
  frame_get k (frames w1) = Some (AwaitTimer (bump it) ms) /\
  trace w2 = trace w1 ++ [Started k (task it) n] /\
  frame_get k (frames w2) = Some (AwaitTask (bump it)) /\
  items_of k (this w2) = items_of k (this w).
Proof.
  intros w F Lt n ms w1 w2.
  assert (I := reachable_inv o ins). fold w in I.
  assert (Hl : lane_has k (_lanes (this w)) = true).
  { apply (inv_lanes o w I). rewrite F. discriminate. }
  assert (W1 : w1 = suspend k (AwaitTimer (bump it) ms)
                      (emit (Retrying k (task it) n ms) w)).
  { subst w1. simpl. rewrite F. unfold task_rejected.
    rewrite (inv_retries o w I), (inv_delay o w I).
    replace (retries it <? opt_retries o) with true by (symmetry; apply Z.ltb_lt; lia).
    reflexivity. }
  subst w2. rewrite W1. simpl. rewrite String.eqb_refl.
  unfold timer_fired, loop. qs. rewrite lane_get_put_same by assumption. qs.
  rewrite frame_get_set_same. unfold items_of. qs.
  rewrite lane_get_put_same by (now rewrite lane_has_put).
  unfold lane_has in Hl. destruct (lane_get k (_lanes (this w))); [|discriminate].
  repeat split; reflexivity.
Qed.

(** C7.  When the task a lane awaits fails and its item has used up its
    retries, the failed counter goes up by one, [onFailure] (if any) is
    called with the error, whether or not that call throws, the item is
    put back neither into its lane nor anywhere else, and the lane goes on
    at once with its next pending item, or returns when there is none. *)
Theorem exhausted_item_is_dropped (o : options) (ins : list input) (k : key)
        (it : item) (err : string) :
  let w := run (init o) ins in
  frame_get k (frames w) = Some (AwaitTask it) ->
  opt_retries o <= retries it ->
  let w' := step w (Reject k err) in
  _failed (this w') = _failed (this w) + 1 /\
  _processed (this w') = _processed (this w) /\
  items_of k (this w') = tl (items_of k (this w)) /\
  frame_get k (frames w') =
    Some (match items_of k (this w) with
          | next :: _ => AwaitTask next
          | [] => Returned
          end) /\
  trace w' = trace w ++ [Failed k (task it)]
    ++ match onFailure it with
       | Some cb => [Called (cb_name cb) (Some err)]
       | None => []
       end
    ++ match items_of k (this w) with
       | next :: _ => [Started k (task next) (retries next)]
       | [] => []
       end.
Proof.
  intros w F Ex w'.
  assert (I := reachable_inv o ins). fold w in I.
  assert (Hl : lane_has k (_lanes (this w)) = true).
  { apply (inv_lanes o w I). rewrite F. discriminate. }
  subst w'. simpl. rewrite F. unfold task_rejected.
  rewrite (inv_retries o w I).
  replace (retries it <? opt_retries o) with false by (symmetry; apply Z.ltb_ge; lia).
  unfold lane_has in Hl. unfold items_of.
  destruct (lane_get k (_lanes (this w))) as [items|] eqn:G; [|discriminate].
  destruct (onFailure it) as [cb|]; [destruct (cb_throws cb) eqn:Th|];
    unfold try_invoke, invoke, loop; try rewrite Th; qs; rewrite G;
    (destruct items as [|next rest]; qs;
     [ rewrite frame_get_set_same, G, <- ?app_assoc; simpl; repeat split; reflexivity
     | rewrite frame_get_set_same, lane_get_put_same, <- ?app_assoc
         by (unfold lane_has; now rewrite G);
       simpl; repeat split; reflexivity ]).
Qed.

(** *** Backpressure *)

(** C2.  When the pending count has reached [maxSize], [enqueue] returns
    [false] without throwing (also when the callback throws), the object and
    the suspended lanes are left as they were, and the only effect is the
    call of [onFailure], when one was supplied, with the queue-full error. *)
Theorem enqueue_rejects_when_full (t : nat) (lbl : string) (k : key)
        (onS onF : option callback) (w : world) :
  _maxSize (this w) <= _totalItems (this w) ->
  exists w',
    enqueue t lbl k onS onF w = (w', Normal false) /\
    this w' = this w /\
    frames w' = frames w /\
    trace w' = trace w ++
      match onF with
      | Some cb => [Called (cb_name cb) (Some "Queue full - backpressure")]
      | None => []
      end.
Proof.
  intros H. unfold enqueue.
  replace (_totalItems (this w) >=? _maxSize (this w)) with true
    by (symmetry; apply Z.geb_le; lia).
  destruct onF as [cb|]; simpl.
  - destruct (cb_throws cb); simpl; eexists; repeat split; reflexivity.
  - exists w. rewrite app_nil_r. repeat split; reflexivity.
Qed.

(** C6 as stated does not hold: with [maxSize = 2] and the default
    concurrency, two slow tasks enqueued under two keys are both started at
    once and stop counting as pending, so a third [enqueue] is accepted. *)
Lemma third_enqueue_is_accepted :
  let o := mkOptions 5 2 2 1000 in
  let w2 := run (init o) [Enqueue 1 "slow-1" "A" None None;
                          Enqueue 2 "slow-2" "B" None None] in
  let r := enqueue 3 "third" "C" None (Some (mkCallback "onFailure" None)) w2 in
  frame_get "A" (frames w2) = Some (AwaitTask (mkItem 1 "slow-1" 0 None None)) /\
  frame_get "B" (frames w2) = Some (AwaitTask (mkItem 2 "slow-2" 0 None None)) /\
  _processed (this w2) = 0 /\
  snd r = Normal true /\
  ~ (snd r = Normal false /\
     In (Called "onFailure" (Some "Queue full - backpressure")) (trace (fst r))).
Proof.
  vm_compute. repeat split; try reflexivity.
  intros [H _]. discriminate.
Qed.

(** The operations on an explicit state. *)
Lemma enqueue_eq t lbl k onS onF ls act c m r d tot p fl fs tr :
  tot < m ->
  enqueue t lbl k onS onF (mkWorld (mkQueue ls act c m r d tot p fl) fs tr) =
  (_drain (mkWorld (mkQueue
             (lane_put k (items_of k (mkQueue (if lane_has k ls then ls else ls ++ [(k, [])])
                                              act c m r d tot p fl)
                          ++ [mkItem t lbl 0 onS onF])
                      (if lane_has k ls then ls else ls ++ [(k, [])]))
             act c m r d (tot + 1) p fl) fs (tr ++ [Enqueued k t])),
   Normal true).
Proof.
  intros H. unfold enqueue, lane_set.
  cbv beta iota delta [this _totalItems _maxSize _lanes].
  replace (tot >=? m) with false by (symmetry; rewrite Z.geb_leb; apply Z.leb_gt; lia).
  destruct (lane_has k ls) eqn:E; reflexivity.
Qed.

Lemma loop_eq k ls act c m r d tot p fl fs tr :
  loop k (mkWorld (mkQueue ls act c m r d tot p fl) fs tr) =
  match lane_get k ls with
  | Some (it :: rest) =>
      mkWorld (mkQueue (lane_put k rest ls) act c m r d (tot - 1) p fl)
              (frame_set k (AwaitTask it) fs)
              (tr ++ [Started k (task it) (retries it)])
  | _ => mkWorld (mkQueue ls act c m r d tot p fl) (frame_set k Returned fs) tr
  end.
Proof.
  unfold loop. cbn [this _lanes]. destruct (lane_get k ls) as [[|it rest]|]; reflexivity.
Qed.

Lemma drain_from_cons k ks ls act c m r d tot p fl fs tr :
  drain_from (k :: ks) (mkWorld (mkQueue ls act c m r d tot p fl) fs tr) =
  if set_size act >=? c then mkWorld (mkQueue ls act c m r d tot p fl) fs tr
  else if set_has k act || lane_is_empty k ls
       then drain_from ks (mkWorld (mkQueue ls act c m r d tot p fl) fs tr)
       else drain_from ks (loop k (mkWorld (mkQueue ls (set_add k act) c m r d tot p fl) fs tr)).
Proof. reflexivity. Qed.

Lemma drain_from_nil w : drain_from [] w = w.
Proof. reflexivity. Qed.

Ltac keys_eval :=
  repeat (progress (
    unfold _drain, lane_has, lane_is_empty, set_size, set_add, set_has, items_of,
           frame_set;
    cbn [this _lanes map fst snd lane_get lane_put app existsb List.length
         frame_remove orb negb Z.of_nat Pos.of_succ_nat Pos.succ task retries];
    rewrite ?loop_eq, ?drain_from_cons, ?drain_from_nil, ?String.eqb_refl;
    repeat match goal with
           | H : _ = true |- _ => rewrite H
           | H : _ = false |- _ => rewrite H
           end;
    change (0 + 1) with 1; change (1 + 1) with 2;
    change (1 - 1) with 0; change (2 - 1) with 1)).

(** C6, amended.  With [maxSize = 2], after two slow tasks have been enqueued
    under two different keys, the count compared with [maxSize] is the number
    of items still waiting in lanes.  If no lane may start ([concurrency <= 0])
    both items wait and a third [enqueue] returns [false] and calls its
    [onFailure] with the backpressure error; as soon as one lane has
    started its task ([1 <= concurrency]) fewer than two items wait and the
    third [enqueue] returns [true]. *)
Theorem third_enqueue_counts_waiting_items (o : options)
        (t1 t2 t3 : nat) (l1 l2 l3 : string) (k1 k2 k3 : key)
        (s1 f1 s2 f2 s3 f3 : option callback) :
  maxSize o = 2 -> k1 <> k2 ->
  let w2 := run (init o) [Enqueue t1 l1 k1 s1 f1; Enqueue t2 l2 k2 s2 f2] in
  let r := enqueue t3 l3 k3 s3 f3 w2 in
  _totalItems (this w2) = waiting (this w2) /\
  (concurrency o <= 0 ->
     waiting (this w2) = 2 /\ snd r = Normal false /\ this (fst r) = this w2 /\
     trace (fst r) = trace w2 ++
       match f3 with
       | Some cb => [Called (cb_name cb) (Some "Queue full - backpressure")]
       | None => []
       end) /\
  (1 <= concurrency o -> waiting (this w2) < 2 /\ snd r = Normal true) /\
  (2 <= concurrency o -> waiting (this w2) = 0).
Proof.
  intros M N. destruct o as [c m rt rd]. simpl in M. subst m.
  assert (E12 : String.eqb k1 k2 = false) by now apply String.eqb_neq.
  assert (E21 : String.eqb k2 k1 = false) by now apply eqb_neq_sym.
  clear N. cbv zeta.
  set (i1 := mkItem t1 l1 0 s1 f1). set (i2 := mkItem t2 l2 0 s2 f2).
  set (w2 := run _ _).
  assert (W0 : w2 = fst (enqueue t2 l2 k2 s2 f2
                 (fst (enqueue t1 l1 k1 s1 f1
                         (mkWorld (mkQueue [] [] c 2 rt rd 0 0 0) [] []))))) by reflexivity.
  clearbody w2.
  destruct (Z_le_gt_dec c 0) as [L0|L0]; [|destruct (Z.eq_dec c 1) as [L1|L1]].
  - (* no lane may start *)
    assert (C0 : (0 >=? c) = true) by (apply Z.geb_le; lia).
    assert (W : w2 = mkWorld (mkQueue [(k1, [i1]); (k2, [i2])] [] c 2 rt rd 2 0 0) []
                             [Enqueued k1 t1; Enqueued k2 t2]).
    { rewrite W0. rewrite enqueue_eq by lia. cbn [fst]. keys_eval.
      rewrite enqueue_eq by lia. cbn [fst]. keys_eval. reflexivity. }
    clear W0. subst w2. unfold enqueue, waiting, lanes_len. simpl.
    split; [reflexivity|]. split; [|split; intros; lia].
    intros _. destruct f3 as [cb|]; unfold try_invoke, invoke; simpl;
      [destruct (cb_throws cb)|];
      simpl; rewrite ?app_nil_r; repeat split; reflexivity.
  - (* one lane: the first task runs, the second waits *)
    subst c.
    assert (W : w2 = mkWorld (mkQueue [(k1, []); (k2, [i2])] [k1] 1 2 rt rd 1 0 0)
                             [(k1, AwaitTask i1)]
                             [Enqueued k1 t1; Started k1 t1 0; Enqueued k2 t2]).
    { rewrite W0. rewrite enqueue_eq by lia. cbn [fst]. keys_eval.
      change (0 >=? 1) with false. keys_eval.
      rewrite enqueue_eq by lia. cbn [fst]. keys_eval.
      change (1 >=? 1) with true. keys_eval. reflexivity. }
    clear W0. subst w2. unfold enqueue, waiting, lanes_len. simpl.
    split; [reflexivity|]. split; [intros; lia|]. split; [|intros; lia].
    intros _. split; [lia|]. reflexivity.
  - (* both tasks run *)
    assert (C0 : (0 >=? c) = false) by (rewrite Z.geb_leb; apply Z.leb_gt; lia).
    assert (C1 : (1 >=? c) = false) by (rewrite Z.geb_leb; apply Z.leb_gt; lia).
    assert (W : w2 = mkWorld (mkQueue [(k1, []); (k2, [])] [k1; k2] c 2 rt rd 0 0 0)
                             [(k2, AwaitTask i2); (k1, AwaitTask i1)]
                             [Enqueued k1 t1; Started k1 t1 0;
                              Enqueued k2 t2; Started k2 t2 0]).
    { rewrite W0. rewrite enqueue_eq by lia. cbn [fst]. keys_eval.
      rewrite enqueue_eq by lia. cbn [fst]. keys_eval. reflexivity. }
    clear W0. subst w2. unfold enqueue, waiting, lanes_len. simpl.
    split; [reflexivity|]. split; [intros; lia|]. split; [|reflexivity].
    intros _. split; [lia|]. reflexivity.
Qed.

(** *** Instances

    The run used below: three tasks under key "A"; the first fails twice and
    then succeeds, the other two succeed at once. *)

Lemma lane_order_preserved_witness :
  let ins := [Enqueue 1 "t1" "A" None None; Enqueue 2 "t2" "A" None None;
              Enqueue 3 "t3" "A" None None; Reject "A" "e1"; Timer "A";
              Reject "A" "e2"; Timer "A"; Resolve "A"; Resolve "A"; Resolve "A"] in
  let pre := [Enqueued "A" 1; Started "A" 1 0; Enqueued "A" 2; Enqueued "A" 3;
              Retrying "A" 1 1 1000; Started "A" 1 1; Retrying "A" 1 2 2000;
              Started "A" 1 2; Succeeded "A" 1] in
  let post := [Started "A" 2 0; Succeeded "A" 2; Started "A" 3 0; Succeeded "A" 3] in
  trace (run (init default_options) ins) = pre ++ post /\
  (exists rest, enqueued "A" pre = begun "A" pre ++ rest) /\
  (forall t a post', post = Started "A" t a :: post' ->
     (a = 0 /\ completed "A" pre = begun "A" pre /\
      exists later, enqueued "A" pre = begun "A" pre ++ t :: later)
     \/
     (0 < a /\ exists l0 ms,
        lane_events "A" pre = l0 ++ [Started "A" t (a - 1); Retrying "A" t a ms])).
Proof.
  cbv zeta. split; [reflexivity|].
  apply (lane_order_preserved default_options
           [Enqueue 1 "t1" "A" None None; Enqueue 2 "t2" "A" None None;
            Enqueue 3 "t3" "A" None None; Reject "A" "e1"; Timer "A";
            Reject "A" "e2"; Timer "A"; Resolve "A"; Resolve "A"; Resolve "A"]).
  reflexivity.
Defined.

Lemma backoff_delay_witness :
  let ins := [Enqueue 1 "t1" "A" None None; Enqueue 2 "t2" "A" None None;
              Enqueue 3 "t3" "A" None None; Reject "A" "e1"; Timer "A";
              Reject "A" "e2"; Timer "A"; Resolve "A"; Resolve "A"; Resolve "A"] in
  let pre := [Enqueued "A" 1; Started "A" 1 0; Enqueued "A" 2; Enqueued "A" 3;
              Retrying "A" 1 1 1000; Started "A" 1 1] in
  let post := [Started "A" 1 2; Succeeded "A" 1; Started "A" 2 0; Succeeded "A" 2;
               Started "A" 3 0; Succeeded "A" 3] in
  trace (run (init default_options) ins) = pre ++ Retrying "A" 1 2 2000 :: post /\
  2000 = retryDelay default_options * 2 ^ (2 - 1) /\
  1 <= 2 <= opt_retries default_options /\
  exists l0, lane_events "A" pre = l0 ++ [Started "A" 1 (2 - 1)].
Proof.
  cbv zeta. split; [reflexivity|].
  apply (backoff_delay default_options
           [Enqueue 1 "t1" "A" None None; Enqueue 2 "t2" "A" None None;
            Enqueue 3 "t3" "A" None None; Reject "A" "e1"; Timer "A";
            Reject "A" "e2"; Timer "A"; Resolve "A"; Resolve "A"; Resolve "A"]
           "A" 1%nat 2 2000 _
           [Started "A" 1 2; Succeeded "A" 1; Started "A" 2 0; Succeeded "A" 2;
            Started "A" 3 0; Succeeded "A" 3]).
  reflexivity.
Defined.

Lemma exhausted_item_is_dropped_witness :
  let cb := mkCallback "onFailure" (Some "callback failed") in
  let ins := [Enqueue 1 "t1" "A" None (Some cb); Enqueue 2 "t2" "A" None None;
              Reject "A" "e1"; Timer "A"; Reject "A" "e2"; Timer "A"] in
  let it := mkItem 1 "t1" 2 None (Some cb) in
  let w := run (init default_options) ins in
  let w' := step w (Reject "A" "e3") in
  frame_get "A" (frames w) = Some (AwaitTask it) /\
  opt_retries default_options <= retries it /\
  _failed (this w') = _failed (this w) + 1 /\
  _processed (this w') = _processed (this w) /\
  items_of "A" (this w') = tl (items_of "A" (this w)) /\
  frame_get "A" (frames w') =
    Some (match items_of "A" (this w) with
          | next :: _ => AwaitTask next
          | [] => Returned
          end) /\
  trace w' = trace w ++ [Failed "A" (task it)]
    ++ match onFailure it with
       | Some cb => [Called (cb_name cb) (Some "e3")]
       | None => []
       end
    ++ match items_of "A" (this w) with
       | next :: _ => [Started "A" (task next) (retries next)]
       | [] => []
       end.
Proof.
  cbv zeta. split; [reflexivity|]. split; [vm_compute; discriminate|].
  apply (exhausted_item_is_dropped default_options
           [Enqueue 1 "t1" "A" None (Some (mkCallback "onFailure" (Some "callback failed")));
            Enqueue 2 "t2" "A" None None;
            Reject "A" "e1"; Timer "A"; Reject "A" "e2"; Timer "A"]
           "A" (mkItem 1 "t1" 2 None (Some (mkCallback "onFailure" (Some "callback failed"))))
           "e3").
  - reflexivity.
  - vm_compute; discriminate.
Defined.

Lemma enqueue_rejects_when_full_witness :
  let w := run (init (mkOptions 0 2 2 1000))
               [Enqueue 1 "t1" "A" None None; Enqueue 2 "t2" "B" None None] in
  let cb := mkCallback "onFailure" (Some "callback failed") in
  _maxSize (this w) <= _totalItems (this w) /\
  exists w',
    enqueue 3 "t3" "C" None (Some cb) w = (w', Normal false) /\
    this w' = this w /\
    frames w' = frames w /\
    trace w' = trace w ++ [Called "onFailure" (Some "Queue full - backpressure")].
Proof.
  cbv zeta. split; [vm_compute; discriminate|].
  apply (enqueue_rejects_when_full 3 "t3" "C" None
           (Some (mkCallback "onFailure" (Some "callback failed")))).
  vm_compute; discriminate.
Defined.

Lemma third_enqueue_counts_waiting_items_witness :
  let o := mkOptions 5 2 2 1000 in
  let w2 := run (init o) [Enqueue 1 "slow-1" "A" None None;
                          Enqueue 2 "slow-2" "B" None None] in
  let f3 := Some (mkCallback "onFailure" None) in
  let r := enqueue 3 "third" "C" None f3 w2 in
  maxSize o = 2 /\ "A" <> "B" /\
  _totalItems (this w2) = waiting (this w2) /\
  (concurrency o <= 0 ->
     waiting (this w2) = 2 /\ snd r = Normal false /\ this (fst r) = this w2 /\
     trace (fst r) = trace w2 ++
       match f3 with
       | Some cb => [Called (cb_name cb) (Some "Queue full - backpressure")]
       | None => []
       end) /\
  (1 <= concurrency o -> waiting (this w2) < 2 /\ snd r = Normal true) /\
  (2 <= concurrency o -> waiting (this w2) = 0).
Proof.
  cbv zeta. split; [reflexivity|]. split; [discriminate|].
  apply (third_enqueue_counts_waiting_items (mkOptions 5 2 2 1000)
           1%nat 2%nat 3%nat "slow-1" "slow-2" "third" "A" "B" "C"
           None None None None None (Some (mkCallback "onFailure" None))).
  - reflexivity.
  - discriminate.
Defined.

End QueueTheory.

(** ** Properties of the submission pipeline *)

Module AttendanceTheory.
Import Attendance.

Section Pipeline.

Variable getDistance : Q * Q -> Q * Q -> Z.
Variable defaultGeofenceRadius : Z.

Abbreviation validateLocation := (validateLocation getDistance defaultGeofenceRadius).
Abbreviation validateSubmission := (validateSubmission getDistance defaultGeofenceRadius).
Abbreviation submit := (submit getDistance defaultGeofenceRadius).
Abbreviation run := (run getDistance defaultGeofenceRadius).
Abbreviation accepted_store := (accepted_store getDistance defaultGeofenceRadius).
Abbreviation effective_radius := (effective_radius defaultGeofenceRadius).

(** *** Responses *)

Lemma isSessionValid_cases now sid st :
  match getSession sid (sessions st) with
  | None => isSessionValid now sid st = (Invalid "Session not found", st)
  | Some s =>
      if isActive s then
        if expiresAt s <? now
        then isSessionValid now sid st
             = (Invalid "Session has expired", deactivateSession now sid st)
        else isSessionValid now sid st = (Valid s, st)
      else isSessionValid now sid st = (Invalid "Session is no longer active", st)
  end.
Proof.
  unfold isSessionValid. destruct (getSession sid (sessions st)) as [s|]; auto.
  destruct (isActive s); simpl; auto. destruct (expiresAt s <? now); auto.
Qed.

(** C4, amended.  Every submission is answered with status 200 and
    [success: true].  When the session is missing, inactive or expired the
    response equals the response to a genuinely accepted submission.  When
    the session is valid and the (session, email) pair has already
    submitted, the response has the message 'Attendance already recorded',
    which differs from that of an accepted submission. *)
Theorem submit_response (req : request) (now : Z) (st : store) :
  let resp := fst (fst (submit req now st)) in
  let sid := req_sessionId req in
  statusCode resp = 200 /\ success resp = true /\
  (getSession sid (sessions st) = None -> resp = accepted) /\
  (forall s, getSession sid (sessions st) = Some s ->
     (isActive s = false -> resp = accepted) /\
     (expiresAt s < now -> resp = accepted) /\
     (isActive s = true -> now <= expiresAt s ->
        resp = if hasSessionAttendee sid (req_email req) st
               then already_recorded else accepted)) /\
  already_recorded <> accepted.
Proof.
  cbv zeta. unfold Attendance.submit.
  assert (C := isSessionValid_cases now (req_sessionId req) st).
  assert (D : already_recorded <> accepted) by discriminate.
  destruct (getSession (req_sessionId req) (sessions st)) as [s|] eqn:G.
  - destruct (isActive s) eqn:A; [destruct (expiresAt s <? now) eqn:E|];
      rewrite C; cbn [fst snd].
    + apply Z.ltb_lt in E.
      split; [reflexivity|]. split; [reflexivity|]. split; [reflexivity|].
      split; [|exact D]. intros s0 [= <-].
      split; [reflexivity|]. split; [reflexivity|]. intros; lia.
    + apply Z.ltb_ge in E. unfold hasStudentSubmitted.
      destruct (hasSessionAttendee (req_sessionId req) (req_email req) st) eqn:H.
      * cbn [fst snd].
        split; [reflexivity|]. split; [reflexivity|]. split; [discriminate|].
        split; [|exact D]. intros s0 [= <-].
        split; [congruence|]. split; [lia|]. reflexivity.
      * destruct (addAttendanceRecord _ _) as [rowid st2]. cbn [fst snd].
        split; [reflexivity|]. split; [reflexivity|]. split; [reflexivity|].
        split; [|exact D]. intros s0 [= <-].
        split; [reflexivity|]. split; reflexivity.
    + split; [reflexivity|]. split; [reflexivity|]. split; [reflexivity|].
      split; [|exact D]. intros s0 [= <-].
      split; [reflexivity|]. split; [reflexivity|]. congruence.
  - rewrite C. cbn [fst snd].
    split; [reflexivity|]. split; [reflexivity|]. split; [reflexivity|].
    split; [|exact D]. discriminate.
Qed.

(** *** Geofence *)

(** When both points have non-zero coordinates the check compares the
    distance with the radius of the session, or with the default radius when
    the session has none. *)
Lemma validateLocation_geofence (s c : location) (radius : option Z) :
  missing (Some s) = false -> missing (Some c) = false ->
  let d := getDistance (coords s) (coords c) in
  validateLocation (Some s) (Some c) radius =
  mkLocationResult (d <=? effective_radius radius) d
    (if effective_radius radius <? d then StudentAway d (effective_radius radius)
     else WithinGeofence).
Proof.
  intros Hs Hc. unfold Attendance.validateLocation. rewrite Hs, Hc. reflexivity.
Qed.

(** At the radius the student passes; one metre further a Location
    Violation is recorded. *)
Lemma geofence_boundary (p : validation_params) (st : store) (s c : location) (r : Z) :
  p_studentLocation p = Some s -> p_classroomLocation p = Some c ->
  p_geofenceRadius p = Some r -> r <> 0 -> 0 <= r ->
  missing (Some s) = false -> missing (Some c) = false ->
  (getDistance (coords s) (coords c) = r ->
   forall x, In x (v_violations (validateSubmission p st)) -> vtype x = DuplicateDevice) /\
  (getDistance (coords s) (coords c) = r + 1 ->
   In (mkViolation LocationViolation (StudentAway (r + 1) r) (r + 1))
      (v_violations (validateSubmission p st))).
Proof.
  intros Ps Pc Pr R0 Rp Hs Hc.
  assert (E : effective_radius (Some r) = r).
  { simpl. destruct (r =? 0) eqn:Z0; auto. apply Z.eqb_eq in Z0. contradiction. }
  unfold Attendance.validateSubmission. rewrite Ps, Pc, Pr.
  rewrite validateLocation_geofence by assumption. rewrite E.
  split; intros D; rewrite D; cbn [valid distance reason].
  - rewrite Z.leb_refl. cbn [negb andb].
    destruct (isDuplicate _); simpl; intros x Hx; [|contradiction].
    destruct Hx as [<-|[]]. reflexivity.
  - replace (r + 1 <=? r) with false by (symmetry; apply Z.leb_gt; lia).
    replace (0 <=? r + 1) with true by (symmetry; apply Z.leb_le; lia).
    replace (r <? r + 1) with true by (symmetry; apply Z.ltb_lt; lia).
    cbn [negb andb]. destruct (isDuplicate _); simpl; auto.
Qed.

(** A coordinate equal to 0 is falsy, so a student on the equator or on the
    Greenwich meridian is handled as if no coordinates had been supplied,
    whatever the distance: the check answers [valid: false, distance: -1]
    and no Location Violation is recorded. *)
Lemma zero_coordinate_not_checked (req : request) (s : session) (st : store) :
  (exists q, req_latitude req = Some q /\ req_longitude req = Some 0%Q) \/
  (exists q, req_latitude req = Some 0%Q /\ req_longitude req = Some q) ->
  let v := validateSubmission (params_of req s) st in
  locationResult v = mkLocationResult false (-1) NoLocationData /\
  forall x, In x (v_violations v) -> vtype x <> LocationViolation.
Proof.
  intros H.
  assert (L : student_location (req_latitude req) (req_longitude req) = None).
  { unfold student_location. destruct H as [(q & -> & ->)|(q & -> & ->)]; simpl.
    - now rewrite andb_false_r.
    - reflexivity. }
  cbv zeta. unfold Attendance.validateSubmission, params_of.
  cbn [p_studentLocation p_classroomLocation p_geofenceRadius p_sessionId
       p_ipAddress p_macAddress]. rewrite L.
  unfold Attendance.validateLocation. cbn [missing valid distance reason v_violations
                                             locationResult negb andb Z.leb Z.compare].
  split; [reflexivity|].
  destruct (isDuplicate _); simpl; intros x Hx; [|contradiction].
  destruct Hx as [<-|[]]. discriminate.
Qed.

(** C9.  When the request carries no coordinates, or the session has no
    classroom location, no Location Violation is recorded and the status is
    FLAGGED exactly when the duplicate-device check finds a match.  Without
    coordinates the distance is reported as [-1]; with coordinates and no
    classroom location the check answers [valid: true]. *)
Theorem geofence_skipped (req : request) (s : session) (st : store) (now : Z) :
  (req_latitude req = None \/ req_longitude req = None) \/ classroomLocation s = None ->
  let v := validateSubmission (params_of req s) st in
  let dup := checkDuplicateDevice (req_sessionId req) (req_ipAddress req)
                                  (mac_or_na (req_macAddress req)) st in
  (forall x, In x (v_violations v) -> vtype x = DuplicateDevice) /\
  (rstatus (record_of req now v) = FLAGGED <-> isDuplicate dup = true) /\
  (req_latitude req = None \/ req_longitude req = None ->
   locationResult v = mkLocationResult false (-1) NoLocationData) /\
  (classroomLocation s = None ->
   student_location (req_latitude req) (req_longitude req) <> None ->
   locationResult v = mkLocationResult true 0 NoClassroomLocation).
Proof.
  intros H. cbv zeta.
  assert (N : req_latitude req = None \/ req_longitude req = None ->
              student_location (req_latitude req) (req_longitude req) = None).
  { unfold student_location. intros [->| ->]; simpl; auto. now rewrite andb_false_r. }
  assert (M : forall l, missing (Some l) = false ->
              student_location (req_latitude req) (req_longitude req) = Some l ->
              classroomLocation s = None ->
              validateLocation (Some l) None (geofenceRadius s)
              = mkLocationResult true 0 NoClassroomLocation).
  { intros l Hl _ _. unfold Attendance.validateLocation. now rewrite Hl. }
  assert (T : forall l, student_location (req_latitude req) (req_longitude req) = Some l ->
              missing (Some l) = false).
  { unfold student_location. intros l.
    destruct (truthy_num (req_latitude req)) eqn:A;
      destruct (truthy_num (req_longitude req)) eqn:B; simpl; try discriminate.
    intros [= <-]. simpl. now rewrite A, B. }
  unfold Attendance.validateSubmission, params_of, record_of.
  cbn [p_studentLocation p_classroomLocation p_geofenceRadius p_sessionId
       p_ipAddress p_macAddress isValid v_violations locationResult rstatus].
  set (dup := checkDuplicateDevice _ _ _ _).
  assert (R : validateLocation (student_location (req_latitude req) (req_longitude req))
                               (classroomLocation s) (geofenceRadius s)
              = mkLocationResult false (-1) NoLocationData \/
              validateLocation (student_location (req_latitude req) (req_longitude req))
                               (classroomLocation s) (geofenceRadius s)
              = mkLocationResult true 0 NoClassroomLocation).
  { destruct H as [H|H].
    - left. now rewrite (N H).
    - rewrite H.
      destruct (student_location (req_latitude req) (req_longitude req)) as [l|] eqn:L.
      + right. apply M; auto.
      + now left. }
  split; [|split; [|split]].
  - destruct R as [-> | ->]; cbn [valid distance reason negb andb Z.leb Z.compare];
      destruct (isDuplicate dup); simpl; intros x; intuition (subst; auto).
  - destruct R as [-> | ->]; cbn [valid distance reason negb andb Z.leb Z.compare];
      destruct (isDuplicate dup); simpl; split; congruence.
  - intros H'. now rewrite (N H').
  - intros C L. rewrite C.
    destruct (student_location (req_latitude req) (req_longitude req)) as [l|] eqn:E;
      [|contradiction]. apply M; auto.
Qed.

(** *** Accepted submissions *)

Lemma getSession_map (f : session -> session) sid ss :
  (forall s, id (f s) = id s) ->
  getSession sid (map f ss) = option_map f (getSession sid ss).
Proof.
  intros Hf. induction ss as [|s ss IH]; simpl; auto.
  rewrite Hf. destruct (String.eqb (id s) sid); auto.
Qed.

Lemma getSession_id sid ss s :
  getSession sid ss = Some s -> String.eqb (id s) sid = true.
Proof.
  induction ss as [|x l IH]; simpl; [discriminate|].
  destruct (String.eqb (id x) sid) eqn:E; auto.
  intros [= <-]. exact E.
Qed.

Lemma submit_accepts req now st s :
  getSession (req_sessionId req) (sessions st) = Some s ->
  isActive s = true -> now <= expiresAt s ->
  hasSessionAttendee (req_sessionId req) (req_email req) st = false ->
  fst (fst (submit req now st)) = accepted /\
  snd (fst (submit req now st)) = accepted_store req now s st.
Proof.
  intros G A E H. unfold Attendance.submit.
  assert (C := isSessionValid_cases now (req_sessionId req) st).
  rewrite G, A in C.
  replace (expiresAt s <? now) with false in C by (symmetry; apply Z.ltb_ge; lia).
  rewrite C. unfold hasStudentSubmitted. rewrite H.
  unfold accepted_store.
  destruct (addAttendanceRecord _ st) as [rowid st2]. split; reflexivity.
Qed.

Lemma accepted_store_attendance req now s st :
  attendance (accepted_store req now s st) =
  attendance st ++
  [mkRecord (lastInsertRowid st + 1) (req_sessionId req) (req_studentName req)
            (req_email req) (or_null (req_ipAddress req))
            (or_null (mac_or_na (req_macAddress req)))
            (num_or_na (req_latitude req)) (num_or_na (req_longitude req)) now
            (if isValid (validateSubmission (params_of req s) st)
             then PRESENT else FLAGGED)
            (v_violations (validateSubmission (params_of req s) st)) false].
Proof. reflexivity. Qed.

Lemma accepted_store_attendees req now s st :
  hasSessionAttendee (req_sessionId req) (req_email req) st = false ->
  session_attendees (accepted_store req now s st) =
  session_attendees st ++ [(req_sessionId req, req_email req)].
Proof.
  intros H. unfold accepted_store, addAttendee, addSessionAttendee.
  cbn [session_attendees addAttendanceRecord snd].
  unfold hasSessionAttendee in *. cbn [session_attendees]. now rewrite H.
Qed.



(** *** Missing MAC addresses *)


(** *** One record per session and email *)

Lemma pair_eqb_eq a b : pair_eqb a b = true <-> a = b.
Proof.
  destruct a as [a1 a2], b as [b1 b2]. unfold pair_eqb. simpl.
  rewrite andb_true_iff, !String.eqb_eq. split; [intros [-> ->]; auto|].
  intros [= -> ->]. auto.
Qed.

Lemma hasSessionAttendee_In sid em st :
  hasSessionAttendee sid em st = true <-> In (sid, em) (session_attendees st).
Proof.
  unfold hasSessionAttendee. rewrite existsb_exists. split.
  - intros (x & I & E). apply pair_eqb_eq in E. now subst.
  - intros I. exists (sid, em). split; auto. now apply pair_eqb_eq.
Qed.

(** The five ways a submission can go. *)
Lemma submit_store_cases req now st :
  let sid := req_sessionId req in
  let st' := snd (fst (submit req now st)) in
  (getSession sid (sessions st) = None /\ st' = st) \/
  (exists s, getSession sid (sessions st) = Some s /\
     ((isActive s = false /\ st' = st) \/
      (isActive s = true /\ expiresAt s < now /\ st' = deactivateSession now sid st) \/
      (isActive s = true /\ now <= expiresAt s /\
       hasSessionAttendee sid (req_email req) st = true /\ st' = st) \/
      (isActive s = true /\ now <= expiresAt s /\
       hasSessionAttendee sid (req_email req) st = false /\
       st' = accepted_store req now s st))).
Proof.
  cbv zeta.
  assert (C := isSessionValid_cases now (req_sessionId req) st).
  destruct (getSession (req_sessionId req) (sessions st)) as [s|] eqn:G.
  - right. exists s. split; [reflexivity|].
    destruct (isActive s) eqn:A; [destruct (expiresAt s <? now) eqn:E|].
    + apply Z.ltb_lt in E. right; left.
      unfold Attendance.submit. rewrite C. auto.
    + apply Z.ltb_ge in E.
      destruct (hasSessionAttendee (req_sessionId req) (req_email req) st) eqn:H.
      * right; right; left. unfold Attendance.submit, hasStudentSubmitted.
        rewrite C, H. auto.
      * right; right; right.
        destruct (submit_accepts req now st s G A E H) as [_ ->]. auto.
    + left. unfold Attendance.submit. rewrite C. auto.
  - left. unfold Attendance.submit. rewrite C. auto.
Qed.

Lemma NoDup_snoc {A} (l : list A) x : NoDup l -> ~ In x l -> NoDup (l ++ [x]).
Proof.
  intros N I. induction l as [|y l IH]; simpl.
  - constructor; auto.
  - inversion N; subst. constructor.
    + rewrite in_app_iff. simpl. intros [H|[H|[]]]; [contradiction|].
      subst. apply I. now left.
    + apply IH; auto. intros H. apply I. now right.
Qed.

Lemma NoDup_map_filter {A B} (f : A -> B) (p : A -> bool) l :
  NoDup (map f l) -> NoDup (map f (filter p l)).
Proof.
  induction l as [|x l IH]; simpl; auto.
  intros N. inversion N; subst. destruct (p x); simpl; auto.
  constructor; auto.
  intros I. apply H1. rewrite in_map_iff in *.
  destruct I as (y & E & I). exists y. split; auto.
  apply filter_In in I. tauto.
Qed.

Lemma accepted_store_consistent req now s st :
  consistent st ->
  hasSessionAttendee (req_sessionId req) (req_email req) st = false ->
  consistent (accepted_store req now s st).
Proof.
  intros [R N] H. constructor.
  - intros r. rewrite accepted_store_attendance.
    rewrite hasSessionAttendee_In, accepted_store_attendees by assumption.
    rewrite !in_app_iff. simpl. intros [I|[<-|[]]].
    + left. apply hasSessionAttendee_In. now apply R.
    + right. now left.
  - rewrite accepted_store_attendance, map_app. simpl.
    apply NoDup_snoc; auto. unfold key_of at 2. simpl.
    intros I. apply in_map_iff in I. destruct I as (r & E & I).
    unfold key_of in E. inversion E as [[E1 E2]].
    apply R in I. rewrite E1, E2 in I. congruence.
Qed.

Lemma apply_consistent st op :
  consistent st -> consistent (Attendance.apply getDistance defaultGeofenceRadius st op).
Proof.
  intros C. destruct op as [req now|i|now|sid now]; simpl.
  - destruct (submit_store_cases req now st) as
      [[_ ->]|(s & _ & [[_ ->]|[(_ & _ & ->)|[(_ & _ & _ & ->)|(_ & _ & H & ->)]]])]; auto.
    + destruct C as [R N]. constructor; auto.
    + now apply accepted_store_consistent.
  - destruct C as [R N]. constructor; simpl.
    + intros r I. apply in_map_iff in I. destruct I as (r0 & <- & I).
      specialize (R r0 I). destruct (rid r0 =? i); exact R.
    + rewrite map_map. erewrite map_ext; [exact N|].
      intros r. destruct (rid r =? i); reflexivity.
  - destruct C as [R N]. constructor; simpl.
    + intros r I. apply filter_In in I. now apply R.
    + now apply NoDup_map_filter.
  - destruct C as [R N]. constructor; auto.
Qed.

Lemma run_consistent ops : forall st, consistent st -> consistent (run st ops).
Proof.
  induction ops as [|op ops IH]; intros st C; simpl; auto.
  apply IH. now apply apply_consistent.
Qed.

Lemma fresh_consistent ss : consistent (fresh ss).
Proof. constructor; simpl; [contradiction|constructor]. Qed.

Lemma filter_none {A} (f : A -> bool) l :
  (forall x, In x l -> f x = false) -> filter f l = [].
Proof.
  induction l as [|x l IH]; simpl; auto. intros H.
  rewrite (H x) by now left. apply IH. intros y I. apply H. now right.
Qed.

Lemma records_of_at_most_one sid em st :
  consistent st -> (List.length (records_of sid em st) <= 1)%nat.
Proof.
  intros [_ N]. unfold records_of.
  induction (attendance st) as [|r l IH]; simpl; auto.
  inversion N as [|? ? Hn Nl]; subst.
  destruct (pair_eqb (sid, em) (sessionId r, email r)) eqn:E; auto.
  simpl. apply pair_eqb_eq in E.
  rewrite filter_none; auto. intros x I.
  destruct (pair_eqb (sid, em) (sessionId x, email x)) eqn:E'; auto.
  apply pair_eqb_eq in E'. exfalso. apply Hn.
  apply in_map_iff. exists x. split; auto. unfold key_of. congruence.
Qed.

(** A submission of a pair that is already registered stores nothing: the
    attendance table and the row counter stay as they are, no mirror task
    is enqueued, and the answer is still a success. *)
Lemma submit_repeat req now st :
  hasSessionAttendee (req_sessionId req) (req_email req) st = true ->
  attendance (snd (fst (submit req now st))) = attendance st /\
  session_attendees (snd (fst (submit req now st))) = session_attendees st /\
  lastInsertRowid (snd (fst (submit req now st))) = lastInsertRowid st /\
  snd (submit req now st) = [] /\
  statusCode (fst (fst (submit req now st))) = 200 /\
  success (fst (fst (submit req now st))) = true.
Proof.
  intros H. unfold Attendance.submit.
  assert (C := isSessionValid_cases now (req_sessionId req) st).
  destruct (getSession (req_sessionId req) (sessions st)) as [s|];
    [|rewrite C; repeat split; reflexivity].
  destruct (isActive s); [|rewrite C; repeat split; reflexivity].
  destruct (expiresAt s <? now); rewrite C; [repeat split; reflexivity|].
  unfold hasStudentSubmitted. rewrite H. repeat split; reflexivity.
Qed.

(** C5.  However submissions, sync marks, cleanups and deactivations follow
    one another on a server that starts without records, the attendance
    table never holds two records of the same session and email; and a
    second submission of a request leaves the attendance table and the
    attendee table as the first one left them.  When the first of the two
    submissions is accepted (valid session, pair not registered yet), it
    appends one record, which carries the submitted session, email, name
    and time and a new row id; the pair had no record before, has exactly
    that record afterwards, and still has exactly that record after the
    second submission, which inserts no row, enqueues no mirror task and is
    answered with a success as well. *)
Theorem one_record_per_session_and_email (ss : list session) (ops : list operation)
        (sid em : string) (req : request) (now1 now2 : Z) :
  let st := run (fresh ss) ops in
  let st1 := snd (fst (submit req now1 st)) in
  let st2 := snd (fst (submit req now2 st1)) in
  (List.length (records_of sid em st) <= 1)%nat /\
  (List.length (records_of (req_sessionId req) (req_email req) st2) <= 1)%nat /\
  attendance st2 = attendance st1 /\
  session_attendees st2 = session_attendees st1 /\
  (forall s, getSession (req_sessionId req) (sessions st) = Some s ->
     isActive s = true -> now1 <= expiresAt s ->
     hasSessionAttendee (req_sessionId req) (req_email req) st = false ->
     exists r,
       attendance st1 = attendance st ++ [r] /\
       sessionId r = req_sessionId req /\ email r = req_email req /\
       studentName r = req_studentName req /\ timestamp r = now1 /\
       rid r = lastInsertRowid st + 1 /\
       records_of (req_sessionId req) (req_email req) st = [] /\
       records_of (req_sessionId req) (req_email req) st1 = [r] /\
       records_of (req_sessionId req) (req_email req) st2 = [r] /\
       hasSessionAttendee (req_sessionId req) (req_email req) st1 = true /\
       lastInsertRowid st2 = lastInsertRowid st1 /\
       snd (submit req now2 st1) = [] /\
       fst (fst (submit req now1 st)) = accepted /\
       statusCode (fst (fst (submit req now2 st1))) = 200 /\
       success (fst (fst (submit req now2 st1))) = true).
Proof.
  intros st st1 st2.
  assert (C : consistent st) by apply run_consistent, fresh_consistent.
  assert (C1 : consistent st1) by apply (apply_consistent st (Submit req now1) C).
  assert (C2 : consistent st2) by apply (apply_consistent st1 (Submit req now2) C1).
  assert (Same : attendance st2 = attendance st1 /\
                 session_attendees st2 = session_attendees st1).
  { destruct (submit_store_cases req now2 st1) as
      [[G2 E]|(s2 & G2 & [[A2 E]|[(A2 & _ & E)|[(A2 & _ & H2 & E)|(A2 & _ & H2 & E)]]])];
      fold st2 in E; try (rewrite E; split; reflexivity).
    clear E.
    exfalso.
    destruct (submit_store_cases req now1 st) as
      [[G1 E]|(s1 & G1 & [[A1 E]|[(A1 & _ & E)|[(_ & _ & H1 & E)|(_ & _ & H1 & E)]]])];
      fold st1 in E.
    - rewrite E in G2. congruence.
    - rewrite E in G2. congruence.
    - rewrite E in G2. unfold deactivateSession in G2. cbn [sessions] in G2.
      rewrite getSession_map in G2.
      + rewrite G1 in G2. simpl in G2. rewrite (getSession_id _ _ _ G1) in G2.
        inversion G2; subst. simpl in A2. congruence.
      + intros x. destruct (String.eqb (id x) (req_sessionId req)); reflexivity.
    - rewrite E in H2. congruence.
    - apply Bool.not_true_iff_false in H2. apply H2.
      apply hasSessionAttendee_In. rewrite E, accepted_store_attendees by assumption.
      apply in_or_app. right. now left. }
  split; [now apply records_of_at_most_one|].
  split; [now apply records_of_at_most_one|].
  split; [apply Same|]. split; [apply Same|].
  intros s G A E H.
  destruct (submit_accepts req now1 st s G A E H) as [Resp St1]. fold st1 in St1.
  assert (At1 := accepted_store_attendance req now1 s st). rewrite <- St1 in At1.
  assert (H1 : hasSessionAttendee (req_sessionId req) (req_email req) st1 = true).
  { apply hasSessionAttendee_In. rewrite St1, accepted_store_attendees by assumption.
    apply in_or_app. right. now left. }
  assert (R0 : records_of (req_sessionId req) (req_email req) st = []).
  { unfold records_of. apply filter_none. intros x I.
    destruct (pair_eqb (req_sessionId req, req_email req) (sessionId x, email x)) eqn:P;
      auto.
    apply pair_eqb_eq in P. inversion P as [[P1 P2]].
    assert (Hx := recorded_attended st C x I). rewrite <- P1, <- P2 in Hx. congruence. }
  assert (R1 : records_of (req_sessionId req) (req_email req) st1 =
               [mkRecord (lastInsertRowid st + 1) (req_sessionId req) (req_studentName req)
                  (req_email req) (or_null (req_ipAddress req))
                  (or_null (mac_or_na (req_macAddress req)))
                  (num_or_na (req_latitude req)) (num_or_na (req_longitude req)) now1
                  (if isValid (validateSubmission (params_of req s) st)
                   then PRESENT else FLAGGED)
                  (v_violations (validateSubmission (params_of req s) st)) false]).
  { unfold records_of in *. rewrite At1, filter_app, R0. cbn [filter sessionId email app].
    replace (pair_eqb (req_sessionId req, req_email req)
                      (req_sessionId req, req_email req)) with true; [reflexivity|].
    symmetry. now apply pair_eqb_eq. }
  destruct (submit_repeat req now2 st1 H1) as (_ & _ & L2 & T2 & S2 & Q2).
  eexists. split; [exact At1|]. cbn [sessionId email studentName timestamp rid].
  repeat (split; [reflexivity|]).
  split; [exact R0|]. split; [exact R1|].
  split; [unfold records_of in *; fold st2; destruct Same as [-> _]; exact R1|].
  split; [exact H1|]. split; [exact L2|]. split; [exact T2|].
  split; [exact Resp|]. split; [exact S2|exact Q2].
Qed.

End Pipeline.

(** C8, at a failing input.  The classroom is in Algiers with a radius of
    100 m; the student reports latitude 0, more than 4000 km away.  The
    check answers "no location data", no violation is recorded and the
    record is stored as PRESENT. *)
Theorem zero_latitude_is_marked_present :
  let req := mkRequest "s1" "Amel" "amel@univ.dz" (Some "AA:BB:CC:00:00:01")
                       (Some 0%Q) (Some (3042 # 1000)) (Some "10.0.0.7") in
  let student := mkLocation (req_latitude req) (req_longitude req) in
  let st := snd (fst (submit meridian_distance 100 req 1000 (fresh [lecture]))) in
  100 < meridian_distance (coords student) (coords room) /\
  validateLocation meridian_distance 100
    (student_location (req_latitude req) (req_longitude req)) (Some room) (Some 100)
    = mkLocationResult false (-1) NoLocationData /\
  map rstatus (attendance st) = [PRESENT] /\
  map violations (attendance st) = [[]].
Proof.
  vm_compute. repeat split; reflexivity.
Qed.

Lemma one_record_per_session_and_email_witness :
  let req := mkRequest "s1" "Amel" "amel@univ.dz" (Some "AA:BB:CC:00:00:01")
                       None None (Some "10.0.0.7") in
  let other := mkRequest "s1" "Badis" "badis@univ.dz" (Some "AA:BB:CC:00:00:02")
                         None None (Some "10.0.9.9") in
  let st := run meridian_distance 100 (fresh [lecture]) [Submit other 500] in
  let st1 := snd (fst (submit meridian_distance 100 req 1000 st)) in
  let st2 := snd (fst (submit meridian_distance 100 req 2000 st1)) in
  (getSession (req_sessionId req) (sessions st) = Some (with_attendeeCount 1 lecture) /\
   isActive (with_attendeeCount 1 lecture) = true /\
   1000 <= expiresAt (with_attendeeCount 1 lecture) /\
   hasSessionAttendee (req_sessionId req) (req_email req) st = false) /\
  exists r,
    attendance st1 = attendance st ++ [r] /\
    sessionId r = "s1" /\ email r = "amel@univ.dz" /\
    studentName r = "Amel" /\ timestamp r = 1000 /\
    rid r = lastInsertRowid st + 1 /\
    records_of "s1" "amel@univ.dz" st = [] /\
    records_of "s1" "amel@univ.dz" st1 = [r] /\
    records_of "s1" "amel@univ.dz" st2 = [r] /\
    hasSessionAttendee "s1" "amel@univ.dz" st1 = true /\
    lastInsertRowid st2 = lastInsertRowid st1 /\
    snd (submit meridian_distance 100 req 2000 st1) = [] /\
    fst (fst (submit meridian_distance 100 req 1000 st)) = accepted /\
    statusCode (fst (fst (submit meridian_distance 100 req 2000 st1))) = 200 /\
    success (fst (fst (submit meridian_distance 100 req 2000 st1))) = true.
Proof.
  cbv zeta. split.
  - repeat split; try reflexivity. vm_compute. discriminate.
  - destruct (one_record_per_session_and_email meridian_distance 100 [lecture]
             [Submit (mkRequest "s1" "Badis" "badis@univ.dz" (Some "AA:BB:CC:00:00:02")
                                None None (Some "10.0.9.9")) 500]
             "s1" "amel@univ.dz"
             (mkRequest "s1" "Amel" "amel@univ.dz" (Some "AA:BB:CC:00:00:01")
                        None None (Some "10.0.0.7")) 1000 2000)
      as (_ & _ & _ & _ & H).
    apply (H (with_attendeeCount 1 lecture)); try reflexivity.
    vm_compute. discriminate.
Defined.

Lemma geofence_skipped_witness :
  let req := mkRequest "s1" "Amel" "amel@univ.dz" None None None (Some "10.0.0.7") in
  let st := fresh [lecture] in
  let v := validateSubmission meridian_distance 100 (params_of req lecture) st in
  let dup := checkDuplicateDevice (req_sessionId req) (req_ipAddress req)
                                  (mac_or_na (req_macAddress req)) st in
  ((req_latitude req = None \/ req_longitude req = None)
   \/ classroomLocation lecture = None) /\
  (forall x, In x (v_violations v) -> vtype x = DuplicateDevice) /\
  (rstatus (record_of req 1000 v) = FLAGGED <-> isDuplicate dup = true) /\
  (req_latitude req = None \/ req_longitude req = None ->
   locationResult v = mkLocationResult false (-1) NoLocationData) /\
  (classroomLocation lecture = None ->
   student_location (req_latitude req) (req_longitude req) <> None ->
   locationResult v = mkLocationResult true 0 NoClassroomLocation).
Proof.
  cbv zeta. split; [left; left; reflexivity|].
  apply (geofence_skipped meridian_distance 100
           (mkRequest "s1" "Amel" "amel@univ.dz" None None None (Some "10.0.0.7"))
           lecture (fresh [lecture]) 1000).
  left; left; reflexivity.
Defined.


(** C4 as stated does not hold: the same payload submitted twice to a valid
    session gets 'Attendance submitted successfully' the first time and
    'Attendance already recorded' the second time. *)
Lemma duplicate_response_differs :
  let req := mkRequest "s1" "Amel" "amel@univ.dz" None None None (Some "10.0.0.7") in
  let first := submit meridian_distance 100 req 1000 (fresh [lecture]) in
  let second := submit meridian_distance 100 req 2000 (snd (fst first)) in
  fst (fst first) = mkResponse 200 true "Attendance submitted successfully" /\
  fst (fst second) = mkResponse 200 true "Attendance already recorded" /\
  fst (fst second) <> fst (fst first).
Proof.
  vm_compute. repeat split; try reflexivity. discriminate.
Qed.

End AttendanceTheory.

(** ** Scheduling and accounting of the keyed concurrent queue *)

Module QueueScheduling.
Import KeyedConcurrentQueue QueueTheory.

(** *** Sets and frames *)

Lemma set_has_In k s : set_has k s = true <-> In k s.
Proof.
  unfold set_has. rewrite existsb_exists. split.
  - intros (x & I & E). apply String.eqb_eq in E. now subst.
  - intros I. exists k. split; auto. apply String.eqb_refl.
Qed.

Lemma set_has_add_other k k' s : k' <> k -> set_has k' (set_add k s) = set_has k' s.
Proof.
  intros N. unfold set_add. destruct (set_has k s); auto.
  unfold set_has. rewrite existsb_app. simpl.
  replace (String.eqb k' k) with false by (symmetry; now apply String.eqb_neq).
  now rewrite !orb_false_r.
Qed.

Lemma set_size_add k s : set_has k s = false -> set_size (set_add k s) = set_size s + 1.
Proof.
  intros H. unfold set_add, set_size. rewrite H, length_app. simpl. lia.
Qed.

Lemma set_add_nodup k s : NoDup s -> NoDup (set_add k s).
Proof.
  intros N. unfold set_add. destruct (set_has k s) eqn:H; auto.
  apply NoDup_app; auto.
  - repeat constructor. simpl. tauto.
  - intros x Hx [<-|[]]. apply set_has_In in Hx. congruence.
Qed.

Lemma set_has_delete_same k s : set_has k (set_delete k s) = false.
Proof.
  unfold set_has, set_delete. induction s as [|x s IH]; simpl; auto.
  destruct (String.eqb k x) eqn:E; simpl; auto. now rewrite E.
Qed.

Lemma set_size_delete k s : set_size (set_delete k s) <= set_size s.
Proof.
  unfold set_size, set_delete. apply inj_le. apply filter_length_le.
Qed.

(** *** What the lane loop touches *)

Lemma loop_cases k w :
  (exists it rest,
     lane_get k (_lanes (this w)) = Some (it :: rest) /\
     loop k w =
     mkWorld (with_totalItems (_totalItems (this w) - 1)
                (with_lanes (lane_put k rest (_lanes (this w))) (this w)))
             (frame_set k (AwaitTask it) (frames w))
             (trace w ++ [Started k (task it) (retries it)])) \/
  (items_of k (this w) = [] /\
   loop k w = mkWorld (this w) (frame_set k Returned (frames w)) (trace w)).
Proof.
  unfold loop, items_of.
  destruct (lane_get k (_lanes (this w))) as [[|it rest]|]; [right|left|right];
    eauto; split; auto; destruct w; reflexivity.
Qed.

Lemma loop_activeLanes k w : _activeLanes (this (loop k w)) = _activeLanes (this w).
Proof. destruct (loop_cases k w) as [(it & rest & _ & ->)|[_ ->]]; reflexivity. Qed.

Lemma loop_concurrency k w : _concurrency (this (loop k w)) = _concurrency (this w).
Proof. destruct (loop_cases k w) as [(it & rest & _ & ->)|[_ ->]]; reflexivity. Qed.

Lemma loop_maxSize k w : _maxSize (this (loop k w)) = _maxSize (this w).
Proof. destruct (loop_cases k w) as [(it & rest & _ & ->)|[_ ->]]; reflexivity. Qed.

Lemma loop_items_other k k' w :
  k' <> k -> items_of k' (this (loop k w)) = items_of k' (this w).
Proof.
  intros N. destruct (loop_cases k w) as [(it & rest & _ & ->)|[_ ->]]; auto.
  unfold items_of. qs. now rewrite lane_get_put_other.
Qed.

Lemma loop_lane_has k k' w :
  lane_has k' (_lanes (this (loop k w))) = lane_has k' (_lanes (this w)).
Proof.
  destruct (loop_cases k w) as [(it & rest & _ & ->)|[_ ->]]; auto.
  qs. apply lane_has_put.
Qed.

Lemma loop_frames k w :
  frame_get k (frames (loop k w)) <> None /\
  forall k', k' <> k -> frame_get k' (frames (loop k w)) = frame_get k' (frames w).
Proof.
  destruct (loop_cases k w) as [(it & rest & _ & ->)|[_ ->]]; qs;
    (split; [rewrite frame_get_set_same; discriminate
            |intros k' N; now apply frame_get_set_other]).
Qed.

Lemma loop_totalItems k w : _totalItems (this (loop k w)) <= _totalItems (this w).
Proof.
  destruct (loop_cases k w) as [(it & rest & _ & ->)|[_ ->]]; qs; lia.
Qed.

(** *** The active set *)

Lemma loop_sched k w : sched_pre k w -> sched_inv (loop k w).
Proof.
  intros [A F N B I]. destruct (loop_frames k w) as [Fk Fo].
  constructor; rewrite ?loop_activeLanes, ?loop_concurrency; auto.
  - intros k0 H. destruct (string_dec k0 k) as [->|D]; auto.
    rewrite Fo by assumption. auto.
  - intros k0. rewrite loop_lane_has. intros L H.
    destruct (string_dec k0 k) as [->|D]; [congruence|].
    rewrite loop_items_other by assumption. auto.
Qed.

Lemma sched_inv_pre k w :
  sched_inv w -> set_has k (_activeLanes (this w)) = true -> sched_pre k w.
Proof. intros [F N B I] A. constructor; auto. Qed.

Lemma sched_pre_ext k w w' :
  sched_pre k w ->
  _lanes (this w') = _lanes (this w) ->
  _activeLanes (this w') = _activeLanes (this w) ->
  _concurrency (this w') = _concurrency (this w) ->
  (forall k', k' <> k -> frame_get k' (frames w') = frame_get k' (frames w)) ->
  sched_pre k w'.
Proof.
  intros [A F N B I] E1 E2 E3 E4.
  constructor; unfold items_of in *; rewrite ?E1, ?E2, ?E3; auto.
  intros k' D H. rewrite E4 by assumption. auto.
Qed.

Lemma sched_inv_ext w w' :
  sched_inv w ->
  _lanes (this w') = _lanes (this w) ->
  _activeLanes (this w') = _activeLanes (this w) ->
  _concurrency (this w') = _concurrency (this w) ->
  (forall k, frame_get k (frames w) <> None -> frame_get k (frames w') <> None) ->
  sched_inv w'.
Proof.
  intros [F N B I] E1 E2 E3 E4.
  constructor; unfold items_of in *; rewrite ?E1, ?E2, ?E3; auto.
Qed.

Lemma drain_from_sched ks : forall w, sched_inv w -> sched_inv (drain_from ks w).
Proof.
  induction ks as [|k ks IH]; intros w S; simpl; auto.
  destruct (set_size (_activeLanes (this w)) >=? _concurrency (this w)) eqn:C; auto.
  destruct (set_has k (_activeLanes (this w))) eqn:A; simpl; auto.
  destruct (lane_is_empty k (_lanes (this w))) eqn:E; auto.
  apply IH. unfold _processLane. apply loop_sched.
  destruct S as [F N B I].
  assert (Lt : set_size (_activeLanes (this w)) < _concurrency (this w)).
  { rewrite Z.geb_leb in C. apply Z.leb_gt in C. lia. }
  constructor; qs.
  - apply set_has_add_same.
  - intros k' D H. rewrite set_has_add_other in H by assumption. auto.
  - now apply set_add_nodup.
  - rewrite set_size_add by assumption. lia.
  - intros k' L H. destruct (string_dec k' k) as [->|D].
    + now rewrite set_has_add_same in H.
    + rewrite set_has_add_other in H by assumption. now apply I.
Qed.

Lemma try_invoke_frames cb arg w : frames (fst (try_invoke cb arg w)) = frames w.
Proof.
  destruct cb as [c|]; simpl; auto. destruct (cb_throws c); reflexivity.
Qed.

Lemma step_sched o w i : lane_inv o w -> sched_inv w -> sched_inv (step w i).
Proof.
  intros L S. destruct i as [t lbl k onS onF|k|k err|k|k]; simpl.
  - (* enqueue *)
    unfold enqueue. destruct (_totalItems (this w) >=? _maxSize (this w)).
    + assert (E := try_invoke_this onF (Some queue_full) w).
      assert (E' := try_invoke_frames onF (Some queue_full) w).
      destruct (try_invoke onF (Some queue_full) w) as [w' [u|e]]; simpl in *;
        apply sched_inv_ext with (w := w); auto; try (now rewrite E);
        intros k0; now rewrite E'.
    + cbn [fst]. apply drain_from_sched. destruct S as [F N B I].
      unfold lane_set.
      destruct (lane_has k (_lanes (this w))) eqn:H;
        [assert (G : exists items, lane_get k (_lanes (this w)) = Some items)
           by (unfold lane_has in H; destruct (lane_get k (_lanes (this w))); eauto;
               discriminate);
         destruct G as [items G]
        |assert (G : lane_get k (_lanes (this w)) = None)
           by (unfold lane_has in H; destruct (lane_get k (_lanes (this w))); auto;
               discriminate)]; qs.
      * rewrite G. constructor; qs; auto.
        intros k0. rewrite lane_has_put. unfold items_of. qs.
        destruct (string_dec k0 k) as [->|D].
        -- rewrite lane_get_put_same by (unfold lane_has; now rewrite G).
           intros _ _. destruct items; discriminate.
        -- rewrite lane_get_put_other by assumption. apply I.
      * assert (G' : lane_get k (_lanes (this w) ++ [(k, [])]) = Some []).
        { rewrite lane_get_app, G. now rewrite String.eqb_refl. }
        rewrite G'. constructor; qs; auto.
        intros k0. rewrite lane_has_put. unfold items_of. qs.
        destruct (string_dec k0 k) as [->|D].
        -- rewrite lane_get_put_same by (unfold lane_has; now rewrite G').
           intros _ _. discriminate.
        -- rewrite lane_get_put_other by assumption.
           unfold lane_has. rewrite lane_get_app.
           replace (String.eqb k k0) with false by (symmetry; now apply eqb_neq_sym).
           specialize (I k0). unfold items_of, lane_has in I.
           destruct (lane_get k0 (_lanes (this w))); auto.
  - destruct (frame_get k (frames w)) as [[it|it ms|]|] eqn:Fk; auto.
    unfold task_resolved. apply loop_sched.
    apply sched_pre_ext with (w := w); try (now rewrite try_invoke_this).
    + apply sched_inv_pre; auto. apply (inv_actives o w L). rewrite Fk. discriminate.
    + intros k' _. now rewrite try_invoke_frames.
  - destruct (frame_get k (frames w)) as [[it|it ms|]|] eqn:Fk; auto.
    assert (A : set_has k (_activeLanes (this w)) = true).
    { apply (inv_actives o w L). rewrite Fk. discriminate. }
    unfold task_rejected. destruct (retries it <? _maxRetries (this w)).
    + apply sched_inv_ext with (w := w); auto. qs.
      intros k0 H. destruct (string_dec k0 k) as [->|D].
      * rewrite frame_get_set_same. discriminate.
      * now rewrite frame_get_set_other.
    + apply loop_sched.
      apply sched_pre_ext with (w := w); try (now rewrite try_invoke_this).
      * now apply sched_inv_pre.
      * intros k' _. now rewrite try_invoke_frames.
  - destruct (frame_get k (frames w)) as [[it|it ms|]|] eqn:Fk; auto.
    assert (A : set_has k (_activeLanes (this w)) = true).
    { apply (inv_actives o w L). rewrite Fk. discriminate. }
    unfold timer_fired. apply loop_sched.
    destruct S as [F N B I]. constructor; qs; auto.
    intros k0. rewrite lane_has_put. unfold items_of. qs. intros H1 H2.
    destruct (string_dec k0 k) as [->|D]; [congruence|].
    rewrite lane_get_put_other by assumption. now apply I.
  - destruct (frame_get k (frames w)) as [[it|it ms|]|] eqn:Fk; auto.
    unfold lane_finally. apply drain_from_sched. qs.
    destruct S as [F N B I].
    assert (Fr : forall k0, set_has k0 (set_delete k (_activeLanes (this w))) = true ->
                 k0 <> k /\ set_has k0 (_activeLanes (this w)) = true).
    { intros k0 H. destruct (string_dec k0 k) as [->|D].
      - now rewrite set_has_delete_same in H.
      - rewrite set_has_delete_other in H by assumption. auto. }
    assert (Hd : NoDup (set_delete k (_activeLanes (this w)))).
    { unfold set_delete. now apply NoDup_filter. }
    assert (Hb := set_size_delete k (_activeLanes (this w))).
    destruct (lane_get k (_lanes (this w))) as [[|it rest]|] eqn:G;
      constructor; qs; auto; try lia;
      try (intros k0 H; destruct (Fr k0 H) as [D H'];
           rewrite frame_get_remove_other by assumption; now apply F).
    + intros k0. unfold lane_has, items_of. qs.
      destruct (string_dec k0 k) as [->|D].
      * now rewrite lane_get_delete_same.
      * rewrite lane_get_delete_other, set_has_delete_other by assumption.
        apply I.
    + intros k0 H1 H2. destruct (string_dec k0 k) as [->|D].
      * unfold items_of. qs. rewrite G. discriminate.
      * rewrite set_has_delete_other in H2 by assumption.
        specialize (I k0 H1 H2). unfold items_of in *. qs. exact I.
    + intros k0 H1 H2. destruct (string_dec k0 k) as [->|D].
      * unfold lane_has in H1. now rewrite G in H1.
      * rewrite set_has_delete_other in H2 by assumption.
        specialize (I k0 H1 H2). unfold items_of in *. qs. exact I.
Qed.

Lemma init_sched o : sched_inv (init o).
Proof.
  constructor; simpl; try discriminate.
  - constructor.
  - unfold set_size. simpl. lia.
Qed.

Lemma drain_from_config ks : forall w,
  _concurrency (this (drain_from ks w)) = _concurrency (this w) /\
  _maxSize (this (drain_from ks w)) = _maxSize (this w).
Proof.
  induction ks as [|k ks IH]; intros w; simpl; auto.
  destruct (set_size (_activeLanes (this w)) >=? _concurrency (this w)); auto.
  destruct (set_has k (_activeLanes (this w)) || lane_is_empty k (_lanes (this w))); auto.
  destruct (IH (_processLane k (on_queue (with_activeLanes
                  (set_add k (_activeLanes (this w)))) w))) as [-> ->].
  unfold _processLane. now rewrite loop_concurrency, loop_maxSize.
Qed.

(** The settings given to the constructor are never changed. *)
Lemma step_config w i :
  _concurrency (this (step w i)) = _concurrency (this w) /\
  _maxSize (this (step w i)) = _maxSize (this w).
Proof.
  destruct i as [t lbl k onS onF|k|k err|k|k]; simpl.
  - unfold enqueue. destruct (_totalItems (this w) >=? _maxSize (this w)).
    + assert (E := try_invoke_this onF (Some queue_full) w).
      destruct (try_invoke onF (Some queue_full) w) as [w' [u|e]]; simpl in *;
        now rewrite E.
    + cbn [fst]. unfold _drain.
      match goal with |- context [drain_from ?ks ?x] =>
        destruct (drain_from_config ks x) as [-> ->] end.
      destruct (lane_has k (_lanes (this w))); auto.
  - destruct (frame_get k (frames w)) as [[it|it ms|]|]; auto.
    unfold task_resolved. rewrite loop_concurrency, loop_maxSize, try_invoke_this. auto.
  - destruct (frame_get k (frames w)) as [[it|it ms|]|]; auto.
    unfold task_rejected. destruct (retries it <? _maxRetries (this w)); auto.
    rewrite loop_concurrency, loop_maxSize, try_invoke_this. auto.
  - destruct (frame_get k (frames w)) as [[it|it ms|]|]; auto.
    unfold timer_fired. rewrite loop_concurrency, loop_maxSize. auto.
  - destruct (frame_get k (frames w)) as [[it|it ms|]|]; auto.
    unfold lane_finally, _drain.
    match goal with |- context [drain_from ?ks ?x] =>
      destruct (drain_from_config ks x) as [-> ->] end.
    qs. destruct (lane_get k (_lanes (this w))) as [[|]|]; auto.
Qed.

Lemma run_config o ins :
  _concurrency (this (run (init o) ins)) = concurrency o /\
  _maxSize (this (run (init o) ins)) = maxSize o.
Proof.
  assert (H : forall w, _concurrency (this (run w ins)) = _concurrency (this w) /\
                        _maxSize (this (run w ins)) = _maxSize (this w)).
  { induction ins as [|i ins IH]; intros w; simpl; auto.
    destruct (IH (step w i)) as [-> ->]. apply step_config. }
  apply (H (init o)).
Qed.

Lemma reachable_sched o ins : sched_inv (run (init o) ins).
Proof.
  assert (H : forall w, lane_inv o w -> sched_inv w ->
                        lane_inv o (run w ins) /\ sched_inv (run w ins)).
  { induction ins as [|i ins IH]; intros w L S; simpl; auto.
    apply IH; [now apply step_inv | now apply step_sched with (o := o)]. }
  apply H; [apply init_inv | apply init_sched].
Qed.

(** *** Free slots are used *)

Lemma drain_from_busy ks : forall w k,
  items_of k (this (drain_from ks w)) <> [] ->
  set_has k (_activeLanes (this (drain_from ks w))) = false ->
  _concurrency (this (drain_from ks w)) <= set_size (_activeLanes (this (drain_from ks w)))
  \/ (~ In k ks /\ items_of k (this w) <> [] /\
      set_has k (_activeLanes (this w)) = false).
Proof.
  induction ks as [|k0 ks IH]; intros w k; simpl.
  - auto.
  - destruct (set_size (_activeLanes (this w)) >=? _concurrency (this w)) eqn:C.
    + intros _ _. left. apply Z.geb_le in C. lia.
    + destruct (set_has k0 (_activeLanes (this w))) eqn:A; simpl.
      * intros H1 H2. destruct (IH w k H1 H2) as [H|(H & H3 & H4)]; auto.
        right. split; auto. intros [->|I]; [congruence|contradiction].
      * destruct (lane_is_empty k0 (_lanes (this w))) eqn:E.
        -- intros H1 H2. destruct (IH w k H1 H2) as [H|(H & H3 & H4)]; auto.
           right. split; auto. intros [->|I]; [|contradiction].
           apply H3. unfold lane_is_empty in E. unfold items_of.
           destruct (lane_get k (_lanes (this w))) as [[|]|]; auto; discriminate.
        -- intros H1 H2.
           destruct (IH _ k H1 H2) as [H|(H & H3 & H4)]; auto.
           right. unfold _processLane in H3, H4.
           rewrite loop_activeLanes in H4. qs.
           assert (D : k <> k0).
           { intros ->. now rewrite set_has_add_same in H4. }
           rewrite set_has_add_other in H4 by assumption.
           rewrite loop_items_other in H3 by assumption.
           split; [intros [->|I]; [congruence|contradiction]|]. auto.
Qed.

Lemma _drain_busy w : busy (_drain w).
Proof.
  intros k H1 H2. unfold _drain in *.
  destruct (drain_from_busy _ w k H1 H2) as [H|(H & H3 & _)]; auto.
  exfalso. apply H3. unfold items_of. now rewrite lane_get_absent.
Qed.

Lemma loop_busy k w w0 :
  busy w0 ->
  set_has k (_activeLanes (this w0)) = true ->
  _activeLanes (this w) = _activeLanes (this w0) ->
  _concurrency (this w) = _concurrency (this w0) ->
  (forall k', k' <> k -> items_of k' (this w) = items_of k' (this w0)) ->
  busy (loop k w).
Proof.
  intros B A E1 E2 E3 k0. rewrite loop_activeLanes, loop_concurrency, E1, E2.
  intros H1 H2. assert (D : k0 <> k) by (intros ->; congruence).
  rewrite loop_items_other, E3 in H1 by assumption. exact (B k0 H1 H2).
Qed.

Lemma step_busy o w i : lane_inv o w -> busy w -> busy (step w i).
Proof.
  intros L B. destruct i as [t lbl k onS onF|k|k err|k|k]; simpl.
  - unfold enqueue. destruct (_totalItems (this w) >=? _maxSize (this w)).
    + assert (E := try_invoke_this onF (Some queue_full) w).
      destruct (try_invoke onF (Some queue_full) w) as [w' [u|e]]; simpl in *;
        intros k0; rewrite E; apply B.
    + cbn [fst]. apply _drain_busy.
  - destruct (frame_get k (frames w)) as [[it|it ms|]|] eqn:Fk; auto.
    unfold task_resolved. apply loop_busy with (w0 := w); auto;
      try (now rewrite try_invoke_this).
    apply (inv_actives o w L). rewrite Fk. discriminate.
  - destruct (frame_get k (frames w)) as [[it|it ms|]|] eqn:Fk; auto.
    unfold task_rejected. destruct (retries it <? _maxRetries (this w)).
    + exact B.
    + apply loop_busy with (w0 := w); auto; try (now rewrite try_invoke_this).
      apply (inv_actives o w L). rewrite Fk. discriminate.
  - destruct (frame_get k (frames w)) as [[it|it ms|]|] eqn:Fk; auto.
    unfold timer_fired. apply loop_busy with (w0 := w); auto.
    + apply (inv_actives o w L). rewrite Fk. discriminate.
    + intros k' D. unfold items_of. qs. now rewrite lane_get_put_other.
  - destruct (frame_get k (frames w)) as [[it|it ms|]|] eqn:Fk; auto.
    unfold lane_finally. apply _drain_busy.
Qed.

Lemma reachable_busy o ins : busy (run (init o) ins).
Proof.
  assert (H : forall w, lane_inv o w -> busy w ->
                        lane_inv o (run w ins) /\ busy (run w ins)).
  { induction ins as [|i ins IH]; intros w L S; simpl; auto.
    apply IH; [now apply step_inv | now apply step_busy with (o := o)]. }
  apply H; [apply init_inv|]. intros k H1. now contradiction H1.
Qed.

(** *** Accounting *)

Lemma accepted_count_app l1 l2 :
  accepted_count (l1 ++ l2) = accepted_count l1 + accepted_count l2.
Proof.
  induction l1 as [|e l1 IH]; cbn [accepted_count app]; auto.
  destruct e; rewrite ?IH; lia.
Qed.

Lemma frame_remove_notin k fs : ~ In k (map fst (frame_remove k fs)).
Proof.
  induction fs as [|[k0 f] fs IH]; simpl; auto.
  destruct (String.eqb k0 k) eqn:E; auto. simpl.
  apply String.eqb_neq in E. tauto.
Qed.

Lemma frame_remove_incl k k' fs :
  In k' (map fst (frame_remove k fs)) -> In k' (map fst fs).
Proof.
  induction fs as [|[k0 f] fs IH]; simpl; auto.
  destruct (String.eqb k0 k); simpl; tauto.
Qed.

Lemma frame_remove_nodup k fs :
  NoDup (map fst fs) -> NoDup (map fst (frame_remove k fs)).
Proof.
  induction fs as [|[k0 f] fs IH]; simpl; auto.
  intros N. inversion N; subst. destruct (String.eqb k0 k); auto.
  simpl. constructor; auto. intros I. now apply frame_remove_incl in I.
Qed.

Lemma frame_set_nodup k f fs :
  NoDup (map fst fs) -> NoDup (map fst (frame_set k f fs)).
Proof.
  intros N. unfold frame_set. simpl. constructor.
  - apply frame_remove_notin.
  - now apply frame_remove_nodup.
Qed.

Lemma frame_remove_absent k fs : ~ In k (map fst fs) -> frame_remove k fs = fs.
Proof.
  induction fs as [|[k0 f] fs IH]; simpl; auto. intros N.
  destruct (String.eqb k0 k) eqn:E.
  - apply String.eqb_eq in E. tauto.
  - rewrite IH; tauto.
Qed.

Lemma in_flight_cons k f fs :
  in_flight ((k, f) :: fs) = occupies (Some f) + in_flight fs.
Proof.
  unfold in_flight. simpl. destruct (holds_item f); simpl List.length; lia.
Qed.

Lemma in_flight_remove k fs :
  NoDup (map fst fs) ->
  in_flight (frame_remove k fs) = in_flight fs - occupies (frame_get k fs).
Proof.
  induction fs as [|[k0 f] fs IH]; simpl.
  - intros _. unfold in_flight. simpl. lia.
  - intros N. inversion N; subst. destruct (String.eqb k0 k) eqn:E.
    + apply String.eqb_eq in E. subst k0.
      rewrite frame_remove_absent by assumption. rewrite in_flight_cons. lia.
    + rewrite !in_flight_cons, IH by assumption. lia.
Qed.

Lemma in_flight_set k f fs :
  NoDup (map fst fs) ->
  in_flight (frame_set k f fs) =
  in_flight fs - occupies (frame_get k fs) + occupies (Some f).
Proof.
  intros N. unfold frame_set. rewrite in_flight_cons, in_flight_remove by assumption.
  lia.
Qed.

Lemma try_invoke_accepted cb arg w :
  accepted_count (trace (fst (try_invoke cb arg w))) = accepted_count (trace w).
Proof.
  destruct cb as [c|]; simpl; auto.
  destruct (cb_throws c); simpl; rewrite accepted_count_app; simpl; lia.
Qed.

(** One pass of the lane loop: the item the frame held is accounted for by
    the caller, and the next item, if any, moves from the lane to the
    frame. *)
Lemma loop_account k w :
  NoDup (map fst (frames w)) ->
  NoDup (map fst (frames (loop k w))) /\
  accepted_count (trace (loop k w)) = accepted_count (trace w) /\
  _processed (this (loop k w)) = _processed (this w) /\
  _failed (this (loop k w)) = _failed (this w) /\
  _totalItems (this (loop k w)) + in_flight (frames (loop k w)) =
  _totalItems (this w) + in_flight (frames w) - occupies (frame_get k (frames w)).
Proof.
  intros N. destruct (loop_cases k w) as [(it & rest & _ & ->)|[_ ->]]; qs;
    rewrite ?accepted_count_app; rewrite (in_flight_set k _ (frames w) N);
    cbn [accepted_count occupies holds_item];
    (split; [now apply frame_set_nodup|]); repeat split; lia.
Qed.

Lemma drain_from_account ks : forall w,
  (forall k, frame_get k (frames w) <> None ->
             set_has k (_activeLanes (this w)) = true) ->
  NoDup (map fst (frames w)) ->
  NoDup (map fst (frames (drain_from ks w))) /\
  accepted_count (trace (drain_from ks w)) = accepted_count (trace w) /\
  _processed (this (drain_from ks w)) = _processed (this w) /\
  _failed (this (drain_from ks w)) = _failed (this w) /\
  _totalItems (this (drain_from ks w)) + in_flight (frames (drain_from ks w)) =
  _totalItems (this w) + in_flight (frames w).
Proof.
  induction ks as [|k ks IH]; intros w FA N; simpl; auto.
  destruct (set_size (_activeLanes (this w)) >=? _concurrency (this w)); auto.
  destruct (set_has k (_activeLanes (this w))) eqn:A; simpl; auto.
  destruct (lane_is_empty k (_lanes (this w))); auto.
  set (w1 := on_queue (with_activeLanes (set_add k (_activeLanes (this w)))) w).
  assert (F0 : frame_get k (frames w1) = None).
  { subst w1. qs. destruct (frame_get k (frames w)) eqn:F; auto.
    rewrite FA in A; [discriminate|]. rewrite F. discriminate. }
  destruct (loop_account k w1 N) as (N1 & T1 & P1 & X1 & S1).
  rewrite F0 in S1. simpl in S1.
  unfold _processLane.
  destruct (IH (loop k w1)) as (N2 & T2 & P2 & X2 & S2); auto.
  - intros k0 H. rewrite loop_activeLanes. subst w1. qs.
    destruct (string_dec k0 k) as [->|D]; [apply set_has_add_same|].
    apply set_has_add_mono. apply FA.
    destruct (loop_frames k (on_queue (with_activeLanes
                (set_add k (_activeLanes (this w)))) w)) as [_ Fo].
    rewrite Fo in H by assumption. exact H.
  - rewrite T2, P2, X2, S2, T1, P1, X1. subst w1. qs.
    repeat split; auto. lia.
Qed.

Lemma step_account o w i : lane_inv o w -> account_inv w -> account_inv (step w i).
Proof.
  intros L [N S].
  assert (FA := inv_actives o w L).
  destruct i as [t lbl k onS onF|k|k err|k|k]; simpl.
  - (* enqueue *)
    unfold enqueue. destruct (_totalItems (this w) >=? _maxSize (this w)).
    + assert (E1 := try_invoke_this onF (Some queue_full) w).
      assert (E2 := try_invoke_frames onF (Some queue_full) w).
      assert (E3 := try_invoke_accepted onF (Some queue_full) w).
      destruct (try_invoke onF (Some queue_full) w) as [w' [u|e]]; simpl in *;
        constructor; rewrite ?E1, ?E2, ?E3; auto.
    + cbn [fst]. unfold _drain.
      match goal with |- account_inv (drain_from ?ks ?x) =>
        destruct (drain_from_account ks x) as (N2 & T2 & P2 & X2 & S2) end.
      * destruct (lane_has k (_lanes (this w))); qs; exact FA.
      * destruct (lane_has k (_lanes (this w))); qs; exact N.
      * constructor; auto. rewrite T2, P2, X2, S2.
        destruct (lane_has k (_lanes (this w))); qs;
          rewrite accepted_count_app; simpl; lia.
  - destruct (frame_get k (frames w)) as [[it|it ms|]|] eqn:Fk; try (constructor; assumption).
    unfold task_resolved.
    match goal with |- context [loop k ?x] =>
      destruct (loop_account k x) as (N2 & T2 & P2 & X2 & S2) end.
    { now rewrite try_invoke_frames. }
    rewrite try_invoke_frames, try_invoke_this, try_invoke_accepted in *.
    qs. rewrite Fk in S2. simpl in S2. rewrite accepted_count_app in T2. simpl in T2.
    constructor; auto. lia.
  - destruct (frame_get k (frames w)) as [[it|it ms|]|] eqn:Fk; try (constructor; assumption).
    unfold task_rejected. destruct (retries it <? _maxRetries (this w)).
    + constructor; qs.
      * now apply frame_set_nodup.
      * rewrite accepted_count_app, in_flight_set, Fk by assumption. simpl. lia.
    + match goal with |- context [loop k ?x] =>
        destruct (loop_account k x) as (N2 & T2 & P2 & X2 & S2) end.
      { now rewrite try_invoke_frames. }
      rewrite try_invoke_frames, try_invoke_this, try_invoke_accepted in *.
      qs. rewrite Fk in S2. simpl in S2. rewrite accepted_count_app in T2. simpl in T2.
      constructor; auto. lia.
  - destruct (frame_get k (frames w)) as [[it|it ms|]|] eqn:Fk; try (constructor; assumption).
    unfold timer_fired.
    match goal with |- context [loop k ?x] =>
      destruct (loop_account k x) as (N2 & T2 & P2 & X2 & S2) end.
    { exact N. }
    qs. rewrite Fk in S2. simpl in S2.
    constructor; auto. lia.
  - destruct (frame_get k (frames w)) as [[it|it ms|]|] eqn:Fk; try (constructor; assumption).
    unfold lane_finally, _drain.
    match goal with |- account_inv (drain_from ?ks ?x) =>
      destruct (drain_from_account ks x) as (N2 & T2 & P2 & X2 & S2) end.
    + qs. destruct (lane_get k (_lanes (this w))) as [[|]|]; qs;
        intros k0 H; (destruct (string_dec k0 k) as [->|D];
        [now rewrite frame_get_remove_same in H
        |rewrite frame_get_remove_other in H by assumption;
         rewrite set_has_delete_other by assumption; now apply FA]).
    + qs. destruct (lane_get k (_lanes (this w))) as [[|]|]; qs;
        now apply frame_remove_nodup.
    + constructor; auto. rewrite T2, P2, X2, S2. clear N2 T2 P2 X2 S2. qs.
      destruct (lane_get k (_lanes (this w))) as [[|]|]; qs;
        rewrite in_flight_remove, Fk by assumption; simpl; lia.
Qed.

Lemma reachable_account o ins : account_inv (run (init o) ins).
Proof.
  assert (H : forall w, lane_inv o w -> account_inv w ->
                        lane_inv o (run w ins) /\ account_inv (run w ins)).
  { induction ins as [|i ins IH]; intros w L S; simpl; auto.
    apply IH; [now apply step_inv | now apply step_account with (o := o)]. }
  apply H; [apply init_inv|]. constructor; simpl; [constructor|reflexivity].
Qed.

(** *** The pending count stays within [maxSize] *)

Lemma drain_from_totalItems ks : forall w,
  _totalItems (this (drain_from ks w)) <= _totalItems (this w).
Proof.
  induction ks as [|k ks IH]; intros w; simpl; [lia|].
  destruct (set_size (_activeLanes (this w)) >=? _concurrency (this w)); [lia|].
  destruct (set_has k (_activeLanes (this w)) || lane_is_empty k (_lanes (this w)));
    [apply IH|].
  eapply Z.le_trans; [apply IH|]. unfold _processLane.
  eapply Z.le_trans; [apply loop_totalItems|]. qs. lia.
Qed.

Lemma step_bound o w i :
  lane_inv o w ->
  _totalItems (this w) <= Z.max 0 (_maxSize (this w)) ->
  _totalItems (this (step w i)) <= Z.max 0 (_maxSize (this (step w i))).
Proof.
  intros L B. destruct (step_config w i) as [_ ->].
  destruct i as [t lbl k onS onF|k|k err|k|k]; simpl.
  - unfold enqueue. destruct (_totalItems (this w) >=? _maxSize (this w)) eqn:E.
    + assert (T := try_invoke_this onF (Some queue_full) w).
      destruct (try_invoke onF (Some queue_full) w) as [w' [u|e]]; simpl in *;
        now rewrite T.
    + cbn [fst]. unfold _drain.
      eapply Z.le_trans; [apply drain_from_totalItems|].
      assert (_totalItems (this w) < _maxSize (this w)).
      { destruct (Z.geb_spec (_totalItems (this w)) (_maxSize (this w)));
          [discriminate|lia]. }
      destruct (lane_has k (_lanes (this w))); qs; lia.
  - destruct (frame_get k (frames w)) as [[it|it ms|]|]; auto.
    unfold task_resolved. eapply Z.le_trans; [apply loop_totalItems|].
    rewrite try_invoke_this. qs. lia.
  - destruct (frame_get k (frames w)) as [[it|it ms|]|]; auto.
    unfold task_rejected. destruct (retries it <? _maxRetries (this w)); qs; auto.
    eapply Z.le_trans; [apply loop_totalItems|].
    rewrite try_invoke_this. qs. lia.
  - destruct (frame_get k (frames w)) as [[it|it ms|]|] eqn:Fk; auto.
    assert (Hl : lane_has k (_lanes (this w)) = true).
    { apply (inv_lanes o w L). rewrite Fk. discriminate. }
    unfold timer_fired. cbv zeta.
    match goal with |- context [loop k ?x] =>
      destruct (loop_cases k x) as [(it' & rest & _ & ->)|[E _]] end.
    + qs. lia.
    + unfold items_of in E. qs. rewrite lane_get_put_same in E by assumption.
      discriminate.
  - destruct (frame_get k (frames w)) as [[it|it ms|]|]; auto.
    unfold lane_finally, _drain.
    eapply Z.le_trans; [apply drain_from_totalItems|].
    qs. destruct (lane_get k (_lanes (this w))) as [[|]|]; qs; lia.
Qed.

Lemma reachable_bound o ins :
  _totalItems (this (run (init o) ins)) <= Z.max 0 (maxSize o).
Proof.
  destruct (run_config o ins) as [_ <-].
  assert (H : forall w, lane_inv o w ->
                _totalItems (this w) <= Z.max 0 (_maxSize (this w)) ->
                lane_inv o (run w ins) /\
                _totalItems (this (run w ins)) <= Z.max 0 (_maxSize (this (run w ins)))).
  { induction ins as [|i ins IH]; intros w L S; simpl; auto.
    apply IH; [now apply step_inv | now apply step_bound with (o := o)]. }
  apply H; [apply init_inv|]. simpl. lia.
Qed.

(** *** Helper facts for the results below *)

Lemma lane_is_empty_items k q :
  lane_is_empty k (_lanes q) = false <-> items_of k q <> [].
Proof.
  unfold lane_is_empty, items_of.
  destruct (lane_get k (_lanes q)) as [[|it rest]|]; split; intros H;
    try discriminate; try (now contradiction H); auto.
Qed.

Lemma waiting_item ls :
  NoDup (map fst ls) -> 0 < lanes_len ls ->
  exists k, lane_is_empty k ls = false.
Proof.
  induction ls as [|[k0 v] ls IH]; intros D P.
  - unfold lanes_len in P. simpl in P. lia.
  - rewrite lanes_len_cons in P. simpl in D.
    apply NoDup_cons_iff in D. destruct D as [N D].
    destruct v as [|it rest].
    + destruct (IH D) as [k E]; [simpl in P; lia|].
      exists k. unfold lane_is_empty in *. simpl.
      destruct (String.eqb k0 k) eqn:Q; auto.
      apply String.eqb_eq in Q. subst k0.
      rewrite (lane_get_absent k ls N) in E. discriminate.
    + exists k0. unfold lane_is_empty. simpl. now rewrite String.eqb_refl.
Qed.

Lemma frame_get_In k fs : In k (map fst fs) -> frame_get k fs <> None.
Proof.
  induction fs as [|[k' f] fs IH]; simpl; [tauto|].
  intros [->|H]; [rewrite String.eqb_refl; discriminate|].
  destruct (String.eqb k' k); [discriminate|auto].
Qed.

Lemma in_flight_le_frames fs : in_flight fs <= Z.of_nat (List.length (map fst fs)).
Proof.
  unfold in_flight. rewrite length_map.
  assert (H := filter_length_le (fun kf : key * frame => holds_item (snd kf)) fs). lia.
Qed.

Lemma in_flight_le_active o w :
  lane_inv o w -> account_inv w -> in_flight (frames w) <= set_size (_activeLanes (this w)).
Proof.
  intros L A. eapply Z.le_trans; [apply in_flight_le_frames|]. unfold set_size.
  apply inj_le. apply NoDup_incl_length; [apply (acc_keys w A)|].
  intros k H. apply set_has_In. apply (inv_actives o w L). now apply frame_get_In.
Qed.

(** *** Results on every reachable state *)

(** X1.  In every state the queue can reach, [length] (which is also
    [stats.queued]) is the number of items stored in the lanes, the Map
    holds one entry per key, and the count lies between 0 and [maxSize]
    (0 when [maxSize] is negative). *)
Theorem length_is_backlog_within_maxSize (o : options) (ins : list input) :
  let q := this (run (init o) ins) in
  get_length q = waiting q /\
  queued (get_stats q) = waiting q /\
  NoDup (map fst (_lanes q)) /\
  0 <= get_length q <= Z.max 0 (maxSize o).
Proof.
  intros q. destruct (reachable_count o ins) as [D T]. fold q in D, T.
  assert (B := reachable_bound o ins). fold q in B.
  unfold get_length, get_stats. cbn [queued]. rewrite T.
  repeat split; auto; [|now rewrite <- T].
  unfold waiting, lanes_len. lia.
Qed.

(** X2.  The active set has no duplicates, a key is in it exactly when a
    call of [_processLane] for that key has not finished (it awaits its
    task, its backoff timer, or its [.finally] callback is still to run),
    [active] never exceeds [concurrency] (0 when that is negative), and the
    items in flight are at most one per active lane. *)
Theorem active_lanes_within_concurrency (o : options) (ins : list input) :
  let w := run (init o) ins in
  NoDup (_activeLanes (this w)) /\
  (forall k, set_has k (_activeLanes (this w)) = true <->
             frame_get k (frames w) <> None) /\
  get_active (this w) <= Z.max 0 (concurrency o) /\
  0 <= in_flight (frames w) <= get_active (this w).
Proof.
  intros w.
  assert (L := reachable_inv o ins). assert (S := reachable_sched o ins).
  assert (A := reachable_account o ins). destruct (run_config o ins) as [C _].
  fold w in L, S, A, C.
  split; [apply (sc_nodup w S)|]. split; [|split].
  - intros k. split; [apply (sc_frames w S)|apply (inv_actives o w L)].
  - unfold get_active. rewrite <- C. apply (sc_bound w S).
  - split; [unfold in_flight; lia|]. now apply in_flight_le_active with (o := o).
Qed.

(** X3.  The Map keeps an entry with an empty array only while the lane
    of that key is active: once the [.finally] callback of a lane has run,
    no empty entry is left behind. *)
Theorem empty_lane_entry_is_active (o : options) (ins : list input) (k : key) :
  let w := run (init o) ins in
  lane_get k (_lanes (this w)) = Some [] ->
  set_has k (_activeLanes (this w)) = true.
Proof.
  intros w G. assert (S := reachable_sched o ins). fold w in S.
  destruct (set_has k (_activeLanes (this w))) eqn:E; auto.
  exfalso. apply (sc_idle w S k); auto.
  - unfold lane_has. now rewrite G.
  - unfold items_of. now rewrite G.
Qed.

Lemma empty_lane_entry_is_active_witness :
  let w := run (init default_options) [Enqueue 1 "t1" "A" None None] in
  lane_get "A" (_lanes (this w)) = Some [] /\
  set_has "A" (_activeLanes (this w)) = true.
Proof.
  cbv zeta. split; [reflexivity|].
  apply (empty_lane_entry_is_active default_options [Enqueue 1 "t1" "A" None None] "A").
  reflexivity.
Defined.

(** X4.  No slot is left unused: while some key has items waiting and its
    lane is not active, exactly [concurrency] lanes are active (none when
    [concurrency] is not positive). *)
Theorem waiting_lane_means_all_slots_used (o : options) (ins : list input) (k : key) :
  let w := run (init o) ins in
  lane_is_empty k (_lanes (this w)) = false ->
  set_has k (_activeLanes (this w)) = false ->
  get_active (this w) = Z.max 0 (concurrency o).
Proof.
  intros w E H.
  assert (S := reachable_sched o ins). assert (B := reachable_busy o ins).
  destruct (run_config o ins) as [C _]. fold w in S, B, C.
  apply lane_is_empty_items in E.
  assert (B1 := B k E H). assert (S1 := sc_bound w S).
  unfold get_active. rewrite C in *.
  assert (0 <= set_size (_activeLanes (this w))) by (unfold set_size; lia).
  lia.
Qed.

Lemma waiting_lane_means_all_slots_used_witness :
  let o := mkOptions 1 10 2 1000 in
  let w := run (init o) [Enqueue 1 "t1" "A" None None; Enqueue 2 "t2" "B" None None] in
  lane_is_empty "B" (_lanes (this w)) = false /\
  set_has "B" (_activeLanes (this w)) = false /\
  get_active (this w) = Z.max 0 (concurrency o).
Proof.
  cbv zeta. split; [reflexivity|]. split; [reflexivity|].
  apply (waiting_lane_means_all_slots_used (mkOptions 1 10 2 1000)
           [Enqueue 1 "t1" "A" None None; Enqueue 2 "t2" "B" None None] "B");
    reflexivity.
Defined.

(** X5.  With a positive [concurrency] the queue cannot stall: while items
    are waiting, some lane is active, that is, a call of [_processLane] is
    awaiting a task or a timer or is about to run its [.finally] callback. *)
Theorem pending_items_keep_a_lane_active (o : options) (ins : list input) :
  let w := run (init o) ins in
  0 < concurrency o ->
  0 < get_length (this w) ->
  0 < get_active (this w) /\
  exists k f, frame_get k (frames w) = Some f.
Proof.
  intros w C P.
  assert (S := reachable_sched o ins). assert (B := reachable_busy o ins).
  destruct (reachable_count o ins) as [D T].
  destruct (run_config o ins) as [Cw _]. fold w in S, B, D, T, Cw.
  unfold get_length in P. rewrite T in P.
  destruct (waiting_item (_lanes (this w)) D P) as [k E].
  assert (A : exists k', set_has k' (_activeLanes (this w)) = true).
  { destruct (set_has k (_activeLanes (this w))) eqn:H; [now exists k|].
    apply lane_is_empty_items in E. assert (B1 := B k E H). rewrite Cw in B1.
    unfold set_size in B1.
    destruct (_activeLanes (this w)) as [|k' s]; [simpl in B1; lia|].
    exists k'. simpl. now rewrite String.eqb_refl. }
  destruct A as [k' A]. split.
  - unfold get_active, set_size. apply set_has_In in A.
    destruct (_activeLanes (this w)); [destruct A|simpl; lia].
  - apply (sc_frames w S) in A.
    destruct (frame_get k' (frames w)) as [f|] eqn:F; [|congruence].
    now exists k', f.
Qed.

Lemma pending_items_keep_a_lane_active_witness :
  let w := run (init default_options)
               [Enqueue 1 "t1" "A" None None; Enqueue 2 "t2" "A" None None] in
  0 < concurrency default_options /\
  0 < get_length (this w) /\
  0 < get_active (this w) /\
  exists k f, frame_get k (frames w) = Some f.
Proof.
  cbv zeta. split; [reflexivity|]. split; [reflexivity|].
  apply (pending_items_keep_a_lane_active default_options
           [Enqueue 1 "t1" "A" None None; Enqueue 2 "t2" "A" None None]);
    reflexivity.
Defined.

(** X6.  Nothing accepted is lost or counted twice: at any moment the
    number of tasks [enqueue] has accepted equals [stats.queued] plus the
    items held by lanes that await a task or a backoff timer plus
    [stats.processed] plus [stats.failed]. *)
Theorem accepted_tasks_are_accounted (o : options) (ins : list input) :
  let w := run (init o) ins in
  accepted_count (trace w) =
  queued (get_stats (this w)) + in_flight (frames w)
  + processed (get_stats (this w)) + failed (get_stats (this w)).
Proof.
  intros w. assert (A := reachable_account o ins). fold w in A.
  unfold get_stats. cbn [queued processed failed]. apply (acc_sum w A).
Qed.

(** X7.  When the backoff timer of a lane fires, the retried item is put
    back at the front and taken again at once: the lane awaits the same
    item, the items that were enqueued under any key in the meantime stay
    where they are, and the pending count is what it was. *)
Theorem backoff_timer_restarts_item (o : options) (ins : list input) (k : key)
        (it : item) (ms : Z) :
  let w := run (init o) ins in
  frame_get k (frames w) = Some (AwaitTimer it ms) ->
  let w' := step w (Timer k) in
  frame_get k (frames w') = Some (AwaitTask it) /\
  trace w' = trace w ++ [Started k (task it) (retries it)] /\
  (forall k', items_of k' (this w') = items_of k' (this w)) /\
  get_length (this w') = get_length (this w) /\
  _activeLanes (this w') = _activeLanes (this w).
Proof.
  intros w F w'.
  assert (I := reachable_inv o ins). fold w in I.
  assert (Hl : lane_has k (_lanes (this w)) = true).
  { apply (inv_lanes o w I). rewrite F. discriminate. }
  subst w'. simpl. rewrite F. unfold timer_fired, loop. qs.
  rewrite lane_get_put_same by assumption. qs.
  rewrite frame_get_set_same. unfold get_length. qs.
  repeat split; auto; [|lia].
  intros k'. unfold items_of. qs.
  destruct (String.eqb k k') eqn:E.
  - apply String.eqb_eq in E. subst k'.
    rewrite lane_get_put_same by (now rewrite lane_has_put).
    unfold lane_has in Hl. now destruct (lane_get k (_lanes (this w))).
  - assert (k' <> k) by (intros ->; now rewrite String.eqb_refl in E).
    now rewrite !lane_get_put_other.
Qed.

Lemma backoff_timer_restarts_item_witness :
  let ins := [Enqueue 1 "t1" "A" None None; Reject "A" "e1";
              Enqueue 2 "t2" "A" None None] in
  let w := run (init default_options) ins in
  let it := mkItem 1 "t1" 1 None None in
  let w' := step w (Timer "A") in
  frame_get "A" (frames w) = Some (AwaitTimer it 1000) /\
  frame_get "A" (frames w') = Some (AwaitTask it) /\
  trace w' = trace w ++ [Started "A" (task it) (retries it)] /\
  (forall k', items_of k' (this w') = items_of k' (this w)) /\
  get_length (this w') = get_length (this w) /\
  _activeLanes (this w') = _activeLanes (this w).
Proof.
  cbv zeta. split; [reflexivity|].
  apply (backoff_timer_restarts_item default_options
           [Enqueue 1 "t1" "A" None None; Reject "A" "e1";
            Enqueue 2 "t2" "A" None None] "A" (mkItem 1 "t1" 1 None None) 1000).
  reflexivity.
Defined.

(** X8.  When the task a lane awaits fulfils, [processed] goes up by one,
    [failed] is left alone, [onSuccess] (if any) is called without
    argument, and whether or not that call throws the lane goes on at once
    with its next pending item, or returns when there is none. *)
Theorem fulfilled_task_is_counted (o : options) (ins : list input) (k : key)
        (it : item) :
  let w := run (init o) ins in
  frame_get k (frames w) = Some (AwaitTask it) ->
  let w' := step w (Resolve k) in
  _processed (this w') = _processed (this w) + 1 /\
  _failed (this w') = _failed (this w) /\
  items_of k (this w') = tl (items_of k (this w)) /\
  frame_get k (frames w') =
    Some (match items_of k (this w) with
          | next :: _ => AwaitTask next
          | [] => Returned
          end) /\
  trace w' = trace w ++ [Succeeded k (task it)]
    ++ match onSuccess it with
       | Some cb => [Called (cb_name cb) None]
       | None => []
       end
    ++ match items_of k (this w) with
       | next :: _ => [Started k (task next) (retries next)]
       | [] => []
       end.
Proof.
  intros w F w'.
  assert (I := reachable_inv o ins). fold w in I.
  assert (Hl : lane_has k (_lanes (this w)) = true).
  { apply (inv_lanes o w I). rewrite F. discriminate. }
  subst w'. simpl. rewrite F. unfold task_resolved.
  unfold lane_has in Hl. unfold items_of.
  destruct (lane_get k (_lanes (this w))) as [items|] eqn:G; [|discriminate].
  destruct (onSuccess it) as [cb|]; [destruct (cb_throws cb) eqn:Th|];
    unfold try_invoke, invoke, loop; try rewrite Th; qs; rewrite G;
    (destruct items as [|next rest]; qs;
     [ rewrite frame_get_set_same, G, <- ?app_assoc; simpl; repeat split; reflexivity
     | rewrite frame_get_set_same, lane_get_put_same, <- ?app_assoc
         by (unfold lane_has; now rewrite G);
       simpl; repeat split; reflexivity ]).
Qed.

Lemma fulfilled_task_is_counted_witness :
  let throwing := Some (mkCallback "onSuccess" (Some "boom")) in
  let ins := [Enqueue 1 "t1" "A" throwing None; Enqueue 2 "t2" "A" None None] in
  let w := run (init default_options) ins in
  let w' := step w (Resolve "A") in
  frame_get "A" (frames w) = Some (AwaitTask (mkItem 1 "t1" 0 throwing None)) /\
  _processed (this w') = 1 /\
  frame_get "A" (frames w') = Some (AwaitTask (mkItem 2 "t2" 0 None None)) /\
  trace w' = trace w ++ [Succeeded "A" 1; Called "onSuccess" None; Started "A" 2 0].
Proof.
  cbv zeta. split; [reflexivity|].
  destruct (fulfilled_task_is_counted default_options
           [Enqueue 1 "t1" "A" (Some (mkCallback "onSuccess" (Some "boom"))) None;
            Enqueue 2 "t2" "A" None None] "A"
           (mkItem 1 "t1" 0 (Some (mkCallback "onSuccess" (Some "boom"))) None)
           eq_refl) as (P & _ & _ & Fr & Tr).
  split; [exact P|]. split; [exact Fr|exact Tr].
Defined.

(** *** Which lanes [_drain] starts *)

Lemma drain_from_skip ks : forall w,
  (forall k, In k ks -> startable (this w) k = false) -> drain_from ks w = w.
Proof.
  induction ks as [|k ks IH]; intros w H; simpl; auto.
  destruct (set_size (_activeLanes (this w)) >=? _concurrency (this w)); auto.
  assert (E := H k (or_introl eq_refl)). unfold startable in E.
  apply negb_false_iff in E. rewrite E.
  apply IH. intros k' Hk. apply H. now right.
Qed.

Lemma drain_from_full ks w :
  _concurrency (this w) <= set_size (_activeLanes (this w)) -> drain_from ks w = w.
Proof.
  intros H. destruct ks as [|k ks]; simpl; auto.
  replace (set_size (_activeLanes (this w)) >=? _concurrency (this w)) with true; auto.
  symmetry. apply Z.geb_le. lia.
Qed.

Lemma lane_is_empty_eq k q :
  lane_is_empty k (_lanes q) = match items_of k q with [] => true | _ => false end.
Proof.
  unfold lane_is_empty, items_of. now destruct (lane_get k (_lanes q)) as [[|]|].
Qed.

Lemma start_lane_active k w :
  _activeLanes (this (start_lane k w)) = set_add k (_activeLanes (this w)).
Proof. unfold start_lane, _processLane. now rewrite loop_activeLanes. Qed.

Lemma start_lane_concurrency k w :
  _concurrency (this (start_lane k w)) = _concurrency (this w).
Proof. unfold start_lane, _processLane. now rewrite loop_concurrency. Qed.

Lemma startable_started k w : startable (this (start_lane k w)) k = false.
Proof.
  unfold startable. now rewrite start_lane_active, set_has_add_same.
Qed.

Lemma startable_after_start k k' w :
  k' <> k -> startable (this (start_lane k w)) k' = startable (this w) k'.
Proof.
  intros N. unfold startable.
  rewrite start_lane_active, set_has_add_other, !lane_is_empty_eq by assumption.
  unfold start_lane, _processLane. now rewrite loop_items_other.
Qed.

(** With one free slot, or with one candidate at most, [_drain] starts the
    first lane that has items and is not active, and nothing else. *)
Lemma drain_from_first ks : forall w,
  set_size (_activeLanes (this w)) < _concurrency (this w) ->
  (_concurrency (this w) <= set_size (_activeLanes (this w)) + 1 \/
   forall k1 k2, In k1 ks -> In k2 ks -> startable (this w) k1 = true ->
                 startable (this w) k2 = true -> k1 = k2) ->
  drain_from ks w =
  match find (startable (this w)) ks with
  | Some k => start_lane k w
  | None => w
  end.
Proof.
  induction ks as [|k ks IH]; intros w Lt U; simpl; auto.
  replace (set_size (_activeLanes (this w)) >=? _concurrency (this w)) with false
    by (symmetry; rewrite Z.geb_leb; apply Z.leb_gt; lia).
  destruct (startable (this w) k) eqn:E0; assert (E := E0); unfold startable in E.
  - apply negb_true_iff in E. rewrite E. fold (start_lane k w).
    apply orb_false_iff in E. destruct E as [Ea _].
    destruct U as [F|U].
    + apply drain_from_full.
      rewrite start_lane_concurrency, start_lane_active, set_size_add by assumption.
      lia.
    + apply drain_from_skip. intros k2 H2.
      destruct (String.eqb k k2) eqn:Q.
      * apply String.eqb_eq in Q. subst k2. apply startable_started.
      * assert (N : k2 <> k) by (intros ->; now rewrite String.eqb_refl in Q).
        rewrite startable_after_start by assumption.
        destruct (startable (this w) k2) eqn:E2; auto.
        exfalso. apply N. symmetry. apply (U k k2); simpl; auto.
  - apply negb_false_iff in E. rewrite E. apply IH; auto.
    destruct U as [F|U]; [now left|right].
    intros k1 k2 H1 H2. apply U; now right.
Qed.

Lemma find_unique {A} (f : A -> bool) (x : A) l :
  In x l -> f x = true -> (forall y, In y l -> f y = true -> y = x) ->
  find f l = Some x.
Proof.
  induction l as [|a l IH]; simpl; [tauto|]. intros I F U.
  destruct (f a) eqn:E; [f_equal; apply U; auto|].
  destruct I as [->|I]; [congruence|]. apply IH; auto.
Qed.

Lemma find_none {A} (f : A -> bool) l :
  (forall y, In y l -> f y = false) -> find f l = None.
Proof.
  induction l as [|a l IH]; simpl; auto. intros H.
  rewrite (H a) by auto. apply IH. auto.
Qed.

Lemma lane_has_In k ls : lane_has k ls = true -> In k (map fst ls).
Proof.
  unfold lane_has. intros H.
  destruct (in_dec string_dec k (map fst ls)) as [I|N]; auto.
  rewrite (lane_get_absent k ls N) in H. discriminate.
Qed.

(** What an accepted [enqueue] has done when it calls [_drain]. *)
Lemma enqueue_accepted t lbl k onS onF w :
  _totalItems (this w) < _maxSize (this w) ->
  exists W,
    enqueue t lbl k onS onF w = (_drain W, Normal true) /\
    frames W = frames w /\
    trace W = trace w ++ [Enqueued k t] /\
    _activeLanes (this W) = _activeLanes (this w) /\
    _concurrency (this W) = _concurrency (this w) /\
    _totalItems (this W) = _totalItems (this w) + 1 /\
    lane_get k (_lanes (this W)) = Some (items_of k (this w) ++ [mkItem t lbl 0 onS onF]) /\
    (forall k', k' <> k -> items_of k' (this W) = items_of k' (this w)).
Proof.
  intros Lt. unfold enqueue.
  replace (_totalItems (this w) >=? _maxSize (this w)) with false
    by (symmetry; rewrite Z.geb_leb; apply Z.leb_gt; lia).
  eexists. split; [reflexivity|]. unfold lane_set, lane_has, items_of.
  destruct (lane_get k (_lanes (this w))) as [items|] eqn:G; qs.
  - rewrite G. repeat split; auto.
    + apply lane_get_put_same. unfold lane_has. now rewrite G.
    + intros k' N. now rewrite lane_get_put_other.
  - assert (G' : lane_get k (_lanes (this w) ++ [(k, [])]) = Some []).
    { rewrite lane_get_app, G. now rewrite String.eqb_refl. }
    rewrite G'. repeat split; auto.
    + apply lane_get_put_same. unfold lane_has. now rewrite G'.
    + intros k' N. rewrite lane_get_put_other, lane_get_app by assumption.
      destruct (lane_get k' (_lanes (this w))); auto.
      now destruct (String.eqb k k').
Qed.

(** In a reachable state with a free slot, no lane other than the given
    one can be waiting to start. *)
Lemma free_slot_no_candidate o ins k' :
  let w := run (init o) ins in
  set_size (_activeLanes (this w)) < _concurrency (this w) ->
  startable (this w) k' = false.
Proof.
  intros w Lt. assert (B := reachable_busy o ins). fold w in B.
  unfold startable.
  destruct (set_has k' (_activeLanes (this w))) eqn:A; auto. simpl.
  destruct (lane_is_empty k' (_lanes (this w))) eqn:E; auto.
  apply lane_is_empty_items in E. assert (B1 := B k' E A). lia.
Qed.

(** X9.  An accepted [enqueue] under a key whose lane is not active, while
    fewer than [concurrency] lanes are active, starts the new task before it
    returns: the key had nothing waiting, the lane becomes active and awaits
    the task, no other lane is started, and the pending count is back to
    what it was. *)
Theorem enqueue_on_idle_lane_starts_task (o : options) (ins : list input)
        (t : nat) (lbl : string) (k : key) (onS onF : option callback) :
  let w := run (init o) ins in
  get_length (this w) < maxSize o ->
  set_has k (_activeLanes (this w)) = false ->
  get_active (this w) < concurrency o ->
  let it := mkItem t lbl 0 onS onF in
  let r := enqueue t lbl k onS onF w in
  snd r = Normal true /\
  frame_get k (frames (fst r)) = Some (AwaitTask it) /\
  (forall k', k' <> k -> frame_get k' (frames (fst r)) = frame_get k' (frames w)) /\
  trace (fst r) = trace w ++ [Enqueued k t; Started k t 0] /\
  (forall k', items_of k' (this (fst r)) = items_of k' (this w)) /\
  items_of k (this w) = [] /\
  _activeLanes (this (fst r)) = _activeLanes (this w) ++ [k] /\
  get_length (this (fst r)) = get_length (this w).
Proof.
  intros w Lt A Free it r.
  destruct (run_config o ins) as [Cc Cm]. fold w in Cc, Cm.
  unfold get_length, get_active in *. rewrite <- Cm in Lt. rewrite <- Cc in Free.
  assert (Ek : items_of k (this w) = []).
  { assert (S := free_slot_no_candidate o ins k Free). fold w in S.
    unfold startable in S. rewrite A in S. simpl in S.
    apply negb_false_iff in S. rewrite lane_is_empty_eq in S.
    now destruct (items_of k (this w)). }
  destruct (enqueue_accepted t lbl k onS onF w Lt)
    as (W & E & Fr & Tr & Ac & Co & To & Gk & Ot).
  fold it in Gk. rewrite Ek in Gk. simpl in Gk.
  subst r. rewrite E. cbn [fst snd]. unfold _drain.
  assert (SW : forall k', k' <> k -> startable (this W) k' = false).
  { intros k' N. assert (S := free_slot_no_candidate o ins k' Free). fold w in S.
    unfold startable in *. now rewrite Ac, lane_is_empty_eq, Ot, <- lane_is_empty_eq. }
  assert (Sk : startable (this W) k = true).
  { unfold startable, lane_is_empty. now rewrite Ac, A, Gk. }
  rewrite drain_from_first.
  - rewrite (find_unique (startable (this W)) k).
    + unfold start_lane, _processLane.
      match goal with |- context [loop k ?x] =>
        destruct (loop_cases k x) as [(it' & rest & G & ->)|[G _]] end.
      * revert G. qs. rewrite Gk. intros [= <- <-]. qs.
        rewrite Fr, Tr, Ac, To, frame_get_set_same, <- app_assoc.
        unfold set_add. rewrite A.
        repeat split; auto; [| |lia].
        -- intros k' N. now apply frame_get_set_other.
        -- intros k'. unfold items_of at 1. qs.
           destruct (String.eqb k k') eqn:Q.
           ++ apply String.eqb_eq in Q. subst k'. rewrite Ek.
              rewrite lane_get_put_same; auto. unfold lane_has. now rewrite Gk.
           ++ assert (N : k' <> k) by (intros ->; now rewrite String.eqb_refl in Q).
              rewrite lane_get_put_other by assumption. now apply Ot.
      * revert G. unfold items_of. qs. now rewrite Gk.
    + apply lane_has_In. unfold lane_has. now rewrite Gk.
    + assumption.
    + intros y _ Sy. destruct (string_dec y k) as [->|N]; auto.
      rewrite (SW y N) in Sy. discriminate.
  - rewrite Ac, Co. assumption.
  - right. intros k1 k2 _ _ S1 S2.
    destruct (string_dec k1 k) as [->|N1]; [|rewrite (SW k1 N1) in S1; discriminate].
    destruct (string_dec k2 k) as [->|N2]; [|rewrite (SW k2 N2) in S2; discriminate].
    reflexivity.
Qed.

Lemma enqueue_on_idle_lane_starts_task_witness :
  let ins := [Enqueue 1 "t1" "A" None None] in
  let w := run (init default_options) ins in
  let it := mkItem 2 "t2" 0 None None in
  let r := enqueue 2 "t2" "B" None None w in
  get_length (this w) < maxSize default_options /\
  set_has "B" (_activeLanes (this w)) = false /\
  get_active (this w) < concurrency default_options /\
  snd r = Normal true /\
  frame_get "B" (frames (fst r)) = Some (AwaitTask it) /\
  (forall k', k' <> "B" -> frame_get k' (frames (fst r)) = frame_get k' (frames w)) /\
  trace (fst r) = trace w ++ [Enqueued "B" 2; Started "B" 2 0] /\
  (forall k', items_of k' (this (fst r)) = items_of k' (this w)) /\
  items_of "B" (this w) = [] /\
  _activeLanes (this (fst r)) = _activeLanes (this w) ++ ["B"] /\
  get_length (this (fst r)) = get_length (this w).
Proof.
  cbv zeta. split; [reflexivity|]. split; [reflexivity|]. split; [reflexivity|].
  apply (enqueue_on_idle_lane_starts_task default_options
           [Enqueue 1 "t1" "A" None None] 2 "t2" "B" None None); reflexivity.
Defined.

(** X10.  An accepted [enqueue] under a key whose lane is active, or made
    while [concurrency] lanes are active, only appends: the item goes to the
    end of its lane, the pending count goes up by one, and no task is
    started. *)
Theorem enqueue_behind_busy_lane_waits (o : options) (ins : list input)
        (t : nat) (lbl : string) (k : key) (onS onF : option callback) :
  let w := run (init o) ins in
  get_length (this w) < maxSize o ->
  set_has k (_activeLanes (this w)) = true \/ concurrency o <= get_active (this w) ->
  let r := enqueue t lbl k onS onF w in
  snd r = Normal true /\
  frames (fst r) = frames w /\
  trace (fst r) = trace w ++ [Enqueued k t] /\
  items_of k (this (fst r)) = items_of k (this w) ++ [mkItem t lbl 0 onS onF] /\
  (forall k', k' <> k -> items_of k' (this (fst r)) = items_of k' (this w)) /\
  _activeLanes (this (fst r)) = _activeLanes (this w) /\
  get_length (this (fst r)) = get_length (this w) + 1.
Proof.
  intros w Lt H r.
  destruct (run_config o ins) as [Cc Cm]. fold w in Cc, Cm.
  unfold get_length, get_active in *. rewrite <- Cm in Lt. rewrite <- Cc in H.
  destruct (enqueue_accepted t lbl k onS onF w Lt)
    as (W & E & Fr & Tr & Ac & Co & To & Gk & Ot).
  assert (D : _drain W = W).
  { unfold _drain.
    destruct (Z_lt_le_dec (set_size (_activeLanes (this w))) (_concurrency (this w)))
      as [Free|Full].
    - destruct H as [A|H]; [|lia].
      apply drain_from_skip. intros k' _.
      destruct (string_dec k' k) as [->|N].
      + unfold startable. now rewrite Ac, A.
      + assert (S := free_slot_no_candidate o ins k' Free). fold w in S.
        unfold startable in *.
        now rewrite Ac, lane_is_empty_eq, Ot, <- lane_is_empty_eq.
    - apply drain_from_full. now rewrite Ac, Co. }
  subst r. rewrite E, D. cbn [fst snd].
  repeat split; auto. unfold items_of at 1. now rewrite Gk.
Qed.

Lemma enqueue_behind_busy_lane_waits_witness :
  let ins := [Enqueue 1 "t1" "A" None None] in
  let w := run (init default_options) ins in
  let r := enqueue 2 "t2" "A" None None w in
  get_length (this w) < maxSize default_options /\
  (set_has "A" (_activeLanes (this w)) = true \/
   concurrency default_options <= get_active (this w)) /\
  snd r = Normal true /\
  frames (fst r) = frames w /\
  trace (fst r) = trace w ++ [Enqueued "A" 2] /\
  items_of "A" (this (fst r)) = items_of "A" (this w) ++ [mkItem 2 "t2" 0 None None] /\
  (forall k', k' <> "A" -> items_of k' (this (fst r)) = items_of k' (this w)) /\
  _activeLanes (this (fst r)) = _activeLanes (this w) /\
  get_length (this (fst r)) = get_length (this w) + 1.
Proof.
  cbv zeta. split; [reflexivity|]. split; [left; reflexivity|].
  apply (enqueue_behind_busy_lane_waits default_options
           [Enqueue 1 "t1" "A" None None] 2 "t2" "A" None None);
    [reflexivity|left; reflexivity].
Defined.

Lemma set_delete_absent k s : ~ In k s -> set_delete k s = s.
Proof.
  intros N. unfold set_delete. apply forallb_filter_id. apply forallb_forall.
  intros x Hx. apply negb_true_iff. destruct (String.eqb k x) eqn:Q; auto.
  apply String.eqb_eq in Q. congruence.
Qed.

Lemma set_delete_length k s :
  NoDup s -> In k s -> S (List.length (set_delete k s)) = List.length s.
Proof.
  induction s as [|a s IH]; intros D I; [destruct I|].
  apply NoDup_cons_iff in D. destruct D as [Na D].
  change (set_delete k (a :: s))
    with (if negb (String.eqb k a) then a :: set_delete k s else set_delete k s).
  destruct (String.eqb k a) eqn:E; cbn [negb List.length].
  - apply String.eqb_eq in E. subst a. now rewrite set_delete_absent.
  - destruct I as [->|I]; [now rewrite String.eqb_refl in E|].
    now rewrite (IH D I).
Qed.

Lemma set_size_delete_in k s :
  NoDup s -> In k s -> set_size (set_delete k s) = set_size s - 1.
Proof.
  intros D I. unfold set_size. assert (H := set_delete_length k s D I). lia.
Qed.

Lemma find_lane_delete (f g : key -> bool) k ls :
  g k = false -> (forall k', k' <> k -> f k' = g k') ->
  find f (map fst (lane_delete k ls)) = find g (map fst ls).
Proof.
  intros Gk H. induction ls as [|[k0 v] ls IH]; simpl; auto.
  destruct (String.eqb k0 k) eqn:E.
  - apply String.eqb_eq in E. subst k0. now rewrite Gk.
  - assert (N : k0 <> k) by (intros ->; now rewrite String.eqb_refl in E).
    simpl. rewrite (H k0 N). now rewrite IH.
Qed.

(** What the [.finally] callback of a lane has done when it calls [_drain]. *)
Lemma lane_finally_cleanup k w :
  exists w2,
    lane_finally k w = _drain w2 /\
    frames w2 = frame_remove k (frames w) /\
    trace w2 = trace w /\
    _activeLanes (this w2) = set_delete k (_activeLanes (this w)) /\
    _concurrency (this w2) = _concurrency (this w) /\
    (forall k', items_of k' (this w2) = items_of k' (this w)) /\
    (items_of k (this w) = [] -> lane_has k (_lanes (this w2)) = false) /\
    find (startable (this w2)) (map fst (_lanes (this w2))) =
    first_waiting (with_activeLanes (set_delete k (_activeLanes (this w))) (this w)).
Proof.
  unfold lane_finally. cbv zeta. qs.
  destruct (lane_get k (_lanes (this w))) as [[|i r]|] eqn:G;
    (eexists; split; [reflexivity|]); qs; repeat split; auto.
  - intros k'. unfold items_of. qs. destruct (String.eqb k k') eqn:Q.
    + apply String.eqb_eq in Q. subst k'. now rewrite lane_get_delete_same, G.
    + assert (N : k' <> k) by (intros ->; now rewrite String.eqb_refl in Q).
      now rewrite lane_get_delete_other.
  - intros _. unfold lane_has. now rewrite lane_get_delete_same.
  - unfold first_waiting. qs. apply find_lane_delete.
    + unfold startable, lane_is_empty. qs. rewrite G. apply negb_false_iff, orb_true_r.
    + intros k' N. unfold startable, lane_is_empty. qs.
      now rewrite lane_get_delete_other.
  - unfold items_of. rewrite G. discriminate.
  - intros _. unfold lane_has. now rewrite G.
Qed.

(** X11.  The [.finally] callback of a lane takes the key out of the active
    set, drops the Map entry of a lane left empty, and hands the slot to the
    first lane in Map order that has items and is not active (which may be
    the same key, when items arrived after its loop had ended); that lane
    starts its oldest item, and no other lane is started. *)
Theorem freed_slot_goes_to_first_waiting_lane (o : options) (ins : list input)
        (k : key) :
  let w := run (init o) ins in
  frame_get k (frames w) = Some Returned ->
  let w' := step w (Finally k) in
  let act := set_delete k (_activeLanes (this w)) in
  (items_of k (this w) = [] -> lane_has k (_lanes (this w')) = false) /\
  match first_waiting (with_activeLanes act (this w)) with
  | Some k1 =>
      exists it rest,
        items_of k1 (this w) = it :: rest /\
        items_of k1 (this w') = rest /\
        frames w' = frame_set k1 (AwaitTask it) (frame_remove k (frames w)) /\
        trace w' = trace w ++ [Started k1 (task it) (retries it)] /\
        _activeLanes (this w') = act ++ [k1]
  | None =>
      frames w' = frame_remove k (frames w) /\
      trace w' = trace w /\
      _activeLanes (this w') = act
  end.
Proof.
  intros w F w' act.
  assert (L := reachable_inv o ins). assert (S := reachable_sched o ins).
  fold w in L, S.
  assert (Ak : set_has k (_activeLanes (this w)) = true).
  { apply (inv_actives o w L). rewrite F. discriminate. }
  assert (Sz : set_size act = set_size (_activeLanes (this w)) - 1).
  { apply set_size_delete_in; [apply (sc_nodup w S)|now apply set_has_In]. }
  assert (Bd := sc_bound w S).
  assert (Pos : 0 <= set_size act) by (unfold set_size; lia).
  destruct (lane_finally_cleanup k w) as (w2 & E & Fr & Tr & Ac & Co & It & De & Fi).
  fold act in Ac, Fi.
  assert (W : w' = lane_finally k w) by (subst w'; simpl; now rewrite F).
  rewrite W, E. unfold _drain. rewrite drain_from_first.
  - rewrite Fi.
    destruct (first_waiting (with_activeLanes act (this w))) as [k1|] eqn:Fw.
    + unfold first_waiting in Fw. apply find_some in Fw. destruct Fw as [_ St].
      unfold startable in St. apply negb_true_iff, orb_false_iff in St.
      revert St. qs. intros [A1 E1].
      unfold start_lane, _processLane.
      match goal with |- context [loop k1 ?x] =>
        destruct (loop_cases k1 x) as [(it & rest & G & ->)|[G _]] end.
      * revert G. qs. intros G.
        assert (I1 : items_of k1 (this w) = it :: rest).
        { rewrite <- It. unfold items_of. now rewrite G. }
        split.
        -- intros Ek. rewrite lane_has_put. auto.
        -- exists it, rest. rewrite Fr, Tr, Ac. unfold set_add. rewrite A1.
           repeat split; auto. unfold items_of. qs.
           rewrite lane_get_put_same; auto. unfold lane_has. now rewrite G.
      * exfalso. revert G. rewrite lane_is_empty_eq in E1.
        unfold items_of in *. qs. specialize (It k1). unfold items_of in It.
        rewrite It. intros G. now rewrite G in E1.
    + split; auto.
  - rewrite Ac, Co. lia.
  - rewrite Ac, Co.
    destruct (Z_lt_le_dec (set_size (_activeLanes (this w))) (_concurrency (this w)))
      as [Free|Full]; [right|left; lia].
    assert (C : forall k', k' <> k -> startable (this w2) k' = false).
    { intros k' N. assert (Q := free_slot_no_candidate o ins k' Free). fold w in Q.
      unfold startable in *. rewrite Ac. unfold act.
      rewrite set_has_delete_other, lane_is_empty_eq, It, <- lane_is_empty_eq; auto. }
    intros k1 k2 _ _ S1 S2.
    destruct (string_dec k1 k) as [->|N1]; [|rewrite (C k1 N1) in S1; discriminate].
    destruct (string_dec k2 k) as [->|N2]; [|rewrite (C k2 N2) in S2; discriminate].
    reflexivity.
Qed.

Lemma freed_slot_goes_to_first_waiting_lane_witness :
  let o := mkOptions 1 10 2 1000 in
  let ins := [Enqueue 1 "t1" "A" None None; Enqueue 2 "t2" "B" None None;
              Enqueue 3 "t3" "C" None None; Resolve "A"] in
  let w := run (init o) ins in
  let w' := step w (Finally "A") in
  frame_get "A" (frames w) = Some Returned /\
  lane_has "A" (_lanes (this w')) = false /\
  frames w' = [("B", AwaitTask (mkItem 2 "t2" 0 None None))] /\
  trace w' = trace w ++ [Started "B" 2 0] /\
  _activeLanes (this w') = ["B"].
Proof.
  cbv zeta. split; [reflexivity|].
  destruct (freed_slot_goes_to_first_waiting_lane (mkOptions 1 10 2 1000)
           [Enqueue 1 "t1" "A" None None; Enqueue 2 "t2" "B" None None;
            Enqueue 3 "t3" "C" None None; Resolve "A"] "A" eq_refl) as [D H].
  split; [exact (D eq_refl)|].
  destruct H as (it & rest & I & _ & Fr & Tr & Ac).
  injection I as <- <-. split; [exact Fr|]. split; [exact Tr|exact Ac].
Defined.

End QueueScheduling.

(** ** Life cycle of a session *)

Module SessionTheory.
Import Attendance AttendanceTheory.

Lemma getSession_map_at (g : session -> session) sid sid' ss :
  (forall s, id (g s) = id s) ->
  getSession sid' (map (fun s => if String.eqb (id s) sid then g s else s) ss) =
  if String.eqb sid' sid then option_map g (getSession sid' ss) else getSession sid' ss.
Proof.
  intros Hg. rewrite getSession_map.
  - destruct (getSession sid' ss) as [x|] eqn:G; simpl.
    + apply getSession_id in G. apply String.eqb_eq in G. rewrite G.
      now destruct (String.eqb sid' sid).
    + now destruct (String.eqb sid' sid).
  - intros x. destruct (String.eqb (id x) sid); auto.
Qed.

Lemma getSession_In ss s :
  NoDup (map id ss) -> In s ss -> getSession (id s) ss = Some s.
Proof.
  induction ss as [|x ss IH]; simpl; [tauto|].
  intros D I. apply NoDup_cons_iff in D. destruct D as [N D].
  destruct I as [->|I]; [now rewrite String.eqb_refl|].
  destruct (String.eqb (id x) (id s)) eqn:E; auto.
  apply String.eqb_eq in E. exfalso. apply N. rewrite E. now apply in_map.
Qed.

(** X12.  A session found expired by [isSessionValid] is deactivated on the
    spot: its row becomes inactive with the time of the check, the other
    sessions and the attendance data are left alone, and from then on every
    check of that session, at whatever time, answers 'Session is no longer
    active' and changes nothing. *)
Theorem expired_session_stays_invalid (now : Z) (sid : string) (st : store)
        (s : session) :
  getSession sid (sessions st) = Some s ->
  isActive s = true ->
  expiresAt s < now ->
  let st1 := snd (isSessionValid now sid st) in
  fst (isSessionValid now sid st) = Invalid "Session has expired" /\
  getSession sid (sessions st1) = Some (deactivated now s) /\
  (forall sid', sid' <> sid ->
     getSession sid' (sessions st1) = getSession sid' (sessions st)) /\
  attendance st1 = attendance st /\
  session_attendees st1 = session_attendees st /\
  forall now', isSessionValid now' sid st1 = (Invalid "Session is no longer active", st1).
Proof.
  intros G A E st1.
  assert (C : isSessionValid now sid st
              = (Invalid "Session has expired", deactivateSession now sid st)).
  { unfold isSessionValid. rewrite G, A. simpl.
    now replace (expiresAt s <? now) with true by (symmetry; apply Z.ltb_lt; lia). }
  subst st1. rewrite C. cbn [fst snd].
  assert (G1 : getSession sid (sessions (deactivateSession now sid st))
               = Some (deactivated now s)).
  { unfold deactivateSession. cbn [sessions].
    rewrite getSession_map_at by reflexivity. now rewrite String.eqb_refl, G. }
  repeat split; auto.
  - intros sid' N. unfold deactivateSession. cbn [sessions].
    rewrite getSession_map_at by reflexivity.
    now replace (String.eqb sid' sid) with false by (symmetry; now apply String.eqb_neq).
  - intros now'. unfold isSessionValid. now rewrite G1.
Qed.

Lemma expired_session_stays_invalid_witness :
  let st := fresh [lecture] in
  let st1 := snd (isSessionValid 900001 "s1" st) in
  (getSession "s1" (sessions st) = Some lecture /\ isActive lecture = true /\
   expiresAt lecture < 900001) /\
  fst (isSessionValid 900001 "s1" st) = Invalid "Session has expired" /\
  getSession "s1" (sessions st1) = Some (deactivated 900001 lecture) /\
  (forall sid', sid' <> "s1" ->
     getSession sid' (sessions st1) = getSession sid' (sessions st)) /\
  attendance st1 = attendance st /\
  session_attendees st1 = session_attendees st /\
  forall now', isSessionValid now' "s1" st1 = (Invalid "Session is no longer active", st1).
Proof.
  cbv zeta. split; [repeat split; reflexivity|].
  apply (expired_session_stays_invalid 900001 "s1" (fresh [lecture]) lecture);
    reflexivity.
Defined.

(** X13.  [extendSession] answers [null] for an unknown id and changes
    nothing.  For a known session it moves the expiry by the given number
    of minutes and makes the session active, also when the session had been
    deactivated (the deactivation time stays in the row); the other sessions
    and the attendance data are left alone, and afterwards the session
    passes [isSessionValid] exactly until the new expiry. *)
Theorem extended_session_is_valid_again (sid : string) (minutes : Z) (st : store) :
  match getSession sid (sessions st) with
  | None => extendSession sid minutes st = (None, st)
  | Some s =>
      let s' := mkSession (id s) (teacherId s) (classroomLocation s) (geofenceRadius s)
                          (spreadsheetId s) (expiresAt s + minutes * 60000) true
                          (deactivatedAt s) (attendeeCount s) in
      let st' := snd (extendSession sid minutes st) in
      fst (extendSession sid minutes st) = Some s' /\
      getSession sid (sessions st') = Some s' /\
      (forall sid', sid' <> sid ->
         getSession sid' (sessions st') = getSession sid' (sessions st)) /\
      attendance st' = attendance st /\
      session_attendees st' = session_attendees st /\
      (forall now, now <= expiresAt s + minutes * 60000 ->
         isSessionValid now sid st' = (Valid s', st')) /\
      (forall now, expiresAt s + minutes * 60000 < now ->
         fst (isSessionValid now sid st') = Invalid "Session has expired")
  end.
Proof.
  destruct (getSession sid (sessions st)) as [s|] eqn:G.
  - cbv zeta. unfold extendSession, updateSessionFields. rewrite G. cbn [fst snd].
    unfold merged. cbn [or_else u_spreadsheetId u_expiresAt u_isActive u_deactivatedAt
                        u_attendeeCount sessions attendance session_attendees].
    replace (expiresAt s + minutes * 60 * 1000) with (expiresAt s + minutes * 60000) by lia.
    set (s' := mkSession (id s) (teacherId s) (classroomLocation s) (geofenceRadius s)
                         (spreadsheetId s) (expiresAt s + minutes * 60000) true
                         (deactivatedAt s) (attendeeCount s)).
    assert (G' : getSession sid
                   (map (fun row => if String.eqb (id row) sid
                                    then updated_row s'
                                           (mkUpdates None (Some (expiresAt s + minutes * 60000))
                                                      (Some true) None None) row
                                    else row) (sessions st)) = Some s').
    { rewrite getSession_map_at by reflexivity. rewrite String.eqb_refl, G. simpl.
      unfold updated_row, s'. simpl. now destruct (truthy_str (spreadsheetId s)). }
    repeat split; auto.
    + intros sid' N. rewrite getSession_map_at by reflexivity.
      now replace (String.eqb sid' sid) with false by (symmetry; now apply String.eqb_neq).
    + intros now H. unfold isSessionValid. cbn [sessions]. rewrite G'.
      change (isActive s') with true.
      change (expiresAt s') with (expiresAt s + minutes * 60000). cbn [negb].
      now replace (expiresAt s + minutes * 60000 <? now) with false
        by (symmetry; apply Z.ltb_ge; lia).
    + intros now H. unfold isSessionValid. cbn [sessions]. rewrite G'.
      change (isActive s') with true.
      change (expiresAt s') with (expiresAt s + minutes * 60000). cbn [negb].
      now replace (expiresAt s + minutes * 60000 <? now) with true
        by (symmetry; apply Z.ltb_lt; lia).
  - unfold extendSession. now rewrite G.
Qed.

(** X14.  The list of a teacher's active sessions holds exactly the
    sessions of that teacher that were active and have not expired, and
    every listed session passes [isSessionValid] at that moment (session ids
    being unique, as the primary key makes them). *)
Theorem listed_sessions_are_valid (now : Z) (teacher : string) (st : store) :
  NoDup (map id (sessions st)) ->
  let listed := fst (getActiveSessionsByTeacher now teacher st) in
  let st1 := snd (getActiveSessionsByTeacher now teacher st) in
  (forall s, In s listed <->
     In s (sessions st) /\ teacherId s = teacher /\ isActive s = true /\
     now <= expiresAt s) /\
  (forall s, In s listed -> isSessionValid now (id s) st1 = (Valid s, st1)).
Proof.
  intros D listed st1.
  assert (M : forall s, In s listed <->
     In s (sessions st) /\ teacherId s = teacher /\ isActive s = true /\
     now <= expiresAt s).
  { intros s. subst listed. unfold getActiveSessionsByTeacher, deactivateExpiredSessions.
    cbn [fst sessions]. rewrite filter_In, in_map_iff, andb_true_iff, String.eqb_eq.
    split.
    - intros [(x & E & I) [T A]].
      destruct (isActive x && (expiresAt x <? now)) eqn:C.
      + subst s. simpl in A. discriminate.
      + subst x. rewrite A in C. simpl in C. apply Z.ltb_ge in C. auto.
    - intros (I & T & A & E). split; auto.
      exists s. split; auto. rewrite A. simpl.
      now replace (expiresAt s <? now) with false by (symmetry; apply Z.ltb_ge; lia). }
  split; [exact M|].
  intros s I. apply M in I. destruct I as (I & T & A & E).
  subst st1. unfold getActiveSessionsByTeacher, deactivateExpiredSessions. cbn [snd].
  unfold isSessionValid. cbn [sessions]. rewrite getSession_map.
  - rewrite (getSession_In _ _ D I). simpl. rewrite A. simpl.
    replace (expiresAt s <? now) with false by (symmetry; apply Z.ltb_ge; lia).
    simpl. rewrite A. simpl.
    now replace (expiresAt s <? now) with false by (symmetry; apply Z.ltb_ge; lia).
  - intros x. destruct (isActive x && (expiresAt x <? now)); reflexivity.
Qed.

Lemma listed_sessions_are_valid_witness :
  let old := mkSession "s0" "teacher-1" None None None 500 true None 0 in
  let st := fresh [old; lecture] in
  let listed := fst (getActiveSessionsByTeacher 1000 "teacher-1" st) in
  let st1 := snd (getActiveSessionsByTeacher 1000 "teacher-1" st) in
  NoDup (map id (sessions st)) /\
  listed = [lecture] /\
  (forall s, In s listed -> isSessionValid 1000 (id s) st1 = (Valid s, st1)).
Proof.
  cbv zeta.
  assert (D : NoDup (map id (sessions (fresh
                [mkSession "s0" "teacher-1" None None None 500 true None 0; lecture])))).
  { simpl. repeat constructor; simpl; intuition discriminate. }
  split; [exact D|]. split; [reflexivity|].
  apply (listed_sessions_are_valid 1000 "teacher-1"
           (fresh [mkSession "s0" "teacher-1" None None None 500 true None 0; lecture]) D).
Defined.

End SessionTheory.

(** ** Attendance records over the life of the server *)

Module RecordsTheory.
Import Attendance AttendanceTheory.

Section Records.

Variable getDistance : Q * Q -> Q * Q -> Z.
Variable defaultGeofenceRadius : Z.

Abbreviation submit := (submit getDistance defaultGeofenceRadius).
Abbreviation run := (run getDistance defaultGeofenceRadius).
Abbreviation apply := (apply getDistance defaultGeofenceRadius).
Abbreviation accepted_store := (accepted_store getDistance defaultGeofenceRadius).

Lemma accepted_store_lastInsertRowid req now s st :
  lastInsertRowid (accepted_store req now s st) = lastInsertRowid st + 1.
Proof. reflexivity. Qed.

Lemma run_app ops1 ops2 st : run st (ops1 ++ ops2) = run (run st ops1) ops2.
Proof. apply fold_left_app. Qed.

(** *** Duplicate devices *)

Lemma same_field_spec (x y : option string) :
  truthy_str x && match x, y with
                  | Some a, Some b => String.eqb b a
                  | _, _ => false
                  end = true <->
  truthy_str x = true /\ y = x.
Proof.
  rewrite andb_true_iff. split; intros [T H]; split; auto.
  - destruct x as [a|], y as [b|]; try discriminate.
    apply String.eqb_eq in H. now subst.
  - subst y. destruct x as [a|]; [apply String.eqb_refl|discriminate].
Qed.

Lemma same_device_spec ip mac r :
  same_device ip mac r = true <->
  (truthy_str ip = true /\ ipAddress r = ip) \/
  (truthy_str mac = true /\ macAddress r = mac).
Proof.
  unfold same_device. rewrite orb_true_iff, !same_field_spec. tauto.
Qed.

(** X15.  [checkDuplicateDevice] reports a duplicate exactly when a stored
    record of the same session carries the submitted IP address or the
    submitted MAC address, an absent or empty value matching nothing;
    records of other sessions never count, and [duplicateOf] lists the
    emails of the matching records and nothing else. *)
Theorem duplicate_device_iff (sid : string) (ip mac : option string) (st : store) :
  let d := checkDuplicateDevice sid ip mac st in
  let matches r :=
    sessionId r = sid /\
    ((truthy_str ip = true /\ ipAddress r = ip) \/
     (truthy_str mac = true /\ macAddress r = mac)) in
  (isDuplicate d = true <-> exists r, In r (attendance st) /\ matches r) /\
  (forall em, In em (duplicateOf d) <->
              exists r, In r (attendance st) /\ matches r /\ email r = em) /\
  (isDuplicate d = false <-> duplicateOf d = []).
Proof.
  cbv zeta. unfold checkDuplicateDevice, getAttendanceStore.
  set (l := filter (same_device ip mac)
                   (filter (fun r => String.eqb (sessionId r) sid) (attendance st))).
  assert (M : forall r, In r l <->
                In r (attendance st) /\ sessionId r = sid /\
                ((truthy_str ip = true /\ ipAddress r = ip) \/
                 (truthy_str mac = true /\ macAddress r = mac))).
  { intros r. unfold l. rewrite !filter_In, String.eqb_eq, same_device_spec. tauto. }
  split; [|split].
  - destruct l as [|x l'] eqn:E; simpl.
    + split; [discriminate|]. intros (r & I). apply M in I. destruct I.
    + split; auto. intros _. exists x. apply M. now left.
  - intros em.
    assert (D : In em (map email l) <->
                exists r, In r (attendance st) /\
                  (sessionId r = sid /\
                   ((truthy_str ip = true /\ ipAddress r = ip) \/
                    (truthy_str mac = true /\ macAddress r = mac))) /\ email r = em).
    { rewrite in_map_iff. split.
      - intros (r & E & I). apply M in I. exists r. tauto.
      - intros (r & I & H & E). exists r. split; auto. apply M. tauto. }
    destruct l as [|x l'] eqn:E; simpl in *; auto.
  - destruct l as [|x l']; simpl; split; auto; discriminate.
Qed.

(** *** Row ids *)

Lemma accepted_store_ids req now s st :
  ids_inv st -> ids_inv (accepted_store req now s st).
Proof.
  intros [L B N]. constructor.
  - rewrite accepted_store_lastInsertRowid. lia.
  - intros r. rewrite accepted_store_attendance, accepted_store_lastInsertRowid.
    rewrite in_app_iff. simpl. intros [I|[<-|[]]]; [apply B in I; lia|simpl; lia].
  - rewrite accepted_store_attendance, map_app. simpl.
    apply NoDup_snoc; auto. intros I. apply in_map_iff in I.
    destruct I as (r & E & I). apply B in I. lia.
Qed.

Lemma apply_ids st op : ids_inv st -> ids_inv (apply st op).
Proof.
  intros C. destruct op as [req now|i|now|sid now]; simpl.
  - destruct (submit_store_cases getDistance defaultGeofenceRadius req now st) as
      [[_ ->]|(s & _ & [[_ ->]|[(_ & _ & ->)|[(_ & _ & _ & ->)|(_ & _ & H & ->)]]])]; auto.
    + destruct C as [L B N]. constructor; auto.
    + now apply accepted_store_ids.
  - destruct C as [L B N]. constructor; simpl; auto.
    + intros r I. apply in_map_iff in I. destruct I as (r0 & <- & I).
      specialize (B r0 I). now destruct (rid r0 =? i).
    + rewrite map_map. erewrite map_ext; [exact N|].
      intros r. destruct (rid r =? i); reflexivity.
  - destruct C as [L B N]. constructor; simpl; auto.
    + intros r I. apply filter_In in I. now apply B.
    + now apply NoDup_map_filter.
  - destruct C as [L B N]. constructor; auto.
Qed.

Lemma run_ids ops : forall st, ids_inv st -> ids_inv (run st ops).
Proof.
  induction ops as [|op ops IH]; intros st C; simpl; auto.
  apply IH. now apply apply_ids.
Qed.

Lemma fresh_ids ss : ids_inv (fresh ss).
Proof. constructor; simpl; [lia|contradiction|constructor]. Qed.

(** The mirror tasks of a submission: none unless a record was stored, and
    the id handed to [markAttendanceSynced] is the id of that record. *)
Lemma submit_tasks req now st :
  snd (submit req now st) = [] \/
  exists s,
    snd (fst (submit req now st)) = accepted_store req now s st /\
    forall t i, In t (snd (submit req now st)) ->
                mirror_marks_synced t = Some i -> i = lastInsertRowid st + 1.
Proof.
  unfold Attendance.submit.
  assert (C := isSessionValid_cases now (req_sessionId req) st).
  destruct (getSession (req_sessionId req) (sessions st)) as [s|] eqn:G;
    [|rewrite C; now left].
  destruct (isActive s) eqn:A; [|rewrite C; now left].
  destruct (expiresAt s <? now) eqn:E; rewrite C; [now left|].
  unfold hasStudentSubmitted.
  destruct (hasSessionAttendee (req_sessionId req) (req_email req) st) eqn:H;
    [now left|].
  right. exists s. unfold Attendance.accepted_store.
  destruct (addAttendanceRecord _ st) as [rowid st2] eqn:R. cbn [fst snd].
  split; [reflexivity|].
  assert (Er : rowid = lastInsertRowid st + 1).
  { unfold addAttendanceRecord in R. now inversion R. }
  intros t i I M.
  destruct (truthy_str (spreadsheetId s)); [|destruct I].
  destruct I as [<-|I]; [simpl in M; congruence|].
  destruct (negb _); [|destruct I].
  destruct I as [<-|[]]. discriminate.
Qed.

(** X16.  Row ids of the attendance table are positive, unique and never
    above the last id issued, whatever submissions, sync marks, cleanups and
    deactivations came before; so [markAttendanceSynced] changes one record
    at most, and only its synced flag. *)
Theorem record_ids_are_unique (ss : list session) (ops : list operation) (i : Z) :
  let st := run (fresh ss) ops in
  NoDup (map rid (attendance st)) /\
  (forall r, In r (attendance st) -> 1 <= rid r <= lastInsertRowid st) /\
  (forall r, In r (attendance st) -> rid r <> i ->
     In r (attendance (markAttendanceSynced i st))) /\
  (forall r1 r2, In r1 (attendance st) -> In r2 (attendance st) ->
     rid r1 = i -> rid r2 = i -> r1 = r2) /\
  map rid (attendance (markAttendanceSynced i st)) = map rid (attendance st).
Proof.
  intros st.
  assert (I : ids_inv st) by apply run_ids, fresh_ids.
  destruct I as [L B N]. split; [exact N|]. split; [exact B|]. split; [|split].
  - intros r I Ne. unfold markAttendanceSynced. cbn [attendance].
    apply in_map_iff. exists r. split; auto.
    destruct (rid r =? i) eqn:E; auto. apply Z.eqb_eq in E. contradiction.
  - intros r1 r2 I1 I2 E1 E2. clear B. revert N I1 I2.
    induction (attendance st) as [|x l IH]; simpl; [tauto|].
    intros N. apply NoDup_cons_iff in N. destruct N as [Nx N].
    intros [->|I1] [->|I2]; auto.
    + exfalso. apply Nx. apply in_map_iff. exists r2. split; auto. congruence.
    + exfalso. apply Nx. apply in_map_iff. exists r1. split; auto. congruence.
  - unfold markAttendanceSynced. cbn [attendance]. rewrite map_map.
    apply map_ext. intros r. now destruct (rid r =? i).
Qed.

(** X17.  When a submission enqueues a mirror task whose [onSuccess] marks
    a record as synced, the id it was given is the id of the record this
    submission has just stored, and of no record stored before. *)
Theorem sync_mark_targets_own_record (ss : list session) (ops : list operation)
        (req : request) (now : Z) (t : mirror_task) (i : Z) :
  let st := run (fresh ss) ops in
  let st' := snd (fst (submit req now st)) in
  In t (snd (submit req now st)) ->
  mirror_marks_synced t = Some i ->
  (exists r, attendance st' = attendance st ++ [r] /\ rid r = i /\
             sessionId r = req_sessionId req /\ email r = req_email req /\
             synced r = false) /\
  (forall r', In r' (attendance st) -> rid r' <> i).
Proof.
  intros st st' It M.
  assert (I : ids_inv st) by apply run_ids, fresh_ids.
  destruct I as [L B N].
  destruct (submit_tasks req now st) as [E|(s & E & H)].
  - rewrite E in It. destruct It.
  - assert (Ei := H t i It M). subst st'. rewrite E, accepted_store_attendance.
    split.
    + eexists. split; [reflexivity|]. simpl. auto.
    + intros r' I'. apply B in I'. lia.
Qed.

(** *** Records are purged only after their mirror write *)

Lemma kept_inv_more st done op : kept_inv st done -> kept_inv st (done ++ [op]).
Proof.
  intros [K S]. constructor.
  - intros i Hi. destruct (K i Hi) as [H|[M (n & C)]]; [now left|right].
    split; [|exists n]; apply in_or_app; now left.
  - intros r I Y. apply in_or_app. left. now apply S.
Qed.

Lemma kept_inv_ext st st' done :
  attendance st' = attendance st -> lastInsertRowid st' = lastInsertRowid st ->
  kept_inv st done -> kept_inv st' done.
Proof. intros A L [K S]. constructor; rewrite ?A, ?L; auto. Qed.

Lemma apply_kept st op done :
  kept_inv st done -> kept_inv (apply st op) (done ++ [op]).
Proof.
  intros C. destruct op as [req now|i|now|sid now]; simpl.
  - destruct (submit_store_cases getDistance defaultGeofenceRadius req now st) as
      [[_ ->]|(s & _ & [[_ ->]|[(_ & _ & ->)|[(_ & _ & _ & ->)|(_ & _ & H & ->)]]])];
      try (now apply kept_inv_more).
    + apply kept_inv_more. now apply kept_inv_ext with (st := st).
    + apply kept_inv_more. destruct C as [K S]. constructor.
      * intros i. rewrite accepted_store_lastInsertRowid, accepted_store_attendance.
        intros Hi. destruct (Z.eq_dec i (lastInsertRowid st + 1)) as [->|Ne].
        -- left. eexists. split; [apply in_or_app; right; left; reflexivity|reflexivity].
        -- destruct (K i) as [(r & I & E)|R]; [lia| |now right].
           left. exists r. split; auto. apply in_or_app. now left.
      * intros r. rewrite accepted_store_attendance, in_app_iff. simpl.
        intros [I|[<-|[]]] Y; [now apply S|discriminate].
  - destruct C as [K S]. constructor; simpl.
    + intros j Hj. destruct (K j Hj) as [(r & I & E)|[M (n & C)]].
      * left. exists (if rid r =? i then synced_row r else r).
        split; [|now destruct (rid r =? i)].
        apply in_map_iff. now exists r.
      * right. split; [|exists n]; apply in_or_app; now left.
    + intros r I Y. apply in_map_iff in I. destruct I as (r0 & <- & I).
      apply in_or_app. destruct (rid r0 =? i) eqn:E.
      * right. left. apply Z.eqb_eq in E. simpl. now rewrite E.
      * left. now apply S.
  - destruct C as [K S]. constructor; simpl.
    + intros j Hj. destruct (K j Hj) as [(r & I & E)|[M (n & C)]].
      * destruct (synced r && (timestamp r <? now - SYNC_GRACE_MS)) eqn:P.
        -- right. apply andb_true_iff in P. destruct P as [Y _]. split.
           ++ apply in_or_app. left. rewrite <- E. now apply S.
           ++ exists now. apply in_or_app. right. now left.
        -- left. exists r. split; auto. apply filter_In. split; auto. now rewrite P.
      * right. split; [|exists n]; apply in_or_app; now left.
    + intros r I Y. apply filter_In in I. destruct I as [I _].
      apply in_or_app. left. now apply S.
  - apply kept_inv_more. now apply kept_inv_ext with (st := st).
Qed.

Lemma run_kept ops : forall st done,
  kept_inv st done -> kept_inv (run st ops) (done ++ ops).
Proof.
  induction ops as [|op ops IH]; intros st done C; simpl.
  - now rewrite app_nil_r.
  - replace (done ++ op :: ops) with ((done ++ [op]) ++ ops)
      by (now rewrite <- app_assoc).
    apply IH. now apply apply_kept.
Qed.

(** X18.  No record is lost before it has been mirrored: every row id
    issued so far either belongs to a record that is still stored, or the
    record was marked as synced (by the [onSuccess] of its mirror task) and
    a cleanup has run. *)
Theorem unsynced_records_are_kept (ss : list session) (ops : list operation) (i : Z) :
  let st := run (fresh ss) ops in
  1 <= i <= lastInsertRowid st ->
  (exists r, In r (attendance st) /\ rid r = i) \/
  (In (MarkSynced i) ops /\ exists now, In (Cleanup now) ops).
Proof.
  intros st Hi.
  assert (K : kept_inv st ([] ++ ops)).
  { apply run_kept. constructor; simpl; [intros; lia|contradiction]. }
  simpl in K. now apply (kept_ids st ops K).
Qed.

(** *** Attendee counts *)

Lemma counts_ok_ext st st' :
  sessions st' = sessions st -> session_attendees st' = session_attendees st ->
  counts_ok st -> counts_ok st'.
Proof.
  intros S A C s I. unfold attendees_of. rewrite A. rewrite S in I. now apply C.
Qed.

Lemma addSessionAttendee_counts sid em st :
  counts_ok st -> counts_ok (addSessionAttendee sid em st).
Proof.
  intros C s I. unfold addSessionAttendee in *. cbn [sessions] in I.
  unfold attendees_of. cbn [session_attendees].
  apply in_map_iff in I. destruct I as (s0 & E & I).
  destruct (String.eqb (id s0) sid) eqn:Q.
  - subst s. apply String.eqb_eq in Q. simpl. now rewrite Q.
  - subst s. rewrite (C s0 I). unfold attendees_of.
    destruct (hasSessionAttendee sid em st); auto.
    rewrite filter_app. simpl.
    replace (String.eqb sid (id s0)) with false; [now rewrite app_nil_r|].
    symmetry. apply String.eqb_neq. intros ->. now rewrite String.eqb_refl in Q.
Qed.

Lemma apply_counts st op : counts_ok st -> counts_ok (apply st op).
Proof.
  intros C. destruct op as [req now|i|now|sid now]; simpl.
  - destruct (submit_store_cases getDistance defaultGeofenceRadius req now st) as
      [[_ ->]|(s & _ & [[_ ->]|[(_ & _ & ->)|[(_ & _ & _ & ->)|(_ & _ & H & ->)]]])]; auto.
    + intros x I. unfold deactivateSession in I. cbn [sessions] in I.
      apply in_map_iff in I. destruct I as (s0 & E & I).
      unfold attendees_of, deactivateSession. cbn [session_attendees].
      destruct (String.eqb (id s0) (req_sessionId req)); subst x; exact (C s0 I).
    + unfold Attendance.accepted_store, addAttendee.
      apply addSessionAttendee_counts.
      now apply counts_ok_ext with (st := st).
  - now apply counts_ok_ext with (st := st).
  - now apply counts_ok_ext with (st := st).
  - intros x I. unfold deactivateSession in I. cbn [sessions] in I.
    apply in_map_iff in I. destruct I as (s0 & E & I).
    unfold attendees_of, deactivateSession. cbn [session_attendees].
    destruct (String.eqb (id s0) sid); subst x; exact (C s0 I).
Qed.

Lemma run_counts ops : forall st, counts_ok st -> counts_ok (run st ops).
Proof.
  induction ops as [|op ops IH]; intros st C; simpl; auto.
  apply IH. now apply apply_counts.
Qed.

Lemma stored_records_le_attendees sid st :
  consistent st ->
  Z.of_nat (List.length (filter (fun r => String.eqb (sessionId r) sid) (attendance st)))
  <= attendees_of sid st.
Proof.
  intros [R N]. unfold attendees_of. apply inj_le.
  rewrite <- (length_map key_of).
  apply NoDup_incl_length.
  - now apply NoDup_map_filter.
  - intros p I. apply in_map_iff in I. destruct I as (r & <- & I).
    apply filter_In in I. destruct I as [I E].
    apply filter_In. split; [|exact E].
    apply hasSessionAttendee_In. now apply R.
Qed.

(** X19.  When sessions start with an attendee count of 0, as
    [generateQRCode] creates them, the count stored with a session is at any
    time the number of students registered for it in [session_attendees],
    and the records of the session still stored are never more than that
    (fewer once a cleanup has purged mirrored ones). *)
Theorem attendee_count_matches_attendees (ss : list session) (ops : list operation)
        (s : session) :
  (forall x, In x ss -> attendeeCount x = 0) ->
  let st := run (fresh ss) ops in
  In s (sessions st) ->
  attendeeCount s = attendees_of (id s) st /\
  Z.of_nat (List.length (filter (fun r => String.eqb (sessionId r) (id s))
                                (attendance st)))
  <= attendeeCount s.
Proof.
  intros Z0 st I.
  assert (C : counts_ok st).
  { apply run_counts. intros x Hx. simpl in Hx. unfold attendees_of. simpl.
    now apply Z0. }
  assert (K : consistent st)
    by apply (run_consistent getDistance defaultGeofenceRadius), fresh_consistent.
  split; [now apply C|]. rewrite (C s I). now apply stored_records_le_attendees.
Qed.

End Records.

Lemma sync_mark_targets_own_record_witness :
  let sheet := mkSession "s2" "teacher-1" None None (Some "sheet-1") 900000 true None 0 in
  let req := mkRequest "s2" "Amel" "amel@univ.dz" None None None (Some "10.0.0.7") in
  let st := Attendance.run meridian_distance 100 (fresh [sheet]) [] in
  let r := Attendance.submit meridian_distance 100 req 1000 st in
  let t := mkMirror "attendance-s2-amel@univ.dz" "s2" (Some 1) in
  In t (snd r) /\ mirror_marks_synced t = Some 1 /\
  (exists rec, attendance (snd (fst r)) = attendance st ++ [rec] /\ rid rec = 1 /\
               sessionId rec = "s2" /\ email rec = "amel@univ.dz" /\
               synced rec = false) /\
  (forall r', In r' (attendance st) -> rid r' <> 1).
Proof.
  cbv zeta. split; [left; reflexivity|]. split; [reflexivity|].
  apply (sync_mark_targets_own_record meridian_distance 100
           [mkSession "s2" "teacher-1" None None (Some "sheet-1") 900000 true None 0] []
           (mkRequest "s2" "Amel" "amel@univ.dz" None None None (Some "10.0.0.7")) 1000
           (mkMirror "attendance-s2-amel@univ.dz" "s2" (Some 1)) 1);
    [left; reflexivity|reflexivity].
Defined.

Lemma unsynced_records_are_kept_witness :
  let req := mkRequest "s1" "Amel" "amel@univ.dz" None None None (Some "10.0.0.7") in
  let ops := [Submit req 1000; Cleanup 9000000] in
  let st := Attendance.run meridian_distance 100 (fresh [lecture]) ops in
  1 <= 1 <= lastInsertRowid st /\
  ((exists r, In r (attendance st) /\ rid r = 1) \/
   (In (MarkSynced 1) ops /\ exists now, In (Cleanup now) ops)).
Proof.
  cbv zeta. split; [vm_compute; split; discriminate|].
  apply (unsynced_records_are_kept meridian_distance 100 [lecture]
           [Submit (mkRequest "s1" "Amel" "amel@univ.dz" None None None (Some "10.0.0.7"))
                   1000;
            Cleanup 9000000] 1).
  vm_compute. split; discriminate.
Defined.

Lemma attendee_count_matches_attendees_witness :
  let req1 := mkRequest "s1" "Amel" "amel@univ.dz" None None None (Some "10.0.0.7") in
  let req2 := mkRequest "s1" "Badis" "badis@univ.dz" (Some "AA:BB") None None None in
  let ops := [Submit req1 1000; Submit req2 2000; Submit req1 3000] in
  let st := Attendance.run meridian_distance 100 (fresh [lecture]) ops in
  let s := with_attendeeCount 2 lecture in
  (forall x, In x [lecture] -> attendeeCount x = 0) /\
  In s (sessions st) /\
  attendeeCount s = attendees_of (id s) st /\
  Z.of_nat (List.length (filter (fun r => String.eqb (sessionId r) (id s))
                                (attendance st)))
  <= attendeeCount s.
Proof.
  cbv zeta.
  assert (Z0 : forall x, In x [lecture] -> attendeeCount x = 0).
  { intros x [<-|[]]. reflexivity. }
  split; [exact Z0|]. split; [left; reflexivity|].
  apply (attendee_count_matches_attendees meridian_distance 100 [lecture]
           [Submit (mkRequest "s1" "Amel" "amel@univ.dz" None None None (Some "10.0.0.7"))
                   1000;
            Submit (mkRequest "s1" "Badis" "badis@univ.dz" (Some "AA:BB") None None None)
                   2000;
            Submit (mkRequest "s1" "Amel" "amel@univ.dz" None None None (Some "10.0.0.7"))
                   3000]
           (with_attendeeCount 2 lecture) Z0).
  left. reflexivity.
Defined.

End RecordsTheory.

(** ** Properties of the sequential write queue *)

Module WriteQueueTheory.
Import WriteQueue.

Ltac ws :=
  cbn [this frames trace with_queue with_processing _queue _processing
       _maxRetries _retryDelay set_nth drop_nth] in *.

Lemma wq_spec_snoc tr e :
  KeyedConcurrentQueue.lane_spec lane (map as_lane (tr ++ [e])) =
  match KeyedConcurrentQueue.lane_spec lane (map as_lane tr) with
  | Some st => KeyedConcurrentQueue.lane_spec_step lane st (as_lane e)
  | None => None
  end.
Proof. rewrite map_app. apply QueueTheory.lane_spec_snoc. Qed.

Lemma wq_delays_snoc tr e :
  Forall linear_delay tr -> linear_delay e -> Forall linear_delay (tr ++ [e]).
Proof. intros H E. apply Forall_app. split; auto. Qed.

(** The loop head of the only call of [_process], the queue holding fresh
    items only. *)
Lemma wq_loop_idle w :
  _maxRetries (this w) = 2 -> _retryDelay (this w) = 1000 ->
  _processing (this w) = true ->
  (List.length (frames w) <= 1)%nat ->
  (forall x, In x (_queue (this w)) -> retries x = 0) ->
  spec_state w = Some (map task (_queue (this w)), KeyedConcurrentQueue.Idle) ->
  Forall linear_delay (trace w) ->
  write_inv (loop 0 w).
Proof.
  intros R D P L F S T. unfold loop.
  assert (Fs : forall f, set_nth 0 f (frames w) = [f] /\ drop_nth 0 (frames w) = []).
  { intros f. destruct (frames w) as [|g [|h fs]]; simpl in *; auto. lia. }
  destruct (_queue (this w)) as [|it rest] eqn:Q.
  - destruct (Fs (AwaitTask (mkItem 0 "" 0))) as [_ E].
    constructor; ws; auto. rewrite E. repeat split; auto.
  - destruct (Fs (AwaitTask it)) as [E _].
    assert (R0 : retries it = 0) by (apply F; now left).
    constructor; ws; auto.
    + rewrite E. split; auto. split; [lia|]. split; [intros x I; apply F; now right|].
      unfold spec_state in *. ws. rewrite wq_spec_snoc, S. simpl.
      rewrite ?String.eqb_refl, ?Nat.eqb_refl, ?R0; simpl; rewrite ?R0; reflexivity.
    + apply wq_delays_snoc; simpl; auto.
Qed.

Lemma wq_step_inv w i : write_inv w -> write_inv (step w i).
Proof.
  intros I. assert (I0 := I). destruct I as [R D St T].
  destruct (frames w) as [|[it|it ms] [|g fs]] eqn:Fr; try contradiction.
  - (* no call of _process is running *)
    destruct St as (P & Q & S).
    destruct i as [t lbl|n|n err|n]; simpl; rewrite ?Fr;
      try (destruct n; exact I0).
    unfold enqueue, _process. ws. rewrite P, Q, Fr. simpl List.length.
    apply wq_loop_idle; ws; auto.
    + intros x [<-|[]]. reflexivity.
    + unfold spec_state in *. ws. rewrite wq_spec_snoc, S. simpl.
      rewrite ?String.eqb_refl; reflexivity.
    + apply wq_delays_snoc; simpl; auto.
  - (* the call awaits a task *)
    destruct St as (P & R0 & F & S).
    destruct i as [t lbl|n|n err|n]; simpl; rewrite ?Fr.
    + unfold enqueue, _process. ws. rewrite P.
      constructor; ws; auto.
      * rewrite Fr. split; auto. split; auto. split.
        -- intros x I. apply in_app_or in I. destruct I as [I|[<-|[]]]; auto.
        -- unfold spec_state in *. ws. rewrite wq_spec_snoc, S. simpl.
           rewrite ?String.eqb_refl, ?map_app; reflexivity.
      * apply wq_delays_snoc; simpl; auto.
    + destruct n as [|n]; simpl; [|destruct n; exact I0].
      unfold task_resolved. apply wq_loop_idle; ws; auto.
      * rewrite Fr. simpl. lia.
      * unfold spec_state in *. ws. rewrite wq_spec_snoc, S. simpl.
        rewrite ?String.eqb_refl, ?Nat.eqb_refl; reflexivity.
      * apply wq_delays_snoc; simpl; auto.
    + destruct n as [|n]; simpl; [|destruct n; exact I0].
      unfold task_rejected. rewrite R, D.
      destruct (retries it <? 2) eqn:Lt.
      * apply Z.ltb_lt in Lt. constructor; ws; auto.
        -- rewrite Fr. simpl. split; auto. split; [lia|].
           exists (_queue (this w)). split; auto. split; auto.
           unfold spec_state in *. ws. rewrite wq_spec_snoc, S. simpl.
           rewrite ?String.eqb_refl, ?Nat.eqb_refl, ?Z.eqb_refl; reflexivity.
        -- apply wq_delays_snoc; simpl; auto. lia.
      * apply wq_loop_idle; ws; auto.
        -- rewrite Fr. simpl. lia.
        -- unfold spec_state in *. ws. rewrite wq_spec_snoc, S. simpl.
           rewrite ?String.eqb_refl, ?Nat.eqb_refl; reflexivity.
        -- apply wq_delays_snoc; simpl; auto.
    + destruct n as [|n]; simpl; [|destruct n]; exact I0.
  - (* the call awaits its retry timer *)
    destruct St as (P & R1 & rest & Q & F & S).
    destruct i as [t lbl|n|n err|n]; simpl; rewrite ?Fr.
    + unfold enqueue, _process. ws. rewrite P.
      constructor; ws; auto.
      * rewrite Fr. split; auto. split; auto.
        exists (rest ++ [mkItem t lbl 0]). rewrite Q. split; auto. split.
        -- intros x I. apply in_app_or in I. destruct I as [I|[<-|[]]]; auto.
        -- unfold spec_state in *. ws. rewrite wq_spec_snoc, S. simpl.
           rewrite ?String.eqb_refl, ?map_app; reflexivity.
      * apply wq_delays_snoc; simpl; auto.
    + destruct n as [|n]; simpl; [|destruct n]; exact I0.
    + destruct n as [|n]; simpl; [|destruct n]; exact I0.
    + destruct n as [|n]; simpl; [|destruct n; exact I0].
      unfold timer_fired, loop. rewrite Q, Fr. ws.
      constructor; ws; auto.
      * split; auto. split; [lia|]. split; auto.
        unfold spec_state in *. ws. rewrite wq_spec_snoc, S. simpl.
        rewrite ?String.eqb_refl, ?Nat.eqb_refl, ?Z.eqb_refl; reflexivity.
      * apply wq_delays_snoc; simpl; auto.
Qed.

Lemma wq_init_inv : write_inv init.
Proof. constructor; simpl; auto. Qed.

Lemma wq_reachable_inv ins : write_inv (run init ins).
Proof.
  assert (H : forall w, write_inv w -> write_inv (run w ins)).
  { induction ins as [|i ins IH]; intros w I; simpl; auto.
    apply IH. now apply wq_step_inv. }
  apply H, wq_init_inv.
Qed.

Lemma wq_spec_reachable ins :
  exists st, KeyedConcurrentQueue.lane_spec lane (map as_lane (trace (run init ins)))
             = Some st.
Proof.
  destruct (wq_reachable_inv ins) as [_ _ St _]. unfold spec_state in St.
  destruct (frames (run init ins)) as [|[it|it ms] [|g fs]]; try contradiction.
  - destruct St as (_ & _ & S). eauto.
  - destruct St as (_ & _ & _ & S). eauto.
  - destruct St as (_ & _ & rest & _ & _ & S). eauto.
Qed.

Lemma wq_lane_events tr :
  KeyedConcurrentQueue.lane_events lane (map as_lane tr) = map as_lane (work_events tr).
Proof.
  unfold KeyedConcurrentQueue.lane_events, work_events.
  induction tr as [|e tr IH]; simpl; auto.
  destruct e; simpl; rewrite ?String.eqb_refl; simpl; now rewrite ?IH.
Qed.

Lemma wq_last_started tr l0 t a :
  map as_lane tr = l0 ++ [KeyedConcurrentQueue.Started lane t a] ->
  exists l, tr = l ++ [Started t a].
Proof.
  intros H. apply map_eq_app in H. destruct H as (l1 & l2 & -> & _ & H).
  destruct l2 as [|e [|e' l2]]; try discriminate.
  exists l1. destruct e; try discriminate. simpl in H. now inversion H.
Qed.

Lemma wq_last_retrying tr l0 t a n ms :
  map as_lane tr = l0 ++ [KeyedConcurrentQueue.Started lane t a;
                          KeyedConcurrentQueue.Retrying lane t n ms] ->
  exists l, tr = l ++ [Started t a; Retrying t n ms].
Proof.
  intros H. apply map_eq_app in H. destruct H as (l1 & l2 & -> & _ & H).
  destruct l2 as [|e [|e' [|e'' l2]]]; try discriminate.
  exists l1. destruct e; try discriminate. destruct e'; try discriminate.
  simpl in H. now inversion H.
Qed.

(** X20.  The write queue runs one task at a time: at most one call of
    [_process] is ever suspended, [_processing] is set exactly while there is
    one, the queue is empty whenever none is running, and while a retry
    timer is pending the failed item is already back at the front of the
    queue, where [length] counts it. *)
Theorem write_queue_runs_one_task_at_a_time (ins : list input) :
  let w := run init ins in
  (List.length (frames w) <= 1)%nat /\
  (_processing (this w) = true <-> frames w <> []) /\
  (frames w = [] -> get_length (this w) = 0) /\
  (forall it ms, In (AwaitTimer it ms) (frames w) ->
     exists rest, _queue (this w) = it :: rest /\ 1 <= get_length (this w)).
Proof.
  intros w. destruct (wq_reachable_inv ins) as [_ _ St _]. fold w in St.
  unfold get_length.
  destruct (frames w) as [|[it|it ms] [|g fs]]; try contradiction.
  - destruct St as (P & Q & _). rewrite P, Q. simpl.
    split; [lia|]. split; [split; [discriminate|congruence]|].
    split; [reflexivity|]. intros it ms [].
  - destruct St as (P & _). rewrite P. simpl.
    split; [lia|]. split; [split; [discriminate|reflexivity]|].
    split; [discriminate|]. intros it' ms [H|[]]. discriminate.
  - destruct St as (P & _ & rest & Q & _). rewrite P, Q. simpl List.length.
    split; [lia|]. split; [split; [discriminate|reflexivity]|].
    split; [discriminate|].
    intros it' ms' [H|[]]. inversion H; subst. exists rest. split; auto. lia.
Qed.

(** X21.  Tasks of the write queue run in the order in which they were
    enqueued.  Cut the trace of any run at any point: the tasks begun so far
    are the first tasks enqueued; and if the next event starts a task, then
    either it is a first attempt, every task begun earlier has succeeded or
    failed for good, and the task is the oldest one not begun yet, or it is
    retry [a] of the task whose attempt [a - 1] was the last thing the queue
    ran before it scheduled that retry. *)
Theorem write_queue_order (ins : list input) (pre post : list event) :
  trace (run init ins) = pre ++ post ->
  (exists rest, enqueued pre = begun pre ++ rest) /\
  (forall t a post', post = Started t a :: post' ->
     (a = 0 /\ completed pre = begun pre /\
      exists later, enqueued pre = begun pre ++ t :: later)
     \/
     (0 < a /\ exists l0 ms,
        work_events pre = l0 ++ [Started t (a - 1); Retrying t a ms])).
Proof.
  intros T. destruct (wq_spec_reachable ins) as [st S].
  rewrite T, map_app in S.
  destruct (QueueTheory.lane_spec_prefix _ _ _ _ S) as [[p1 s1] S1].
  destruct (QueueTheory.lane_spec_facts _ _ _ S1) as [E1 F1]. simpl in E1, F1.
  unfold enqueued, begun, completed.
  split; [eauto|].
  intros t a post' ->. rewrite map_cons in S. cbn [as_lane] in S.
  change (KeyedConcurrentQueue.Started lane t a :: map as_lane post')
    with ([KeyedConcurrentQueue.Started lane t a] ++ map as_lane post') in S.
  rewrite app_assoc in S.
  destruct (QueueTheory.lane_spec_prefix _ _ _ _ S) as [st2 S2].
  rewrite QueueTheory.lane_spec_snoc, S1 in S2. simpl in S2.
  rewrite ?String.eqb_refl in S2.
  destruct s1 as [|t' a'|t' n'].
  - destruct p1 as [|p0 ps]; [discriminate|].
    destruct (Nat.eqb p0 t) eqn:Et; [|discriminate].
    destruct (a =? 0) eqn:Ea; [|discriminate].
    apply Nat.eqb_eq in Et. apply Z.eqb_eq in Ea. subst.
    left. split; [reflexivity|]. split; [congruence|]. eauto.
  - discriminate.
  - destruct (Nat.eqb t' t) eqn:Et; [|discriminate].
    destruct (a =? n') eqn:Ea; [|discriminate].
    apply Nat.eqb_eq in Et. apply Z.eqb_eq in Ea. subst.
    destruct F1 as (_ & Hn & l0 & ms & L).
    right. split; [lia|]. rewrite wq_lane_events in L.
    apply wq_last_retrying in L. destruct L as [l L]. eauto.
Qed.

Lemma write_queue_order_witness :
  let ins := [Enqueue 1 "t1"; Enqueue 2 "t2"; Reject 0 "e1"; Enqueue 3 "t3";
              Timer 0; Resolve 0] in
  let pre := [Enqueued 1; Started 1 0; Enqueued 2; Retrying 1 1 1000; Enqueued 3] in
  let post := [Started 1 1; Succeeded 1; Started 2 0] in
  trace (run init ins) = pre ++ post /\
  (exists rest, enqueued pre = begun pre ++ rest) /\
  (forall t a post', post = Started t a :: post' ->
     (a = 0 /\ completed pre = begun pre /\
      exists later, enqueued pre = begun pre ++ t :: later)
     \/
     (0 < a /\ exists l0 ms,
        work_events pre = l0 ++ [Started t (a - 1); Retrying t a ms])).
Proof.
  cbv zeta. split; [reflexivity|].
  apply (write_queue_order
           [Enqueue 1 "t1"; Enqueue 2 "t2"; Reject 0 "e1"; Enqueue 3 "t3";
            Timer 0; Resolve 0]).
  reflexivity.
Defined.

(** X22.  The write queue retries a failed task twice at most, and waits
    1000 ms before the first retry and 2000 ms before the second: whenever a
    run schedules retry number [n] of a task, the attempt that has just
    failed is attempt [n - 1] of that task, [n] is 1 or 2, and the timer is
    set to [1000 * n] milliseconds. *)
Theorem write_queue_linear_backoff (ins : list input) (t : nat) (n ms : Z)
        (pre post : list event) :
  trace (run init ins) = pre ++ Retrying t n ms :: post ->
  ms = 1000 * n /\
  1 <= n <= 2 /\
  exists l0, work_events pre = l0 ++ [Started t (n - 1)].
Proof.
  intros T.
  assert (D := wi_delays _ (wq_reachable_inv ins)). rewrite T in D.
  rewrite Forall_app in D. destruct D as [_ D]. apply Forall_inv in D.
  unfold linear_delay in D. destruct D as [Dm Dn]. subst ms.
  destruct (wq_spec_reachable ins) as [st S].
  rewrite T, map_app, map_cons in S. cbn [as_lane] in S.
  change (KeyedConcurrentQueue.Retrying lane t n (1000 * n) :: map as_lane post)
    with ([KeyedConcurrentQueue.Retrying lane t n (1000 * n)] ++ map as_lane post) in S.
  rewrite app_assoc in S.
  destruct (QueueTheory.lane_spec_prefix _ _ _ _ S) as [st2 S2].
  destruct (QueueTheory.lane_spec_prefix _ _ _ _ S2) as [[p1 s1] S1].
  destruct (QueueTheory.lane_spec_facts _ _ _ S1) as [E1 F1]. simpl in E1, F1.
  rewrite QueueTheory.lane_spec_snoc, S1 in S2. simpl in S2.
  rewrite ?String.eqb_refl in S2.
  destruct s1 as [|t' a'|t' n']; try discriminate.
  destruct (Nat.eqb t' t) eqn:Et; [|discriminate].
  destruct (n =? a' + 1) eqn:En; [|discriminate].
  apply Nat.eqb_eq in Et. apply Z.eqb_eq in En. subst.
  destruct F1 as (_ & Ha & l0 & L).
  split; [reflexivity|]. split; [lia|].
  rewrite wq_lane_events in L.
  replace (a' + 1 - 1) with a' by lia.
  now apply wq_last_started in L.
Qed.

Lemma write_queue_linear_backoff_witness :
  let ins := [Enqueue 1 "t1"; Reject 0 "e1"; Timer 0; Reject 0 "e2"; Timer 0;
              Reject 0 "e3"] in
  let pre := [Enqueued 1; Started 1 0; Retrying 1 1 1000; Started 1 1] in
  let post := [Started 1 2; Failed 1] in
  trace (run init ins) = pre ++ Retrying 1 2 2000 :: post /\
  2000 = 1000 * 2 /\
  1 <= 2 <= 2 /\
  exists l0, work_events pre = l0 ++ [Started 1 (2 - 1)].
Proof.
  cbv zeta. split; [reflexivity|].
  apply (write_queue_linear_backoff
           [Enqueue 1 "t1"; Reject 0 "e1"; Timer 0; Reject 0 "e2"; Timer 0;
            Reject 0 "e3"] 1%nat 2 2000
           [Enqueued 1; Started 1 0; Retrying 1 1 1000; Started 1 1]
           [Started 1 2; Failed 1]).
  reflexivity.
Defined.

End WriteQueueTheory.
